(** * Geodesic solvers of libgeodesy / PROJ.4 [geod]: a shallow embedding

    The C sources under [src/geodesic] ([proj_adjlon.c], [proj_gforward.c],
    [proj_in_fwd.c], [proj_in_inv.c], [proj_inv.c], [proj_pt_fwd.c],
    [proj_pt_inv.c], [proj_sp_fwd.c], [proj_sp_inv.c]) and [src/src]
    ([geod_for.c], [geod_inv.c], the two modes [do_arc] and [do_geod] of
    [geod.c], [GEOD_init_plus] of [geod_set.c]) are transcribed statement
    by statement.

    Modelling conventions.
    - A C [double] is a real number ([R]); rounding, infinities, NaN and
      signed zeros are outside the model.  The functions of [<math.h>] are
      the real functions of the same name, and every statement below is
      about exact real arithmetic.  Where C yields an infinity or a NaN
      (a division by 0, [asin] or [acos] outside [-1, 1], [sqrt] of a
      negative number) the real function of the library is total and
      yields some real: a statement about a computed value carries as
      hypotheses what keeps the computation away from these cases (a
      radius that is not 0, a flattening below 1, a latitude off the
      poles, a divisor that is not 0).
    - Two facts about binary64 are used where the difference matters, both
      as statements about reals: the doubles of magnitude 256 or more are
      multiples of [2 ^ -44], and the double that [<math.h>] gives for
      PI / 2 is [884279719003555 / 2 ^ 49].
    - A pointer field ([pt1], [pt2], [E]) is an [option]: [None] is [NULL].
      The objects pointed to are distinct, caller-owned records.
    - A function that dereferences a pointer returns a [result]: [Fault] is
      the undefined behaviour of a [NULL] dereference, or a loop that has
      not left after the given number of iterations.
    - A local variable that C assigns several times becomes a chain of
      [let]s; the names of the source are kept. *)

From Stdlib Require Import Reals Machin Lra Lia ZArith Bool Zfloor List Ascii.

Local Open Scope R_scope.

(* ================================================================== *)
(** * The functions of [<math.h>] over the reals *)
(* ================================================================== *)

Module CMath.

Definition M_PI : R := PI.
Definition M_PI_2 : R := PI / 2.
Definition M_1_PI : R := / PI.

Definition fabs (x : R) : R := Rabs x.
Definition floor (x : R) : R := IZR (Zfloor x).
Definition hypot (x y : R) : R := sqrt (x * x + y * y).

(** C comparisons, as booleans so that [&&], [||] and [!] read as in C. *)
Definition ltb (x y : R) : bool := if Rlt_dec x y then true else false.
Definition leb (x y : R) : bool := if Rle_dec x y then true else false.
Definition gtb (x y : R) : bool := ltb y x.
Definition geb (x y : R) : bool := leb y x.
Definition neqb (x y : R) : bool := if Req_dec_T x y then false else true.

(** [copysign (m, x)]: the magnitude of [m] with the sign of [x]. *)
Definition copysign (m x : R) : R := if Rle_dec 0 x then Rabs m else - Rabs m.

(** [atan2 (y, x)]: the angle of the point (x, y), in (-PI, PI];
    [atan2 (0, 0)] is 0. *)
Definition atan2 (y x : R) : R :=
  if Rlt_dec 0 x then atan (y / x)
  else if Rlt_dec x 0 then
         (if Rle_dec 0 y then atan (y / x) + PI else atan (y / x) - PI)
  else if Rlt_dec 0 y then PI / 2
  else if Rlt_dec y 0 then - (PI / 2)
  else 0.

End CMath.
Import CMath.

Infix "<?" := ltb (at level 70, no associativity) : R_scope.
Infix "<=?" := leb (at level 70, no associativity) : R_scope.
Infix ">?" := gtb (at level 70, no associativity) : R_scope.
Infix ">=?" := geb (at level 70, no associativity) : R_scope.

(* ================================================================== *)
(** * [proj_adjlon.c] *)
(* ================================================================== *)

(** [#define DBL_EPSILON 1e-14] (the file's own definition). *)
Definition DBL_EPSILON : R := 1e-14.

(** [double proj_adjlon(double lon)] *)
Definition proj_adjlon (lon : R) : R :=
  let x := lon * M_1_PI in
  if fabs x - 1 >? 3 * DBL_EPSILON then
    let x := 0.5 * (x + 1.0) in
    ((x - floor x) - 0.5) * 2 * M_PI
  else lon.

(** The largest magnitude that the test of line 49 lets through. *)
Definition adjlon_band : R := PI * (1 + 3 * DBL_EPSILON).

(* ================================================================== *)
(** * [project.h]: the data model *)
(* ================================================================== *)

(** [PROJ_PT_LPH]: 3D geographic coordinate. *)
Module LPH.
Record t : Type := mk
  { lam : R    (* longitude in radians *)
  ; phi : R    (* latitude in radians *)
  ; h : R      (* height above the ellipsoid *) }.
End LPH.
Abbreviation PROJ_PT_LPH := LPH.t.

(** [PROJ_ELLIPS]: Earth's elliptical constants. *)
Module ELLIPS.
Record t : Type := mk
  { a : R        (* semi-major axis or sphere radius *)
  ; f : R        (* ellipsoid flattening, if == 0 then sphere *)
  ; es : R       (* eccentricity squared *)
  ; one_es : R   (* 1-es *) }.
End ELLIPS.
Abbreviation PROJ_ELLIPS := ELLIPS.t.

(** [PROJ_LINE]: geodesic line structure.  The field names are those of
    the C structure; they live in a module because [S] is also the
    successor of [nat]. *)
Module LINE.
Record t : Type := mk
  { pt1 : option PROJ_PT_LPH   (* PROJ_PT_LPH *pt1 *)
  ; az12 : R                   (* azimuth from pt1 to pt2 (forward) *)
  ; pt2 : option PROJ_PT_LPH   (* PROJ_PT_LPH *pt2 *)
  ; az21 : R                   (* azimuth from pt2 to pt1 (back) *)
  ; S : R                      (* geodetic distance between points *)
  ; E : option PROJ_ELLIPS     (* PROJ_ELLIPS *E *) }.

(** Assignments [A->fld = v]. *)
Definition set_az12 (v : R) (A : t) : t :=
  mk (pt1 A) v (pt2 A) (az21 A) (S A) (E A).
Definition set_az21 (v : R) (A : t) : t :=
  mk (pt1 A) (az12 A) (pt2 A) v (S A) (E A).
Definition set_S (v : R) (A : t) : t :=
  mk (pt1 A) (az12 A) (pt2 A) (az21 A) v (E A).
(** The object behind [A->pt2] after [A->pt2->phi = v] or
    [A->pt2->lam = v], and the line that points to it. *)
Definition with_phi (v : R) (p2 : PROJ_PT_LPH) : PROJ_PT_LPH :=
  LPH.mk (LPH.lam p2) v (LPH.h p2).
Definition with_lam (v : R) (p2 : PROJ_PT_LPH) : PROJ_PT_LPH :=
  LPH.mk v (LPH.phi p2) (LPH.h p2).
Definition store_pt2 (p2 : PROJ_PT_LPH) (A : t) : t :=
  mk (pt1 A) (az12 A) (Some p2) (az21 A) (S A) (E A).
End LINE.
Abbreviation PROJ_LINE := LINE.t.

(** ** Outcomes of a call *)

Inductive fault : Type :=
| NullDeref       (* a NULL pointer was dereferenced *)
| StillLooping    (* the loop has not left after the given iterations *).

Inductive result (T : Type) : Type :=
| Ok (x : T)
| Fault (e : fault).
Arguments Ok {T} x.
Arguments Fault {T} e.

Definition bind {T U : Type} (m : result T) (k : T -> result U) : result U :=
  match m with
  | Ok x => k x
  | Fault e => Fault e
  end.

Notation "x <- m ;; k" := (bind m (fun x => k))
  (at level 61, m at next level, right associativity).

(** [*p] *)
Definition deref {T : Type} (p : option T) : result T :=
  match p with
  | Some x => Ok x
  | None => Fault NullDeref
  end.

(** [A->pt2->phi = v;] and [A->pt2->lam = v;] *)
Definition set_pt2_phi (v : R) (A : PROJ_LINE) : result PROJ_LINE :=
  p2 <- deref (LINE.pt2 A) ;; Ok (LINE.store_pt2 (LINE.with_phi v p2) A).
Definition set_pt2_lam (v : R) (A : PROJ_LINE) : result PROJ_LINE :=
  p2 <- deref (LINE.pt2 A) ;; Ok (LINE.store_pt2 (LINE.with_lam v p2) A).

(** [p == NULL] *)
Definition is_null {T : Type} (p : option T) : bool :=
  match p with
  | Some _ => false
  | None => true
  end.

(* ================================================================== *)
(** * [proj_sp_fwd.c] *)
(* ================================================================== *)

(** [void proj_sp_fwd(PROJ_LINE * A)] *)
Definition proj_sp_fwd (A : PROJ_LINE) : result PROJ_LINE :=
  E <- deref (LINE.E A) ;;
  let S := LINE.S A / ELLIPS.a E in
  let cc := cos S in
  let sc := sin S in
  p1 <- deref (LINE.pt1 A) ;;
  let cp := cos (LPH.phi p1) in
  let sp := sin (LPH.phi p1) in
  let ca := cos (LINE.az12 A) in
  A <- set_pt2_phi (asin (sp * cc + cp * sc * ca)) A ;;
  A <- set_pt2_lam
         (LPH.lam p1 +
          atan2 (sc * sin (LINE.az12 A)) (cp * cc - sp * sc * ca)) A ;;
  p2 <- deref (LINE.pt2 A) ;;
  let dl := LPH.lam p1 - LPH.lam p2 in
  let A := LINE.set_az21
             (atan2 (cp * sin dl)
                (cos (LPH.phi p2) * sp - sin (LPH.phi p2) * cp * cos dl)) A in
  if fabs (LPH.lam p2) >? M_PI
  then set_pt2_lam (LPH.lam p2 - copysign (2 * M_PI) (LPH.lam p2)) A
  else Ok A.

(* ================================================================== *)
(** * [proj_in_fwd.c] *)
(* ================================================================== *)

Module InFwd.

(** [#define EPS 5e-14] *)
Definition EPS : R := 5e-14.

(** The variables that the [do ... while] body assigns. *)
Record vars : Type := mk
  { sy : R; cy : R; cz : R; e : R; c : R; x : R; y : R }.

(** One pass through the body (lines 71-79); [az21] is [A->az21], [d] and
    [tu] are the locals of that name, [y] the current iterate. *)
Definition body (az21 d tu y : R) : vars :=
  let sy := sin y in
  let cy := cos y in
  let cz := cos (az21 + y) in
  let e := cz * cz * 2.0 - 1.0 in
  let c := y in
  let x := e * cy in
  let y := e + e - 1.0 in
  let y := (((sy * sy * 4.0 - 3.0) * y * cz * d / 6.0 + x) * d / 4.0 - cz) *
           sy * d + tu in
  mk sy cy cz e c x y.

(** [do { body } while (fabs(y - c) > EPS);] for a body [pass] that maps
    the iterate [y] to the variables it assigns.  The source loop has no
    counter: [fuel] only bounds the unfolding, and running out of it is
    [StillLooping]. *)
Fixpoint iterate (pass : R -> vars) (fuel : nat) (y : R) : result vars :=
  match fuel with
  | O => Fault StillLooping
  | Datatypes.S fuel' =>
      let v := pass y in
      if fabs (InFwd.y v - InFwd.c v) >? EPS
      then iterate pass fuel' (InFwd.y v)
      else Ok v
  end.

(** The loop of lines 70-80. *)
Definition loop (fuel : nat) (az21 d tu y : R) : result vars :=
  iterate (body az21 d tu) fuel y.

(** The reduced-latitude term [tu] of line 53. *)
Definition reduced (r phi1 : R) : R := r * sin phi1 / cos phi1.

(** The locals [x] (lines 63-64) and [d] (line 67). *)
Definition expansion_x (r c2a : R) : R :=
  let x := sqrt ((1.0 / r / r - 1.0) * c2a + 1.0) + 1.0 in
  (x - 2.0) / x.
Definition expansion_d (x : R) : R := (x * 0.375 * x - 1.0) * x.

(** The next iterate: the value of [y] after one pass. *)
Definition step (az21 d tu y : R) : R := InFwd.y (body az21 d tu y).

(** The contraction ratio of [step] as a function of [d], and a number
    of passes within which the loop leaves. *)
Definition ratio (d : R) : R :=
  Rabs d + Rabs d ^ 2 / 4 + Rabs d ^ 3 / 8.
Definition passes : nat := 231.

End InFwd.

(** [void proj_in_fwd(PROJ_LINE * A)] *)
Definition proj_in_fwd (fuel : nat) (A : PROJ_LINE) : result PROJ_LINE :=
  E <- deref (LINE.E A) ;;
  p1 <- deref (LINE.pt1 A) ;;
  let flat := ELLIPS.f E in
  let r := 1.0 - flat in
  let tu := InFwd.reduced r (LPH.phi p1) in
  let sf := sin (LINE.az12 A) in
  let cf := cos (LINE.az12 A) in
  let A := LINE.set_az21 0.0 A in
  let A := if neqb cf 0.0
           then LINE.set_az21 (atan2 tu cf * 2.0) A else A in
  let cu := 1.0 / sqrt (tu * tu + 1.0) in
  let su := tu * cu in
  let sa := cu * sf in
  let c2a := - sa * sa + 1.0 in
  let x := InFwd.expansion_x r c2a in
  let c := 1.0 - x in
  let c := (x * x / 4.0 + 1) / c in
  let d := InFwd.expansion_d x in
  let tu := LINE.S A / ELLIPS.a E / r / c in
  let y := tu in
  v <- InFwd.loop fuel (LINE.az21 A) d tu y ;;
  let sy := InFwd.sy v in
  let cy := InFwd.cy v in
  let cz := InFwd.cz v in
  let e := InFwd.e v in
  let y := InFwd.y v in
  let A := LINE.set_az21 (cu * cy * cf - su * sy) A in
  A <- set_pt2_phi
         (atan2 (su * cy + cu * sy * cf) (r * hypot sa (LINE.az21 A))) A ;;
  let x := atan2 (sy * sf) (cu * cy - su * sy * cf) in
  let c := ((c2a * -3.0 + 4.0) * flat + 4.0) * c2a * flat / 16.0 in
  let d := ((e * cy * c + cz) * sy * c + y) * sa in
  A <- set_pt2_lam (LPH.lam p1 + x - (1.0 - c) * d * flat) A ;;
  let A := LINE.set_az21 (atan2 sa (LINE.az21 A) + M_PI) A in
  let A := LINE.set_az12 (proj_adjlon (LINE.az12 A)) A in
  let A := LINE.set_az21 (proj_adjlon (LINE.az21 A)) A in
  Ok A.

(* ================================================================== *)
(** * [proj_gforward.c] *)
(* ================================================================== *)

(** [int proj_gforward(PROJ_LINE * A)]: the returned integer and the line
    as the call leaves it. *)
Definition proj_gforward (fuel : nat) (A : PROJ_LINE)
  : result (Z * PROJ_LINE) :=
  if is_null (LINE.pt1 A) || (LINE.S A <=? 0) || is_null (LINE.E A)
  then Ok (1%Z, A)
  else
    E <- deref (LINE.E A) ;;
    if neqb (ELLIPS.f E) 0
    then A' <- proj_in_fwd fuel A ;; Ok (0%Z, A')   (* ellipsoid earth *)
    else A' <- proj_sp_fwd A ;; Ok (0%Z, A')        (* spherical earth *).

(* ================================================================== *)
(** * [proj_pt_fwd.c] *)
(* ================================================================== *)

Module PtFwd.

(** [# define MERI_TOL 1e-9] *)
Definition MERI_TOL : R := 1e-9.

(** The reduced latitude [th1] of line 54. *)
Definition reduced (onef phi1 : R) : R := atan (onef * tan phi1).

(** The locals that lines 50-97 compute and the branch of lines 98-130
    reads. *)
Record locals : Type := mk
  { onef : R; al12 : R; signS : bool; merid : bool
  ; costh1 : R; sinth1 : R; sina12 : R; cosa12 : R
  ; M : R; N : R; c1 : R; c2 : R; s1 : R
  ; ds : R; ss : R; cosds : R; sinds : R; al21 : R }.

(** Lines 50-97.  For [|M| >= 1] line 82 divides by [sin 0]: the quotient
    is 0 in this library and an infinity or a NaN in C, so that a
    statement about what [proj_pt_fwd] computes keeps [|M|] below 1. *)
Definition prepare (E : PROJ_ELLIPS) (p1 : PROJ_PT_LPH) (Arc : PROJ_LINE)
  : locals :=
  let f := ELLIPS.f E in
  let f2 := 0.5 * f in
  let f4 := 0.5 * f2 in
  let onef := 1 - f in
  let al12 := proj_adjlon (LINE.az12 Arc) in    (* reduce to  +- 0-PI *)
  let signS := fabs al12 >? M_PI_2 in
  let th1 := reduced onef (LPH.phi p1) in
  let costh1 := cos th1 in
  let sinth1 := sin th1 in
  let sina12 := sin al12 in
  let merid := fabs sina12 <? MERI_TOL in
  let sina12 := if merid then 0 else sina12 in
  let cosa12 := if merid
                then (if fabs al12 <? M_PI_2 then 1 else -1)
                else cos al12 in
  let M := if merid then 0 else costh1 * sina12 in
  let N := costh1 * cosa12 in
  let c1 := if merid then 0 else f * M in
  let c2 := if merid then f4 else f4 * (1 - M * M) in
  let D := if merid
           then (let D := 1 - c2 in D * D)
           else (1 - c2) * (1 - c2 - c1 * M) in
  let P := if merid then c2 / D else (1 + 0.5 * c1 * M) * c2 / D in
  let s1 := if merid then M_PI_2 - th1
            else
              let s1 := if fabs M >=? 1 then 0 else acos M in
              let s1 := sinth1 / sin s1 in
              if fabs s1 >=? 1 then 0 else acos s1 in
  let d := LINE.S Arc / (D * ELLIPS.a E) in
  let d := if signS then - d else d in
  let u := 2 * (s1 - d) in
  let V := cos (u + d) in
  let sind := sin d in
  let X := c2 * c2 * sind * cos d * (2 * V * V - 1) in
  let ds := d + X - 2 * P * V * (1 - 2 * P * cos u) * sind in
  let ss := s1 + s1 - ds in
  let cosds := cos ds in
  let sinds := sin ds in
  let sinds := if signS then - sinds else sinds in
  let al21 := N * cosds - sinth1 * sinds in
  mk onef al12 signS merid costh1 sinth1 sina12 cosa12 M N c1 c2 s1
     ds ss cosds sinds al21.

(** Lines 98-115, the meridian branch: the values it leaves in the locals
    [al21], [phi2] and [de].  It assigns nothing else. *)
Definition meridian (l : locals) : R * R * R :=
  let phi2 := atan (tan (M_PI_2 + s1 l - ds l) / onef l) in
  if al21 l >? 0 then
    let al21 := M_PI in
    if signS l then (al21, phi2, M_PI)
    else (al21, - phi2, 0)
  else
    let al21 := 0 in
    if signS l then (al21, - phi2, 0)
    else (al21, phi2, M_PI).

(** Lines 116-130, the general branch: the line after the two stores, and
    the local [de]. *)
Definition general (l : locals) (Arc : PROJ_LINE) : result (PROJ_LINE * R) :=
  let al21 := atan (M l / al21 l) in
  let al21 := if al21 >? 0 then al21 + M_PI else al21 in
  let al21 := if al12 l <? 0 then al21 - M_PI else al21 in
  let Arc := LINE.set_az21 (proj_adjlon al21) Arc in
  Arc <- set_pt2_phi
           (atan (- (sinth1 l * cosds l + N l * sinds l) * sin al21 /
                  (onef l * M l))) Arc ;;
  let de := atan2 (sinds l * sina12 l)
              (costh1 l * cosds l - sinth1 l * sinds l * cosa12 l) in
  let de := if signS l
            then de + c1 l * ((1 - c2 l) * ds l + c2 l * sinds l * cos (ss l))
            else de - c1 l * ((1 - c2 l) * ds l - c2 l * sinds l * cos (ss l))
  in
  Ok (Arc, de).

End PtFwd.

(** [void proj_pt_fwd(PROJ_LINE * Arc)] *)
Definition proj_pt_fwd (Arc : PROJ_LINE) : result PROJ_LINE :=
  E <- deref (LINE.E Arc) ;;
  p1 <- deref (LINE.pt1 Arc) ;;
  let l := PtFwd.prepare E p1 Arc in
  r <- (if PtFwd.merid l
        then let '(al21, phi2, de) := PtFwd.meridian l in Ok (Arc, de)
        else PtFwd.general l Arc) ;;
  let '(Arc, de) := r in
  set_pt2_lam (proj_adjlon (LPH.lam p1 + de)) Arc.

(* ================================================================== *)
(** * [geodesic.h], [geod_for.c] *)
(* ================================================================== *)

(** Modelled from the spec: [projects.h] is not among the sources; its
    [adjlon] is the angle normaliser of section 4.1, which is the
    algorithm of [proj_adjlon], its [HALFPI], [PI] and [TWOPI] are the
    constants of those names, and its [projUV] is a pair of doubles. *)
Definition adjlon (lon : R) : R := proj_adjlon lon.
Definition HALFPI : R := PI / 2.
Definition TWOPI : R := 2 * PI.

Module UV.
Record t : Type := mk { u : R; v : R }.
End UV.
Abbreviation projUV := UV.t.

(** A C [int] used as a truth value. *)
Definition truth (i : Z) : bool := negb (i =? 0)%Z.
Definition of_bool (b : bool) : Z := if b then 1%Z else 0%Z.

(** [GEODESIC_T] *)
Module GEOD.
Record t : Type := mk
  { A : R
  ; p1 : projUV; p2 : projUV
  ; ALPHA12 : R
  ; ALPHA21 : R
  ; DIST : R
  ; ONEF : R; FLAT : R; FLAT2 : R; FLAT4 : R; FLAT64 : R
  ; ELLIPSE : Z
  ; FR_METER : R; TO_METER : R; del_alpha : R
  ; n_alpha : Z; n_S : Z
  ; th1 : R; costh1 : R; sinth1 : R; sina12 : R; cosa12 : R
  ; M : R; N : R; c1 : R; c2 : R; D : R; P : R; s1 : R
  ; merid : Z; signS : Z }.

(** The fields that [geod_pre] assigns, all at once. *)
Definition set_pre (g : t)
  (ALPHA12' th1' costh1' sinth1' sina12' cosa12' M' N' c1' c2' D' P' s1' : R)
  (merid' signS' : Z) : t :=
  mk (A g) (p1 g) (p2 g) ALPHA12' (ALPHA21 g) (DIST g)
     (ONEF g) (FLAT g) (FLAT2 g) (FLAT4 g) (FLAT64 g) (ELLIPSE g)
     (FR_METER g) (TO_METER g) (del_alpha g) (n_alpha g) (n_S g)
     th1' costh1' sinth1' sina12' cosa12' M' N' c1' c2' D' P' s1'
     merid' signS'.

(** [GEODESIC->ALPHA21 = x], [GEODESIC->p2.u = x], [GEODESIC->p2.v = x] *)
Definition set_ALPHA21 (x : R) (g : t) : t :=
  mk (A g) (p1 g) (p2 g) (ALPHA12 g) x (DIST g)
     (ONEF g) (FLAT g) (FLAT2 g) (FLAT4 g) (FLAT64 g) (ELLIPSE g)
     (FR_METER g) (TO_METER g) (del_alpha g) (n_alpha g) (n_S g)
     (th1 g) (costh1 g) (sinth1 g) (sina12 g) (cosa12 g)
     (M g) (N g) (c1 g) (c2 g) (D g) (P g) (s1 g) (merid g) (signS g).
Definition set_p2 (q : projUV) (g : t) : t :=
  mk (A g) (p1 g) q (ALPHA12 g) (ALPHA21 g) (DIST g)
     (ONEF g) (FLAT g) (FLAT2 g) (FLAT4 g) (FLAT64 g) (ELLIPSE g)
     (FR_METER g) (TO_METER g) (del_alpha g) (n_alpha g) (n_S g)
     (th1 g) (costh1 g) (sinth1 g) (sina12 g) (cosa12 g)
     (M g) (N g) (c1 g) (c2 g) (D g) (P g) (s1 g) (merid g) (signS g).
Definition set_p2_u (x : R) (g : t) : t := set_p2 (UV.mk x (UV.v (p2 g))) g.
Definition set_p2_v (x : R) (g : t) : t := set_p2 (UV.mk (UV.u (p2 g)) x) g.

(** [ALPHA12 = ALPHA21 = DIST = 0.] *)
Definition set_inverse (al12 al21 dist : R) (g : t) : t :=
  mk (A g) (p1 g) (p2 g) al12 al21 dist
     (ONEF g) (FLAT g) (FLAT2 g) (FLAT4 g) (FLAT64 g) (ELLIPSE g)
     (FR_METER g) (TO_METER g) (del_alpha g) (n_alpha g) (n_S g)
     (th1 g) (costh1 g) (sinth1 g) (sina12 g) (cosa12 g)
     (M g) (N g) (c1 g) (c2 g) (D g) (P g) (s1 g) (merid g) (signS g).

(** [GEODESIC->ALPHA12 = x], [GEODESIC->DIST = x], [GEODESIC->n_alpha = i],
    [GEODESIC->n_S = i] *)
Definition set_ALPHA12 (x : R) (g : t) : t :=
  mk (A g) (p1 g) (p2 g) x (ALPHA21 g) (DIST g)
     (ONEF g) (FLAT g) (FLAT2 g) (FLAT4 g) (FLAT64 g) (ELLIPSE g)
     (FR_METER g) (TO_METER g) (del_alpha g) (n_alpha g) (n_S g)
     (th1 g) (costh1 g) (sinth1 g) (sina12 g) (cosa12 g)
     (M g) (N g) (c1 g) (c2 g) (D g) (P g) (s1 g) (merid g) (signS g).
Definition set_DIST (x : R) (g : t) : t :=
  mk (A g) (p1 g) (p2 g) (ALPHA12 g) (ALPHA21 g) x
     (ONEF g) (FLAT g) (FLAT2 g) (FLAT4 g) (FLAT64 g) (ELLIPSE g)
     (FR_METER g) (TO_METER g) (del_alpha g) (n_alpha g) (n_S g)
     (th1 g) (costh1 g) (sinth1 g) (sina12 g) (cosa12 g)
     (M g) (N g) (c1 g) (c2 g) (D g) (P g) (s1 g) (merid g) (signS g).
Definition set_n_alpha (i : Z) (g : t) : t :=
  mk (A g) (p1 g) (p2 g) (ALPHA12 g) (ALPHA21 g) (DIST g)
     (ONEF g) (FLAT g) (FLAT2 g) (FLAT4 g) (FLAT64 g) (ELLIPSE g)
     (FR_METER g) (TO_METER g) (del_alpha g) i (n_S g)
     (th1 g) (costh1 g) (sinth1 g) (sina12 g) (cosa12 g)
     (M g) (N g) (c1 g) (c2 g) (D g) (P g) (s1 g) (merid g) (signS g).
Definition set_n_S (i : Z) (g : t) : t :=
  mk (A g) (p1 g) (p2 g) (ALPHA12 g) (ALPHA21 g) (DIST g)
     (ONEF g) (FLAT g) (FLAT2 g) (FLAT4 g) (FLAT64 g) (ELLIPSE g)
     (FR_METER g) (TO_METER g) (del_alpha g) (n_alpha g) i
     (th1 g) (costh1 g) (sinth1 g) (sina12 g) (cosa12 g)
     (M g) (N g) (c1 g) (c2 g) (D g) (P g) (s1 g) (merid g) (signS g).
End GEOD.
Abbreviation GEODESIC_T := GEOD.t.

(** [# define MERI_TOL 1e-9] of [geod_for.c] *)
Definition MERI_TOL : R := 1e-9.

(** [void geod_pre(GEODESIC_T *GEODESIC)] *)
Definition geod_pre (G : GEODESIC_T) : GEODESIC_T :=
  let ALPHA12 := adjlon (GEOD.ALPHA12 G) in      (* reduce to  +- 0-PI *)
  let signS := of_bool (fabs ALPHA12 >? HALFPI) in
  let th1 := if truth (GEOD.ELLIPSE G)
             then atan (GEOD.ONEF G * tan (UV.u (GEOD.p1 G)))
             else UV.u (GEOD.p1 G) in
  let costh1 := cos th1 in
  let sinth1 := sin th1 in
  let sina12 := sin ALPHA12 in
  let merid := of_bool (fabs sina12 <? MERI_TOL) in
  let sina12 := if truth merid then 0 else sina12 in
  let cosa12 := if truth merid
                then (if fabs ALPHA12 <? HALFPI then 1 else -1)
                else cos ALPHA12 in
  let M := if truth merid then 0 else costh1 * sina12 in
  let N := costh1 * cosa12 in
  let c1 := if truth (GEOD.ELLIPSE G)
            then (if truth merid then 0 else GEOD.FLAT G * M)
            else GEOD.c1 G in
  let c2 := if truth (GEOD.ELLIPSE G)
            then (if truth merid then GEOD.FLAT4 G
                  else GEOD.FLAT4 G * (1 - M * M))
            else GEOD.c2 G in
  let D := if truth (GEOD.ELLIPSE G)
           then (if truth merid then (let D := 1 - c2 in D * D)
                 else (1 - c2) * (1 - c2 - c1 * M))
           else GEOD.D G in
  let P := if truth (GEOD.ELLIPSE G)
           then (if truth merid then c2 / D
                 else (1 + 0.5 * c1 * M) * c2 / D)
           else GEOD.P G in
  let s1 := if truth merid then HALFPI - th1
            else
              let s1 := if fabs M >=? 1 then 0 else acos M in
              let s1 := sinth1 / sin s1 in
              if fabs s1 >=? 1 then 0 else acos s1 in
  GEOD.set_pre G ALPHA12 th1 costh1 sinth1 sina12 cosa12 M N c1 c2 D P s1
    merid signS.

Module GeodFor.

(** Lines 70-87, the meridian branch: the structure after its stores, and
    the local [de]. *)
Definition meridian (ds : R) (G : GEODESIC_T) : GEODESIC_T * R :=
  let G := GEOD.set_p2_u
             (atan (tan (HALFPI + GEOD.s1 G - ds) / GEOD.ONEF G)) G in
  if GEOD.ALPHA21 G >? 0 then
    let G := GEOD.set_ALPHA21 PI G in
    if truth (GEOD.signS G) then (G, PI)
    else (GEOD.set_p2_u (- UV.u (GEOD.p2 G)) G, 0)
  else
    let G := GEOD.set_ALPHA21 0 G in
    if truth (GEOD.signS G)
    then (GEOD.set_p2_u (- UV.u (GEOD.p2 G)) G, 0)
    else (G, PI).

(** Lines 88-108, the general branch. *)
Definition general (ds ss cosds sinds : R) (G : GEODESIC_T)
  : GEODESIC_T * R :=
  let G := GEOD.set_ALPHA21 (atan (GEOD.M G / GEOD.ALPHA21 G)) G in
  let G := if GEOD.ALPHA21 G >? 0
           then GEOD.set_ALPHA21 (GEOD.ALPHA21 G + PI) G else G in
  let G := if GEOD.ALPHA12 G <? 0
           then GEOD.set_ALPHA21 (GEOD.ALPHA21 G - PI) G else G in
  let G := GEOD.set_ALPHA21 (adjlon (GEOD.ALPHA21 G)) G in
  let G := GEOD.set_p2_u
             (atan (- (GEOD.sinth1 G * cosds + GEOD.N G * sinds) *
                    sin (GEOD.ALPHA21 G) /
                    (if truth (GEOD.ELLIPSE G)
                     then GEOD.ONEF G * GEOD.M G else GEOD.M G))) G in
  let de := atan2 (sinds * GEOD.sina12 G)
              (GEOD.costh1 G * cosds -
               GEOD.sinth1 G * sinds * GEOD.cosa12 G) in
  let de :=
    if truth (GEOD.ELLIPSE G) then
      if truth (GEOD.signS G)
      then de + GEOD.c1 G * ((1 - GEOD.c2 G) * ds +
                             GEOD.c2 G * sinds * cos ss)
      else de - GEOD.c1 G * ((1 - GEOD.c2 G) * ds -
                             GEOD.c2 G * sinds * cos ss)
    else de in
  (G, de).

End GeodFor.

(** [void geod_for(GEODESIC_T *GEODESIC)] *)
Definition geod_for (G : GEODESIC_T) : GEODESIC_T :=
  let ss := 0 in
  let '(ds, ss) :=
    if truth (GEOD.ELLIPSE G) then
      let d := GEOD.DIST G / (GEOD.D G * GEOD.A G) in
      let d := if truth (GEOD.signS G) then - d else d in
      let u := 2 * (GEOD.s1 G - d) in
      let V := cos (u + d) in
      let sind := sin d in
      let X := GEOD.c2 G * GEOD.c2 G * sind * cos d * (2 * V * V - 1) in
      let ds := d + X - 2 * GEOD.P G * V * (1 - 2 * GEOD.P G * cos u) * sind in
      (ds, GEOD.s1 G + GEOD.s1 G - ds)
    else
      let ds := GEOD.DIST G / GEOD.A G in
      ((if truth (GEOD.signS G) then - ds else ds), ss) in
  let cosds := cos ds in
  let sinds := sin ds in
  let sinds := if truth (GEOD.signS G) then - sinds else sinds in
  let G := GEOD.set_ALPHA21 (GEOD.N G * cosds - GEOD.sinth1 G * sinds) G in
  let '(G, de) :=
    if truth (GEOD.merid G)
    then GeodFor.meridian ds G
    else GeodFor.general ds ss cosds sinds G in
  GEOD.set_p2_v (adjlon (UV.v (GEOD.p1 G) + de)) G.

(* ================================================================== *)
(** * [geod_inv.c] *)
(* ================================================================== *)

(** [# define DTOL 1e-12] *)
Definition DTOL : R := 1e-12.

(** [int geod_inv(GEODESIC_T *GEODESIC)]: the returned integer and the
    structure as the call leaves it. *)
Definition geod_inv (G : GEODESIC_T) : Z * GEODESIC_T :=
  let th1 := if truth (GEOD.ELLIPSE G)
             then atan (GEOD.ONEF G * tan (UV.u (GEOD.p1 G)))
             else UV.u (GEOD.p1 G) in
  let th2 := if truth (GEOD.ELLIPSE G)
             then atan (GEOD.ONEF G * tan (UV.u (GEOD.p2 G)))
             else UV.u (GEOD.p2 G) in
  let thm := 0.5 * (th1 + th2) in
  let dthm := 0.5 * (th2 - th1) in
  let dlam := adjlon (UV.v (GEOD.p2 G) - UV.v (GEOD.p1 G)) in
  let dlamm := 0.5 * dlam in
  if (fabs dlam <? DTOL) && (fabs dthm <? DTOL)
  then ((-1)%Z, GEOD.set_inverse 0 0 0 G)
  else
    let sindlamm := sin dlamm in
    let costhm := cos thm in
    let sinthm := sin thm in
    let cosdthm := cos dthm in
    let sindthm := sin dthm in
    let L := sindthm * sindthm +
             (cosdthm * cosdthm - sinthm * sinthm) * sindlamm * sindlamm in
    let cosd := 1 - L - L in
    let d := acos cosd in
    let '(DIST, tandlammp) :=
      if truth (GEOD.ELLIPSE G) then
        let E := cosd + cosd in
        let sind := sin d in
        let Y := sinthm * cosdthm in
        let Y := Y * ((Y + Y) / (1 - L)) in
        let T := sindthm * costhm in
        let T := T * ((T + T) / L) in
        let X := Y + T in
        let Y := Y - T in
        let T := d / sind in
        let D := 4 * T * T in
        let A := D * E in
        let B := D + D in
        (GEOD.A G * sind *
           (T - GEOD.FLAT4 G * (T * X - Y) +
            GEOD.FLAT64 G * (X * (A + (T - 0.5 * (A - E)) * X) -
                             Y * (B + E * Y) + D * X * Y)),
         tan (0.5 * (dlam - 0.25 * (Y + Y - E * (4 - X)) *
                     (GEOD.FLAT2 G * T +
                      GEOD.FLAT64 G * (32 * T - (20 * T - A) * X -
                                       (B + 4) * Y)) * tan dlam)))
      else (GEOD.A G * d, tan dlamm) in
    let u := atan2 sindthm (tandlammp * costhm) in
    let v := atan2 cosdthm (tandlammp * sinthm) in
    (0%Z, GEOD.set_inverse (adjlon (TWOPI + v - u)) (adjlon (TWOPI - v - u))
            DIST G).

(* ================================================================== *)
(** * [proj_pt_inv.c] *)
(* ================================================================== *)

Module PtInv.
(** [# define DTOL 1e-12] *)
Definition DTOL : R := 1e-12.
(** The reduced latitudes [th1], [th2] of lines 53-54. *)
Definition reduced (onef phi : R) : R := atan (onef * tan phi).
End PtInv.

(** [void proj_pt_inv(PROJ_LINE * Arc)] *)
Definition proj_pt_inv (Arc : PROJ_LINE) : result PROJ_LINE :=
  E <- deref (LINE.E Arc) ;;
  let onef := ELLIPS.f E in
  let f2 := 0.5 * onef in
  let f4 := 0.5 * f2 in
  let f64 := 0.25 * f4 * f4 in
  let onef := 1 - onef in
  p1 <- deref (LINE.pt1 Arc) ;;
  let th1 := PtInv.reduced onef (LPH.phi p1) in
  p2 <- deref (LINE.pt2 Arc) ;;
  let th2 := PtInv.reduced onef (LPH.phi p2) in
  let thm := 0.5 * (th1 + th2) in
  let dthm := 0.5 * (th2 - th1) in
  let dlam := proj_adjlon (LPH.lam p2 - LPH.lam p1) in
  let dlamm := 0.5 * dlam in
  if (fabs dlam <? PtInv.DTOL) && (fabs dthm <? PtInv.DTOL)
  then (* pt1 == pt2 *)
    Ok (LINE.set_az12 0 (LINE.set_az21 0 (LINE.set_S 0 Arc)))
  else
    let sindlamm := sin dlamm in
    let costhm := cos thm in
    let sinthm := sin thm in
    let cosdthm := cos dthm in
    let sindthm := sin dthm in
    let L := sindthm * sindthm +
             (cosdthm * cosdthm - sinthm * sinthm) * sindlamm * sindlamm in
    let cosd := 1 - L - L in
    let d := acos cosd in
    let E := cosd + cosd in
    let sind := sin d in
    let Y := sinthm * cosdthm in
    let Y := Y * ((Y + Y) / (1 - L)) in
    let T := sindthm * costhm in
    let T := T * ((T + T) / L) in
    let X := Y + T in
    let Y := Y - T in
    let T := d / sind in
    let D := 4 * T * T in
    let A := D * E in
    let B := D + D in
    let Arc := LINE.set_S
                 (sind * (T - f4 * (T * X - Y) +
                          f64 * (X * (A + (T - 0.5 * (A - E)) * X) -
                                 Y * (B + E * Y) + D * X * Y))) Arc in
    let tandlammp :=
      tan (0.5 * (dlam - 0.25 * (Y + Y - E * (4 - X)) *
                  (f2 * T + f64 * (32 * T - (20 * T - A) * X - (B + 4) * Y)) *
                  tan dlam)) in
    let u := atan2 sindthm (tandlammp * costhm) in
    let v := atan2 cosdthm (tandlammp * sinthm) in
    let Arc := LINE.set_az12 (proj_adjlon (2 * M_PI + v - u)) Arc in
    let Arc := LINE.set_az21 (proj_adjlon (2 * M_PI - v - u)) Arc in
    Ok Arc.

(* ================================================================== *)
(** * [proj_sp_inv.c] *)
(* ================================================================== *)

(** [void proj_sp_inv(PROJ_LINE * A)] *)
Definition proj_sp_inv (A : PROJ_LINE) : result PROJ_LINE :=
  p2 <- deref (LINE.pt2 A) ;;
  p1 <- deref (LINE.pt1 A) ;;
  let dlam := LPH.lam p2 - LPH.lam p1 in
  let dphi := LPH.phi p2 - LPH.phi p1 in
  let c1 := cos (LPH.phi p2) in
  let c0 := cos (LPH.phi p1) in
  let s1 := sin (LPH.phi p2) in
  let s0 := sin (LPH.phi p1) in
  let shp := sin (0.5 * dphi) in
  let shl := sin (0.5 * dlam) in
  E <- deref (LINE.E A) ;;
  let A := LINE.set_S
             (2 * ELLIPS.a E * asin (sqrt (shp * shp + c0 * c1 * shl * shl)))
             A in
  let shp := sin dlam in
  let shl := cos dlam in
  let A := LINE.set_az12 (atan2 (c1 * shp) (c0 * s1 - s0 * c1 * shl)) A in
  let A := if LINE.az12 A <? 0
           then LINE.set_az12 (LINE.az12 A + 2 * M_PI) A else A in
  let A := LINE.set_az21 (- atan2 (c0 * shp) (c1 * s0 - s1 * c0 * shl)) A in
  let A := if LINE.az21 A <? 0
           then LINE.set_az21 (LINE.az21 A + 2 * M_PI) A else A in
  let A := LINE.set_az12 (proj_adjlon (LINE.az12 A)) A in
  let A := LINE.set_az21 (proj_adjlon (LINE.az21 A)) A in
  Ok A.

(* ================================================================== *)
(** * [proj_in_inv.c] *)
(* ================================================================== *)

Module InInv.

Definition TOL0 : R := 5e-15.
Definition TOL1 : R := 5e-14.
Definition TOL2 : R := 0.007.
Definition TT : R := 5e-13.
Definition TTA : R := 5e-15.

(** [static double merid_arc(double esq, double phi1, double phi2)] *)
Definition merid_arc (esq phi1 phi2 : R) : R :=
  (* CHECK FOR A 90 DEGREE LOOKUP *)
  let s1 := fabs phi1 in
  let s2 := fabs phi2 in
  let flag := (s1 <=? TTA) && (fabs (s2 - M_PI_2) <? TTA) in
  let da := phi2 - phi1 in
  let s1 := 0 in
  let s2 := 0 in
  (* COMPUTE THE LENGTH OF A MERIDIONAL ARC BETWEEN TWO LATITUDES *)
  let e2 := esq in
  let e4 := e2 * e2 in
  let e6 := e4 * e2 in
  let e8 := e6 * e2 in
  let ex := e8 * e2 in
  let t1 := e2 * 0.75 in
  let t2 := e4 * 0.234375 in
  let t3 := e6 * 0.068359375 in
  let t4 := e8 * 0.01922607421875 in
  let t5 := ex * 0.00528717041015625 in
  let a := t1 + 1 + t2 * 3 + t3 * 10 + t4 * 35 + t5 * 126 in
  let s2 :=
    if negb flag then
      let b := t1 + t2 * 4 + t3 * 15 + t4 * 56 + t5 * 210 in
      let c := t2 + t3 * 6 + t4 * 28 + t5 * 120 in
      let d := t3 + t4 * 8 + t5 * 45 in
      let e := t4 + t5 * 10 in
      let f := t5 in
      let db := sin (phi2 * 2) - sin (phi1 * 2) in
      let dc := sin (phi2 * 4) - sin (phi1 * 4) in
      let dd := sin (phi2 * 6) - sin (phi1 * 6) in
      let de := sin (phi2 * 8) - sin (phi1 * 8) in
      let df := sin (phi2 * 10) - sin (phi1 * 10) in
      (* COMPUTE THE S2 PART OF THE SERIES EXPANSION *)
      - db * b / 2 + dc * c / 4 - dd * d / 6 + de * e / 8 - df * f / 10
    else s2 in
  (* COMPUTE THE S1 PART OF THE SERIES EXPANSION *)
  let s1 := da * a in
  (* COMPUTE THE ARC LENGTH *)
  (1 - esq) * (s1 + s2).

(** The [do ... while (++iter <= 6)] of [func_loa]: [n] is the number of
    times the test [++iter <= 6] can still succeed (6 at entry); the
    result is the pair of [s] and [*ao] at exit. *)
Fixpoint loa_loop (n : nat) (cons t1 t2 t4 t6 az : R) : R * R :=
  let s := cos az in
  let c2 := s * s in
  (* COMPUTE NEW AO *)
  let ao := t1 + c2 * (t2 + c2 * (t4 + c2 * t6)) in
  let cs := cons / ao in
  let s := asin cs in
  if fabs (s - az) <? TT then (s, ao)
  else
    match n with
    | O => (s, ao)
    | Datatypes.S n' => loa_loop n' cons t1 t2 t4 t6 s
    end.

(** [static void func_loa(flat, esq, dlam, az12, *az21, *ao, *bo, *sms)]:
    the four outputs. *)
Definition func_loa (flat esq dlam az12 : R) : R * R * R * R :=
  let dlon := fabs dlam in
  let cons := (M_PI - dlon) / (M_PI * flat) in
  (* COMPUTE AN APPROXIMATE AZ *)
  let az := asin cons in
  let t1 := 1 in
  let t2 := flat * -0.25 * (flat + 1 + flat * flat) in
  let t4 := flat * 0.1875 * flat * (flat * 2.25 + 1) in
  let t6 := flat * -0.1953125 * flat * flat in
  let '(s, ao) := loa_loop 6 cons t1 t2 t4 t6 az in
  let az12 := s in
  let az12 := if dlam <? 0 then M_PI * 2 - az12 else az12 in
  let az21 := M_PI * 2 - az12 in
  (* EQUATORIAL - GEODESIC  (S - s)   "SMS" *)
  let esqp := esq / (1 - esq) in
  let s := cos az12 in
  let u2 := esqp * s * s in
  let u4 := u2 * u2 in
  let u6 := u4 * u2 in
  let u8 := u6 * u2 in
  let t1 := 1 in
  let t2 := u2 * 0.25 in
  let t4 := u4 * -0.046875 in
  let t6 := u6 * 0.01953125 in
  let t8 := u8 * -0.01068115234375 in
  let bo := t1 + t2 + t4 + t6 + t8 in
  let s := sin az12 in
  let sms := M_PI * (1 - flat * fabs s * ao - bo * (1 - flat)) in
  (az21, ao, bo, sms).

(** The reduced latitudes [u1], [u2] of lines 304-307. *)
Definition reduced (f0 phi : R) : R := atan (f0 * sin phi / cos phi).

(** The variables of the main iteration that are read after it. *)
Record vars : Type := mk
  { clon : R; slon : R; csig : R; ssig : R; sig : R; sinalf : R; w : R
  ; q2 : R; q4 : R; q6 : R; r2 : R; r3 : R; S : R; xy : R; ab : R }.

(** One pass through the body of lines 315-345. *)
Definition body (f su1 cu1 su2 cu2 dlon ab : R) : vars :=
  let f2 := f * f in
  let f3 := f * f2 in
  let f4 := f * f3 in
  let clon := cos ab in
  let slon := sin ab in
  let csig := su1 * su2 + cu1 * cu2 * clon in
  let ssig := hypot (slon * cu2) (su2 * cu1 - su1 * cu2 * clon) in
  let sig := atan2 ssig csig in
  let sinalf := cu1 * cu2 * slon / ssig in
  let w := 1 - sinalf * sinalf in
  let t4 := w * w in
  let t6 := w * t4 in
  (* the coefficients of type a *)
  let ao := f - f2 * (f + 1 + f2) * w / 4 +
            f3 * 3 * (f * 9 / 4 + 1) * t4 / 16 - f4 * 25 * t6 / 128 in
  let a2 := f2 * (f + 1 + f2) * w / 4 - f3 * (f * 9 / 4 + 1) * t4 / 4 +
            f4 * 75 * t6 / 256 in
  let a4 := f3 * (f * 9 / 4 + 1) * t4 / 32 - f4 * 15 * t6 / 256 in
  let a6 := f4 * 5 * t6 / 768 in
  (* the multiple angle functions *)
  let qo := 0 in
  let qo := if w >? TOL0 then su1 * -2 * su2 / w else qo in
  let q2 := csig + qo in
  let q4 := q2 * 2 * q2 - 1 in
  let q6 := q2 * (q2 * 4 * q2 - 3) in
  let r2 := ssig * 2 * csig in
  let r3 := ssig * (3 - ssig * 4 * ssig) in
  (* the longitude difference *)
  let S := sinalf * (ao * sig + a2 * ssig * q2 + a4 * r2 * q4 + a6 * r3 * q6)
  in
  let xz := dlon + S in
  let xy := fabs (xz - ab) in
  let ab := dlon + S in
  mk clon slon csig ssig sig sinalf w q2 q4 q6 r2 r3 S xy ab.

(** [do { body } while (xy >= 5e-14 && ++kount <= 7);]  [n] is the number
    of times the test [++kount <= 7] can still succeed (7 at entry). *)
Fixpoint loop (n : nat) (f su1 cu1 su2 cu2 dlon ab : R) : vars :=
  let v := body f su1 cu1 su2 cu2 dlon ab in
  if xy v >=? 5e-14 then
    match n with
    | O => v
    | Datatypes.S n' => loop n' f su1 cu1 su2 cu2 dlon (InInv.ab v)
    end
  else v.

(** Lines 253-265: the longitude difference brought back by one turn, and
    its magnitude [ss] folded into [0, PI]. *)
Definition wrap_dlon (dlon : R) : R :=
  if dlon >=? 0 then
    if (M_PI <=? dlon) && (dlon <? 2 * M_PI) then dlon - 2 * M_PI else dlon
  else
    let ss := fabs dlon in
    if (M_PI <=? ss) && (ss <? 2 * M_PI) then dlon + 2 * M_PI else dlon.
Definition separation (dlon : R) : R :=
  let ss := fabs dlon in
  if ss >? M_PI then 2 * M_PI - ss else ss.

(** The test of lines 275-278 on the magnitudes of the two latitudes. *)
Definition near_equator (r1 r2 : R) : bool :=
  negb ((r1 >? TOL2) && (r2 >? TOL2)) &&
  (* longitude difference is greater than lift-off point *)
  (* now check to see if  "both"  r1 & r2 are on equator *)
  negb ((r1 <? TOL1) && (r2 >? TOL2)) && negb ((r2 <? TOL1) && (r1 >? TOL2)).

(** Lines 356-380: the two azimuths of the general case, from the
    variables the iteration leaves. *)
Definition azimuths (v : vars) (su1 cu1 su2 cu2 dlon : R) (A : PROJ_LINE)
  : PROJ_LINE :=
  let clon := InInv.clon v in
  let slon := InInv.slon v in
  let sinalf := InInv.sinalf v in
  (* first compute the az12 & az21 for along the equator *)
  let dlon := if dlon >? M_PI then dlon - M_PI * 2 else dlon in
  let dlon := if fabs dlon >? M_PI then dlon + M_PI * 2 else dlon in
  let A := LINE.set_az12 (M_PI / 2) A in
  let A := if dlon <? 0 then LINE.set_az12 (LINE.az12 A * 3) A else A in
  let A := LINE.set_az21 (LINE.az12 A + M_PI) A in
  let A := if LINE.az21 A >? M_PI * 2
           then LINE.set_az21 (LINE.az21 A - M_PI * 2) A else A in
  (* now compute the az1 & az2 for latitudes not on the equator *)
  let A :=
    if negb ((fabs su1 <? TOL0) && (fabs su2 <? TOL0)) then
      let tana1 := slon * cu2 / (su2 * cu1 - clon * su1 * cu2) in
      let tana2 := slon * cu1 / (su1 * cu2 - clon * su2 * cu1) in
      let sina1 := sinalf / cu1 in
      let sina2 := - sinalf / cu2 in
      (* azimuths from north,longitudes positive east *)
      let A := LINE.set_az12 (atan2 sina1 (sina1 / tana1)) A in
      LINE.set_az21 (M_PI - atan2 sina2 (sina2 / tana2)) A
    else A in
  let A := if LINE.az12 A <? 0
           then LINE.set_az12 (LINE.az12 A + 2 * M_PI) A else A in
  let A := if LINE.az21 A <? 0
           then LINE.set_az21 (LINE.az21 A + 2 * M_PI) A else A in
  A.

(** Lines 294-381: the general case. *)
Definition general (E : PROJ_ELLIPS) (p1 p2 : PROJ_PT_LPH) (A : PROJ_LINE)
  : PROJ_LINE :=
  let f := ELLIPS.f E in
  let esq := ELLIPS.es E in
  let f0 := 1 - f in
  let b := f0 in
  let epsq := esq / (1 - esq) in
  (* the longitude difference *)
  let dlon := LPH.lam p2 - LPH.lam p1 in
  let ab := dlon in
  (* the reduced latitudes *)
  let u1 := reduced f0 (LPH.phi p1) in
  let u2 := reduced f0 (LPH.phi p2) in
  let su1 := sin u1 in
  let cu1 := cos u1 in
  let su2 := sin u2 in
  let cu2 := cos u2 in
  let v := loop 7 f su1 cu1 su2 cu2 dlon ab in
  let w := InInv.w v in
  let sig := InInv.sig v in
  let ssig := InInv.ssig v in
  let q2 := InInv.q2 v in
  let q4 := InInv.q4 v in
  let q6 := InInv.q6 v in
  let r2 := InInv.r2 v in
  let r3 := InInv.r3 v in
  (* the coefficients of type b *)
  let z := epsq * w in
  let bo := z * (z * (z * (0.01953125 - z * 175 / 16384) - 0.046875) + 0.25)
            + 1 in
  let b2 := z * (z * (z * (z * 35 / 2048 - 0.029296875) + 0.0625) - 0.25) in
  let b4 := z * z * (z * (0.005859375 - z * 35 / 8192) - 0.0078125) in
  let b6 := z * z * z * (z * 5 / 6144 - 6.5104166666666663e-4) in
  (* distance *)
  let A := LINE.set_S
             (ELLIPS.a E * b *
              (bo * sig + b2 * ssig * q2 + b4 * r2 * q4 + b6 * r3 * q6)) A in
  azimuths v su1 cu1 su2 cu2 dlon A.

End InInv.

(** [void proj_in_inv(PROJ_LINE * A)] *)
Definition proj_in_inv (A : PROJ_LINE) : result PROJ_LINE :=
  E <- deref (LINE.E A) ;;
  let f := ELLIPS.f E in
  let esq := ELLIPS.es E in
  p2 <- deref (LINE.pt2 A) ;;
  p1 <- deref (LINE.pt1 A) ;;
  (* test the longitude difference with TOL1 *)
  let ss := LPH.lam p2 - LPH.lam p1 in
  if fabs ss <? InInv.TOL1 then
    let r2 := LPH.phi p2 in
    let r1 := LPH.phi p1 in
    let arc := InInv.merid_arc esq r1 r2 in
    let A := LINE.set_S (ELLIPS.a E * fabs arc) A in
    if LPH.phi p2 >? LPH.phi p1
    then Ok (LINE.set_az21 M_PI (LINE.set_az12 0 A))
    else Ok (LINE.set_az21 0 (LINE.set_az12 M_PI A))
  else
  (* test for longitude over 180 degrees *)
  let dlon := InInv.wrap_dlon (LPH.lam p2 - LPH.lam p1) in
  let ss := InInv.separation dlon in
  (* the limit in longitude *)
  let alimit := M_PI * (1 - f) in
  let r1 := fabs (LPH.phi p1) in
  let r2 := fabs (LPH.phi p2) in
  (* test for anti-nodal difference *)
  if (ss >=? alimit) && InInv.near_equator r1 r2
  then
    (* check for either r1 or r2 just off the equator but < TOL2 *)
    if (r1 >? InInv.TOL1) || (r2 >? InInv.TOL1)
    then Ok (LINE.set_S 0 (LINE.set_az21 0 (LINE.set_az12 0 A)))
    else
      (* compute the azimuth to anti-nodal point *)
      let '(az21, aa, bb, sms) := InInv.func_loa f esq dlon (LINE.az12 A) in
      let A := LINE.set_az21 az21 A in
      (* compute the equatorial distance & geodetic *)
      let equ := fabs dlon in
      Ok (LINE.set_S (equ - sms) A)
  else Ok (InInv.general E p1 p2 A).

(* ================================================================== *)
(** * [geod.c]: the arc mode and the geodesic mode of the filter *)
(* ================================================================== *)

(** [do_arc] and [do_geod] work on the file's static structure
    [GEODESIC], which is passed and returned here.  Each
    [printLL (p, l); putchar ('\n');] writes one line with a latitude and
    a longitude; the line is recorded as the pair of radians that
    [printLL] is given (the formatting by [rtodms] and [printf] is not
    modelled), and the output of a call is the list of its lines.  An
    [int] is an integer of [Z]; its wrap-around is outside the model.
    Neither loop has a bound of its own: [fuel] bounds the unfolding as
    in [InFwd.iterate]. *)
Module Geod.
Import ListNotations.

Definition printLL (p l : R) (out : list projUV) : list projUV :=
  out ++ [UV.mk p l].

(** [for (az = GEODESIC->ALPHA12; GEODESIC->n_alpha--; ) { ... }] *)
Fixpoint arc_loop (fuel : nat) (az : R) (G : GEODESIC_T) (out : list projUV)
  : result (GEODESIC_T * list projUV) :=
  match fuel with
  | O => Fault StillLooping
  | Datatypes.S fuel' =>
      let test := truth (GEOD.n_alpha G) in
      let G := GEOD.set_n_alpha (GEOD.n_alpha G - 1)%Z G in
      if test then
        let az := adjlon (az + GEOD.del_alpha G) in
        let G := GEOD.set_ALPHA12 az G in
        let G := geod_pre G in
        let G := geod_for G in
        let out := printLL (UV.u (GEOD.p2 G)) (UV.v (GEOD.p2 G)) out in
        arc_loop fuel' az G out
      else Ok (G, out)
  end.

(** [for (...; --(GEODESIC->n_S); GEODESIC->DIST += del_S) { ... }] *)
Fixpoint geod_loop (fuel : nat) (del_S : R) (G : GEODESIC_T)
  (out : list projUV) : result (GEODESIC_T * list projUV) :=
  match fuel with
  | O => Fault StillLooping
  | Datatypes.S fuel' =>
      let G := GEOD.set_n_S (GEOD.n_S G - 1)%Z G in
      if truth (GEOD.n_S G) then
        let G := geod_for G in
        let out := printLL (UV.u (GEOD.p2 G)) (UV.v (GEOD.p2 G)) out in
        let G := GEOD.set_DIST (GEOD.DIST G + del_S) G in
        geod_loop fuel' del_S G out
      else Ok (G, out)
  end.

End Geod.

(** [static void do_arc(void)] *)
Definition do_arc (fuel : nat) (G : GEODESIC_T)
  : result (GEODESIC_T * list projUV) :=
  let out := Geod.printLL (UV.u (GEOD.p2 G)) (UV.v (GEOD.p2 G)) nil in
  let az := GEOD.ALPHA12 G in
  Geod.arc_loop fuel az G out.

(** [static void do_geod(void)]: generate intermediate geodesic
    coordinates *)
Definition do_geod (fuel : nat) (G : GEODESIC_T)
  : result (GEODESIC_T * list projUV) :=
  let phil := UV.u (GEOD.p2 G) in
  let laml := UV.v (GEOD.p2 G) in
  let out := Geod.printLL (UV.u (GEOD.p1 G)) (UV.v (GEOD.p1 G)) nil in
  let del_S := GEOD.DIST G / IZR (GEOD.n_S G) in
  let G := GEOD.set_DIST del_S G in
  r <- Geod.geod_loop fuel del_S G out ;;
  let '(G, out) := r in
  Ok (G, Geod.printLL phil laml out).

(* ================================================================== *)
(** * [geod_set.c]: [GEOD_init_plus] *)
(* ================================================================== *)

(** A C string is the list of its characters; in a buffer it ends before
    the first NUL, and at the end of the list. *)
Module InitPlus.
Import ListNotations.

(** [#define MAX_ARG 200] *)
Definition MAX_ARG : nat := 200.

Definition NUL : ascii := Ascii.zero.

(** The string that starts at the head of a buffer. *)
Fixpoint cstr (s : list ascii) : list ascii :=
  match s with
  | [] => []
  | c :: s' => if Ascii.eqb c NUL then [] else c :: cstr s'
  end.

(** The case labels [' '], ['\t'] and ['\n'] of the switch. *)
Definition blank (c : ascii) : bool :=
  Ascii.eqb c " " || Ascii.eqb c "009" || Ascii.eqb c "010".

(** [for (i = 0; defn_copy[i] != '\0'; i++) switch (defn_copy[i]) ...]:
    [todo] is [defn_copy[i ..]] up to its terminator, [done] is
    [defn_copy[0 .. i)] as the loop has left it, last character first, so
    that [i] is its length and [defn_copy[i-1]] its head; [argv] holds the
    pointers stored so far, each [defn_copy + o] as the offset [o].  The
    result is the buffer and [argv] at the exit of the loop, or [None]
    for the [return NULL] inside it. *)
Fixpoint split (todo done : list ascii) (argv : list nat)
  : option (list ascii * list nat) :=
  match todo with
  | [] => Some (rev done, argv)
  | c :: todo' =>
      let i := length done in
      if Ascii.eqb c "+" then
        if (i =? 0)%nat || Ascii.eqb (hd NUL done) NUL then
          if (length argv + 1 =? MAX_ARG)%nat then None
          else split todo' (c :: done) (argv ++ [i + 1]%nat)
        else split todo' (c :: done) argv
      else if blank c then split todo' (NUL :: done) argv
      else split todo' (c :: done) argv
  end.

(** The string that the pointer [defn_copy + o] points to. *)
Definition arg (buf : list ascii) (o : nat) : list ascii :=
  cstr (skipn o buf).

End InitPlus.

(** [GEODESIC_T *GEOD_init_plus(const char *definition, GEODESIC_T *geod)]:
    [GEOD_init] stands for the function of that name, which is given the
    argument vector ([argc] is its length) and [geod]; [None] is the
    [NULL] that [GEOD_init_plus] returns itself. *)
Definition GEOD_init_plus {T : Type}
  (GEOD_init : list (list ascii) -> option GEODESIC_T -> T)
  (definition : list ascii) (geod : option GEODESIC_T) : option T :=
  (* make a copy that we can manipulate *)
  let defn_copy := InitPlus.cstr definition in
  (* split into arguments based on '+' and trim white space *)
  match InitPlus.split defn_copy nil nil with
  | None => None
  | Some (defn_copy, argv) =>
      (* perform actual initialization *)
      Some (GEOD_init (map (InitPlus.arg defn_copy) argv) geod)
  end.

(* ================================================================== *)
(** * [proj_inv.c] *)
(* ================================================================== *)

(** [PROJ_XY], [PROJ_LP] *)
Module XY.
Record t : Type := mk { x : R; y : R }.
End XY.
Abbreviation PROJ_XY := XY.t.

Module LP.
Record t : Type := mk { lam : R; phi : R }.
End LP.
Abbreviation PROJ_LP := LP.t.

(** The two error numbers that [proj_inv] reads and writes: [errno] and
    [proj_errno]. *)
Module Errs.
Record t : Type := mk { errno : Z; proj_errno : Z }.
End Errs.

(** [PROJ]: the members that [proj_inv] reads.  [inv] is the call
    through [P->inv], with [P] as its second argument: it returns a
    coordinate and may set the error numbers. *)
Module PROJ.
Record t : Type := mk
  { inv : PROJ_XY -> Errs.t -> PROJ_LP * Errs.t
  ; over : Z        (* over-range flag *)
  ; ra : R          (* 1/a *)
  ; netlam0 : R     (* net adjustment to I/O longitude value *)
  ; x0 : R; y0 : R  (* false easting and northing *)
  ; to_meter : R    (* Cartesian scaling *) }.
End PROJ.
Abbreviation PROJ := PROJ.t.

(** [PROJ_LP proj_inv(PROJ_XY xy, PROJ *P)]: the returned coordinate and
    the error numbers as the call leaves them.  [HUGE_VAL] is the value
    of that macro.  The local [lp] is assigned by the call of [P->inv]
    before it is read, so that the store into it at line 47 is not
    kept. *)
Definition proj_inv (HUGE_VAL : R) (xy : PROJ_XY) (P : PROJ) (e : Errs.t)
  : PROJ_LP * Errs.t :=
  (* can't do as much preliminary checking as with forward *)
  let e := if negb (neqb (XY.x xy) HUGE_VAL) || negb (neqb (XY.y xy) HUGE_VAL)
           then Errs.mk (Errs.errno e) (-15) else e in
  let e := Errs.mk 0 0 in
  (* descale and de-offset *)
  let xy := XY.mk ((XY.x xy * PROJ.to_meter P - PROJ.x0 P) * PROJ.ra P)
                  (XY.y xy) in
  let xy := XY.mk (XY.x xy)
                  ((XY.y xy * PROJ.to_meter P - PROJ.y0 P) * PROJ.ra P) in
  (* inverse project *)
  let '(lp, e) := PROJ.inv P xy e in
  if truth (Errs.proj_errno e) then (LP.mk HUGE_VAL HUGE_VAL, e)
  else
    let e := Errs.mk (Errs.errno e) (Errs.errno e) in
    if truth (Errs.proj_errno e) then (LP.mk HUGE_VAL HUGE_VAL, e)
    else
      (* reduce from del lp.lam *)
      let lp := LP.mk (LP.lam lp + PROJ.netlam0 P) (LP.phi lp) in
      (* adjust longitude to CM *)
      let lp := if negb (truth (PROJ.over P))
                then LP.mk (proj_adjlon (LP.lam lp)) (LP.phi lp) else lp in
      (lp, e).

(* ================================================================== *)
(** * Lines and ellipsoids used as instances *)
(* ================================================================== *)

(** A line whose three pointers are set. *)
Definition line_of (p1 : PROJ_PT_LPH) (az12 : R) (p2 : PROJ_PT_LPH)
  (az21 S : R) (E : PROJ_ELLIPS) : PROJ_LINE :=
  LINE.mk (Some p1) az12 (Some p2) az21 S (Some E).

(** The unit sphere, and an ellipsoid of flattening 1/2 ([es = f (2 - f)]). *)
Definition unit_sphere : PROJ_ELLIPS := ELLIPS.mk 1 0 0 1.
Definition ellipsoid_half : PROJ_ELLIPS := ELLIPS.mk 1 (1 / 2) (3 / 4) (1 / 4).

(** Direct problems: from the origin due north over a distance of 1 on the
    sphere, with and without a second point to write to; the same from
    longitude 100; on the ellipsoid with a forward azimuth of 5 radians;
    and due north with 9 in every field the call is to fill. *)
Definition sphere_line : PROJ_LINE :=
  line_of (LPH.mk 0 0 0) 0 (LPH.mk 0 0 0) 0 1 unit_sphere.
Definition sphere_line_without_pt2 : PROJ_LINE :=
  LINE.mk (Some (LPH.mk 0 0 0)) 0 None 0 1 (Some unit_sphere).
Definition line_lam_100 : PROJ_LINE :=
  line_of (LPH.mk 100 0 0) 0 (LPH.mk 0 0 0) 0 1 unit_sphere.
Definition line_az12_5 : PROJ_LINE :=
  line_of (LPH.mk 0 0 0) 5 (LPH.mk 0 0 0) 0 1 ellipsoid_half.
Definition meridian_line : PROJ_LINE :=
  line_of (LPH.mk 0 0 0) 0 (LPH.mk 9 9 9) 9 1 ellipsoid_half.

(** A direct problem along the equator: due east over 1/10. *)
Definition equator_line : PROJ_LINE :=
  line_of (LPH.mk 0 0 0) (PI / 2) (LPH.mk 0 0 0) 0 (1 / 10) ellipsoid_half.

(** Inverse problems: twice the origin; longitudes 2 radians apart with
    latitudes 0.001 and 0; the same with latitudes PI / 4 and 0. *)
Definition coincident_line : PROJ_LINE :=
  line_of (LPH.mk 0 0 0) 0 (LPH.mk 0 0 0) 0 0 ellipsoid_half.
Definition near_antipodal_line : PROJ_LINE :=
  line_of (LPH.mk 0 0.001 0) 0 (LPH.mk 2 0 0) 0 0 ellipsoid_half.
Definition far_and_equator_line : PROJ_LINE :=
  line_of (LPH.mk 0 (PI / 4) 0) 0 (LPH.mk 2 0 0) 0 0 ellipsoid_half.

(** A definition string written out from its arguments, each preceded by
    ['+'] and followed by a space; and the characters of an argument that
    is written so: neither white space nor NUL. *)
Definition definition_of (args : list (list ascii)) : list ascii :=
  concat (map (fun a => "+"%char :: a ++ " "%char :: nil) args).
Definition plain (c : ascii) : bool :=
  negb (InitPlus.blank c) && negb (Ascii.eqb c InitPlus.NUL).

(** The structure of [geod] for the ellipsoid of flattening 1/2, from the
    origin due east over 1/10, as [GEOD_init] sets its constants
    ([FLAT2 = FLAT / 2], [FLAT4 = FLAT / 4], [FLAT64 = FLAT * FLAT / 64]),
    with [n_alpha] and [n_S] as given; and the same for the unit sphere. *)
Definition geodesic_half (n_alpha n_S : Z) : GEODESIC_T :=
  GEOD.mk 1 (UV.mk 0 0) (UV.mk 0 0) (PI / 2) 0 (1 / 10)
    (1 - 1 / 2) (1 / 2) (1 / 2 / 2) (1 / 2 / 4) (1 / 2 * (1 / 2) / 64) 1
    1 1 (1 / 10) n_alpha n_S
    0 0 0 0 0 0 0 0 0 0 0 0 0 0.

(** A projection whose inverse returns the coordinate it is given and
    leaves the error numbers alone, on a unit sphere with neither offsets
    nor scaling. *)
Definition plate_carree : PROJ :=
  PROJ.mk (fun xy e => (LP.mk (XY.x xy) (XY.y xy), e)) 0 1 0 0 0 1.

(** The value of the macro [M_PI_2] of [<math.h>] in binary64
    (1.5707963267948966, [0x1.921fb54442d18p+0]): the latitude that the
    program holds for a pole. *)
Definition M_PI_2_binary64 : R := IZR 884279719003555 / 2 ^ 49.


(** A direct problem from latitude PI / 4 on the ellipsoid of flattening
    1/2, with a forward azimuth of 1 over a distance of 1. *)
Definition line_from_45 : PROJ_LINE :=
  line_of (LPH.mk 0 (PI / 4) 0) 1 (LPH.mk 0 0 0) 0 1 ellipsoid_half.

(* ================================================================== *)
(** * Properties *)
(* ================================================================== *)

(** ** Comparisons and the constant PI *)

(** Decimal literals as quotients of integers, for [ring] and [field]. *)
Ltac decimals :=
  unfold Q2R; cbn [QArith_base.Qnum QArith_base.Qden];
  repeat match goal with
  | |- context [Z.pow_pos ?a ?b] =>
      let v := eval vm_compute in (Z.pow_pos a b) in
      change (Z.pow_pos a b) with v
  end.

Lemma ltbP (x y : R) : reflect (x < y) (x <? y).
Proof. unfold ltb. destruct (Rlt_dec x y); constructor; assumption. Qed.

Lemma lebP (x y : R) : reflect (x <= y) (x <=? y).
Proof. unfold leb. destruct (Rle_dec x y); constructor; assumption. Qed.

Lemma gtbP (x y : R) : reflect (x > y) (x >? y).
Proof. unfold gtb. apply ltbP. Qed.

Lemma gebP (x y : R) : reflect (x >= y) (x >=? y).
Proof.
  unfold geb. destruct (lebP y x); constructor.
  - now apply Rle_ge.
  - intro H. now apply n, Rge_le.
Qed.

Lemma neqbP (x y : R) : reflect (x <> y) (neqb x y).
Proof.
  unfold neqb. destruct (Req_dec_T x y); constructor; [|assumption].
  intro H. now apply H.
Qed.

Lemma PI_bounds : 3 < PI <= 4.
Proof. split; [generalize PI2_3_2; lra | exact PI_4]. Qed.

Lemma Rabs_le_inv (x b : R) : Rabs x <= b -> - b <= x <= b.
Proof.
  intros H. pose proof (Rle_abs x). pose proof (Rle_abs (- x)) as H'.
  rewrite Rabs_Ropp in H'. lra.
Qed.

(** ** The range of [atan2] *)

Lemma atan2_range (y x : R) : - PI < atan2 y x <= PI.
Proof.
  pose proof PI_bounds as HP.
  unfold atan2.
  destruct (Rlt_dec 0 x) as [Hx|Hx].
  { pose proof (atan_bound (y / x)). lra. }
  destruct (Rlt_dec x 0) as [Hx'|Hx'].
  - assert (Hinv : / x < 0) by now apply Rinv_lt_0_compat.
    destruct (Rle_dec 0 y) as [Hy|Hy].
    + assert (y / x <= 0).
      { unfold Rdiv. destruct Hy as [Hy|Hy].
        - left. now apply Rmult_pos_neg.
        - subst y. right. ring. }
      assert (atan (y / x) <= 0).
      { destruct H as [H|H].
        - left. rewrite <- atan_0. now apply atan_increasing.
        - rewrite H, atan_0. lra. }
      pose proof (atan_bound (y / x)). lra.
    + assert (0 < y / x).
      { unfold Rdiv. apply Rmult_neg_neg; lra. }
      assert (0 < atan (y / x)).
      { rewrite <- atan_0. now apply atan_increasing. }
      pose proof (atan_bound (y / x)). lra.
  - destruct (Rlt_dec 0 y); [lra|]. destruct (Rlt_dec y 0); lra.
Qed.

(** [atan2 y x] is PI only on the negative x axis. *)
Lemma atan2_PI_inv (y x : R) : atan2 y x = PI -> y = 0 /\ x < 0.
Proof.
  pose proof PI_bounds as HP.
  unfold atan2.
  destruct (Rlt_dec 0 x) as [Hx|Hx].
  { pose proof (atan_bound (y / x)). lra. }
  destruct (Rlt_dec x 0) as [Hx'|Hx'].
  - destruct (Rle_dec 0 y) as [Hy|Hy].
    + intros H. assert (H0 : atan (y / x) = 0) by lra.
      apply atan_eq0 in H0.
      split; [|assumption].
      unfold Rdiv in H0. apply Rmult_integral in H0. destruct H0 as [H0|H0].
      * assumption.
      * exfalso. apply (Rinv_neq_0_compat x); [lra | assumption].
    + pose proof (atan_bound (y / x)). lra.
  - destruct (Rlt_dec 0 y); [lra|]. destruct (Rlt_dec y 0); lra.
Qed.

(** ** [proj_adjlon] *)

Lemma adjlon_scaled (lon : R) : lon * M_1_PI * PI = lon.
Proof. unfold M_1_PI. field. exact PI_neq0. Qed.

(** Outside the band the argument is reduced by a whole number of turns. *)
Lemma proj_adjlon_reduced (lon : R) :
  fabs (lon * M_1_PI) - 1 > 3 * DBL_EPSILON ->
  proj_adjlon lon =
    lon - IZR (Zfloor (0.5 * (lon * M_1_PI + 1.0))) * (2 * PI) /\
  - PI <= proj_adjlon lon < PI.
Proof.
  intros H. unfold proj_adjlon.
  destruct (gtbP (fabs (lon * M_1_PI) - 1) (3 * DBL_EPSILON)) as [_|n];
    [|contradiction].
  cbv zeta. unfold floor, M_PI.
  set (x := 0.5 * (lon * M_1_PI + 1.0)).
  pose proof (Zfloor_bound x) as [Hlo Hhi].
  pose proof PI_bounds as HP.
  assert (Hx : x * (2 * PI) = lon + PI).
  { unfold x. pose proof (adjlon_scaled lon). lra. }
  split.
  - lra.
  - assert (0 <= (x - IZR (Zfloor x)) * PI) by (apply Rmult_le_pos; lra).
    assert (0 < (IZR (Zfloor x) + 1 - x) * PI) by (apply Rmult_lt_0_compat; lra).
    lra.
Qed.

(** Inside the band the argument is returned as it is. *)
Lemma proj_adjlon_kept (lon : R) :
  ~ fabs (lon * M_1_PI) - 1 > 3 * DBL_EPSILON ->
  proj_adjlon lon = lon /\ Rabs lon <= adjlon_band.
Proof.
  intros H. unfold proj_adjlon.
  destruct (gtbP (fabs (lon * M_1_PI) - 1) (3 * DBL_EPSILON)) as [Hgt|_];
    [contradiction|].
  split; [reflexivity|].
  unfold adjlon_band, fabs in *.
  pose proof PI_bounds as HP.
  assert (Hle : Rabs (lon * M_1_PI) <= 1 + 3 * DBL_EPSILON) by lra.
  rewrite <- (adjlon_scaled lon) at 1.
  rewrite Rabs_mult, (Rabs_pos_eq PI) by lra.
  rewrite Rmult_comm. apply Rmult_le_compat_l; lra.
Qed.

Lemma proj_adjlon_cases (lon : R) :
  - PI <= proj_adjlon lon < PI \/
  (proj_adjlon lon = lon /\ Rabs lon <= adjlon_band).
Proof.
  destruct (Rgt_dec (fabs (lon * M_1_PI) - 1) (3 * DBL_EPSILON)) as [H|H].
  - left. now apply proj_adjlon_reduced.
  - right. now apply proj_adjlon_kept.
Qed.

Lemma proj_adjlon_band (lon : R) : Rabs (proj_adjlon lon) <= adjlon_band.
Proof.
  pose proof PI_bounds as HP.
  destruct (proj_adjlon_cases lon) as [H|[-> H]]; [|assumption].
  unfold adjlon_band, DBL_EPSILON. apply Rabs_le. lra.
Qed.

Lemma proj_adjlon_0 : proj_adjlon 0 = 0.
Proof.
  apply proj_adjlon_kept. unfold fabs, DBL_EPSILON.
  rewrite Rmult_0_l, Rabs_R0. lra.
Qed.

(** An argument well outside the band is changed. *)
Lemma proj_adjlon_5 : proj_adjlon 5 <> 5.
Proof.
  pose proof PI_bounds as HP.
  assert (H : fabs (5 * M_1_PI) - 1 > 3 * DBL_EPSILON).
  { unfold fabs, M_1_PI, DBL_EPSILON.
    assert (/ 4 <= / PI) by (apply Rinv_le_contravar; lra).
    assert (0 < / PI) by (apply Rinv_0_lt_compat; lra).
    rewrite Rabs_pos_eq; lra. }
  apply proj_adjlon_reduced in H. lra.
Qed.

(** C1 (as amended): for every real angle [x] the normaliser returns [x]
    plus a whole number of turns.  When [|x / PI| - 1 > 3e-14] it reduces
    [x], and the value returned is in [-PI, PI); otherwise it returns [x]
    unchanged, and then [|x| <= PI * (1 + 3e-14)]. *)
Theorem proj_adjlon_range_congruent (x : R) :
  (Rabs (x / PI) - 1 > 3e-14 -> - PI <= proj_adjlon x < PI) /\
  (Rabs (x / PI) - 1 <= 3e-14 ->
   proj_adjlon x = x /\ Rabs x <= PI * (1 + 3e-14)) /\
  exists k : Z, proj_adjlon x = x + IZR k * (2 * PI).
Proof.
  assert (Ht : fabs (x * M_1_PI) - 1 > 3 * DBL_EPSILON <->
               Rabs (x / PI) - 1 > 3e-14).
  { unfold fabs, M_1_PI, DBL_EPSILON, Rdiv. split; intros H; lra. }
  split; [|split].
  - intros H. apply Ht in H. now apply proj_adjlon_reduced in H.
  - intros H.
    assert (Hn : ~ fabs (x * M_1_PI) - 1 > 3 * DBL_EPSILON)
      by (intros Hc; apply Ht in Hc; lra).
    apply proj_adjlon_kept in Hn. destruct Hn as [H1 H2].
    split; [assumption|]. unfold adjlon_band, DBL_EPSILON in H2. lra.
  - destruct (Rgt_dec (fabs (x * M_1_PI) - 1) (3 * DBL_EPSILON)) as [H|H].
    + apply proj_adjlon_reduced in H. destruct H as [H _].
      exists (- Zfloor (0.5 * (x * M_1_PI + 1.0)))%Z.
      rewrite H, opp_IZR. ring.
    + apply proj_adjlon_kept in H. destruct H as [H _].
      exists 0%Z. rewrite H. simpl. ring.
Qed.

(** C1, two instances: 5 is reduced, PI is returned as it is. *)
Lemma proj_adjlon_range_congruent_5_PI :
  (Rabs (5 / PI) - 1 > 3e-14 /\ - PI <= proj_adjlon 5 < PI) /\
  (Rabs (PI / PI) - 1 <= 3e-14 /\ proj_adjlon PI = PI).
Proof.
  pose proof PI_bounds as HP.
  assert (H5 : Rabs (5 / PI) - 1 > 3e-14).
  { assert (/ 4 <= / PI) by (apply Rinv_le_contravar; lra).
    assert (0 < / PI) by (apply Rinv_0_lt_compat; lra).
    unfold Rdiv. rewrite Rabs_pos_eq; lra. }
  assert (HPI : Rabs (PI / PI) - 1 <= 3e-14).
  { replace (PI / PI) with 1 by (field; exact PI_neq0).
    rewrite Rabs_R1. lra. }
  split; split; try assumption.
  - exact (proj1 (proj_adjlon_range_congruent 5) H5).
  - exact (proj1 (proj1 (proj2 (proj_adjlon_range_congruent PI)) HPI)).
Defined.

(** C1 (as stated) fails at [x = -PI]: the value is returned unchanged
    and is not in the half-open interval (-PI, PI]. *)
Lemma proj_adjlon_minus_PI :
  proj_adjlon (- PI) = - PI /\ ~ (- PI < proj_adjlon (- PI) <= PI).
Proof.
  assert (H : proj_adjlon (- PI) = - PI).
  { apply proj_adjlon_kept. unfold fabs, M_1_PI, DBL_EPSILON.
    replace (- PI * / PI) with (- (1)) by (field; exact PI_neq0).
    rewrite Rabs_Ropp, Rabs_R1. lra. }
  split; [assumption|]. rewrite H. lra.
Qed.

(** ** Trigonometry for the direct iteration *)

Lemma Rabs_sin_le (x : R) : Rabs (sin x) <= Rabs x.
Proof.
  destruct (Rtotal_order x 0) as [H|[H|H]].
  - pose proof (sin_gt_x x H). pose proof (SIN_bound x).
    rewrite (Rabs_left x H). apply Rabs_le. 
    destruct (Rle_dec (-1) x).
    + assert (Hs : sin x < 0).
      { apply sin_lt_0_var; [|assumption]. pose proof PI_bounds. lra. }
      lra.
    + lra.
  - subst x. rewrite sin_0. lra.
  - pose proof (sin_lt_x x H). pose proof (SIN_bound x).
    rewrite (Rabs_pos_eq x) by lra. apply Rabs_le.
    destruct (Rle_dec x 1).
    + assert (Hs : 0 <= sin x).
      { apply sin_ge_0; [lra|]. pose proof PI_bounds. lra. }
      lra.
    + lra.
Qed.

Lemma sin_lipschitz (a b : R) : Rabs (sin a - sin b) <= Rabs (a - b).
Proof.
  rewrite form4, !Rabs_mult.
  pose proof (COS_bound ((a + b) / 2)) as Hc.
  pose proof (Rabs_sin_le ((a - b) / 2)) as Hs.
  assert (Hc' : Rabs (cos ((a + b) / 2)) <= 1) by (apply Rabs_le; lra).
  assert (Hh : Rabs ((a - b) / 2) = Rabs (a - b) / 2).
  { unfold Rdiv. rewrite Rabs_mult, (Rabs_pos_eq (/ 2)); lra. }
  rewrite Hh in Hs. rewrite (Rabs_pos_eq 2) by lra.
  pose proof (Rabs_pos (sin ((a - b) / 2))) as Hp.
  pose proof (Rabs_pos (cos ((a + b) / 2))) as Hq.
  assert (Rabs (cos ((a + b) / 2)) * Rabs (sin ((a - b) / 2))
          <= 1 * (Rabs (a - b) / 2)).
  { apply Rmult_le_compat; assumption. }
  lra.
Qed.

Lemma sin_add_sub (a b : R) : sin (a + b) - sin (b - a) = 2 * sin a * cos b.
Proof. rewrite sin_plus, sin_minus. ring. Qed.

Lemma sin_3a (x : R) : sin (3 * x) = 3 * sin x - 4 * sin x * sin x * sin x.
Proof.
  replace (3 * x) with (2 * x + x) by ring.
  rewrite sin_plus, sin_2a, cos_2a_sin.
  pose proof (sin2_cos2 x) as H. unfold Rsqr in H.
  replace (2 * sin x * cos x * cos x)
    with (2 * sin x * (1 - sin x * sin x)) by (rewrite <- H; ring).
  ring.
Qed.

Lemma cos_3a (x : R) : cos (3 * x) = 4 * cos x * cos x * cos x - 3 * cos x.
Proof.
  replace (3 * x) with (2 * x + x) by ring.
  rewrite cos_plus, sin_2a, cos_2a_cos.
  pose proof (sin2_cos2 x) as H. unfold Rsqr in H.
  replace (2 * sin x * cos x * sin x)
    with (2 * cos x * (1 - cos x * cos x)) by (rewrite <- H; ring).
  ring.
Qed.

(** ** The direct iteration is a contraction *)

Section DirectIteration.

Variables az21 d tu : R.

(** The pass of lines 71-79 in closed form: three sines of multiples of
    the iterate. *)
Lemma step_closed_form (y : R) :
  InFwd.step az21 d tu y =
    tu - d / 2 * (sin (2 * y + az21) - sin az21)
       + d ^ 2 / 16 * (sin (4 * y + 2 * az21) - sin (2 * az21))
       - d ^ 3 / 48 * (sin (6 * y + 3 * az21) - sin (3 * az21)).
Proof.
  assert (H1 : sin (2 * y + az21) - sin az21 = 2 * sin y * cos (az21 + y)).
  { rewrite <- sin_add_sub. f_equal; f_equal; ring. }
  assert (H2 : sin (4 * y + 2 * az21) - sin (2 * az21)
               = 2 * sin (2 * y) * cos (2 * (az21 + y))).
  { rewrite <- sin_add_sub. f_equal; f_equal; ring. }
  assert (H3 : sin (6 * y + 3 * az21) - sin (3 * az21)
               = 2 * sin (3 * y) * cos (3 * (az21 + y))).
  { rewrite <- sin_add_sub. f_equal; f_equal; ring. }
  rewrite H1, H2, H3, sin_3a, cos_3a, sin_2a, cos_2a_cos.
  unfold InFwd.step, InFwd.body. cbn [InFwd.y].
  decimals. field.
Qed.

Lemma step_lipschitz (y y' : R) :
  Rabs (InFwd.step az21 d tu y - InFwd.step az21 d tu y')
  <= InFwd.ratio d * Rabs (y - y').
Proof.
  rewrite !step_closed_form. unfold InFwd.ratio.
  pose proof (sin_lipschitz (2 * y + az21) (2 * y' + az21)) as H2.
  pose proof (sin_lipschitz (4 * y + 2 * az21) (4 * y' + 2 * az21)) as H4.
  pose proof (sin_lipschitz (6 * y + 3 * az21) (6 * y' + 3 * az21)) as H6.
  replace (2 * y + az21 - (2 * y' + az21)) with (2 * (y - y')) in H2 by ring.
  replace (4 * y + 2 * az21 - (4 * y' + 2 * az21)) with (4 * (y - y')) in H4
    by ring.
  replace (6 * y + 3 * az21 - (6 * y' + 3 * az21)) with (6 * (y - y')) in H6
    by ring.
  rewrite Rabs_mult, (Rabs_pos_eq 2) in H2 by lra.
  rewrite Rabs_mult, (Rabs_pos_eq 4) in H4 by lra.
  rewrite Rabs_mult, (Rabs_pos_eq 6) in H6 by lra.
  set (s2 := sin (2 * y + az21) - sin (2 * y' + az21)) in *.
  set (s4 := sin (4 * y + 2 * az21) - sin (4 * y' + 2 * az21)) in *.
  set (s6 := sin (6 * y + 3 * az21) - sin (6 * y' + 3 * az21)) in *.
  set (D := Rabs (y - y')) in *.
  replace (tu - d / 2 * (sin (2 * y + az21) - sin az21) +
     d ^ 2 / 16 * (sin (4 * y + 2 * az21) - sin (2 * az21)) -
     d ^ 3 / 48 * (sin (6 * y + 3 * az21) - sin (3 * az21)) -
    (tu - d / 2 * (sin (2 * y' + az21) - sin az21) +
     d ^ 2 / 16 * (sin (4 * y' + 2 * az21) - sin (2 * az21)) -
     d ^ 3 / 48 * (sin (6 * y' + 3 * az21) - sin (3 * az21))))
    with (- (d / 2) * s2 + d ^ 2 / 16 * s4 + - (d ^ 3 / 48) * s6)
    by (unfold s2, s4, s6; ring).
  eapply Rle_trans; [apply Rabs_triang|].
  eapply Rle_trans; [apply Rplus_le_compat_r, Rabs_triang|].
  rewrite !Rabs_mult, !Rabs_Ropp.
  assert (E1 : Rabs (d / 2) = Rabs d / 2).
  { unfold Rdiv. rewrite Rabs_mult, (Rabs_pos_eq (/ 2)); lra. }
  assert (E2 : Rabs (d ^ 2 / 16) = Rabs d ^ 2 / 16).
  { unfold Rdiv. rewrite Rabs_mult, (Rabs_pos_eq (/ 16)), <- RPow_abs; lra. }
  assert (E3 : Rabs (d ^ 3 / 48) = Rabs d ^ 3 / 48).
  { unfold Rdiv. rewrite Rabs_mult, (Rabs_pos_eq (/ 48)), <- RPow_abs; lra. }
  rewrite E1, E2, E3.
  pose proof (Rabs_pos d) as Hd.
  assert (P2 : 0 <= Rabs d ^ 2) by (apply pow_le; assumption).
  assert (P3 : 0 <= Rabs d ^ 3) by (apply pow_le; assumption).
  assert (A1 : Rabs d / 2 * Rabs s2 <= Rabs d / 2 * (2 * D)).
  { apply Rmult_le_compat_l; lra. }
  assert (A2 : Rabs d ^ 2 / 16 * Rabs s4 <= Rabs d ^ 2 / 16 * (4 * D)).
  { apply Rmult_le_compat_l; lra. }
  assert (A3 : Rabs d ^ 3 / 48 * Rabs s6 <= Rabs d ^ 3 / 48 * (6 * D)).
  { apply Rmult_le_compat_l; lra. }
  lra.
Qed.

(** Every iterate stays near [tu]. *)
Lemma step_near_tu (y : R) :
  Rabs (InFwd.step az21 d tu y - tu)
  <= Rabs d + Rabs d ^ 2 / 8 + Rabs d ^ 3 / 24.
Proof.
  rewrite step_closed_form.
  set (s2 := sin (2 * y + az21) - sin az21).
  set (s4 := sin (4 * y + 2 * az21) - sin (2 * az21)).
  set (s6 := sin (6 * y + 3 * az21) - sin (3 * az21)).
  assert (B2 : Rabs s2 <= 2).
  { unfold s2. pose proof (SIN_bound (2 * y + az21)).
    pose proof (SIN_bound az21). apply Rabs_le. lra. }
  assert (B4 : Rabs s4 <= 2).
  { unfold s4. pose proof (SIN_bound (4 * y + 2 * az21)).
    pose proof (SIN_bound (2 * az21)). apply Rabs_le. lra. }
  assert (B6 : Rabs s6 <= 2).
  { unfold s6. pose proof (SIN_bound (6 * y + 3 * az21)).
    pose proof (SIN_bound (3 * az21)). apply Rabs_le. lra. }
  replace (tu - d / 2 * s2 + d ^ 2 / 16 * s4 - d ^ 3 / 48 * s6 - tu)
    with (- (d / 2) * s2 + d ^ 2 / 16 * s4 + - (d ^ 3 / 48) * s6) by ring.
  eapply Rle_trans; [apply Rabs_triang|].
  eapply Rle_trans; [apply Rplus_le_compat_r, Rabs_triang|].
  rewrite !Rabs_mult, !Rabs_Ropp.
  assert (E1 : Rabs (d / 2) = Rabs d / 2).
  { unfold Rdiv. rewrite Rabs_mult, (Rabs_pos_eq (/ 2)); lra. }
  assert (E2 : Rabs (d ^ 2 / 16) = Rabs d ^ 2 / 16).
  { unfold Rdiv. rewrite Rabs_mult, (Rabs_pos_eq (/ 16)), <- RPow_abs; lra. }
  assert (E3 : Rabs (d ^ 3 / 48) = Rabs d ^ 3 / 48).
  { unfold Rdiv. rewrite Rabs_mult, (Rabs_pos_eq (/ 48)), <- RPow_abs; lra. }
  rewrite E1, E2, E3.
  pose proof (Rabs_pos d) as Hd.
  assert (P2 : 0 <= Rabs d ^ 2) by (apply pow_le; assumption).
  assert (P3 : 0 <= Rabs d ^ 3) by (apply pow_le; assumption).
  assert (A1 : Rabs d / 2 * Rabs s2 <= Rabs d / 2 * 2).
  { apply Rmult_le_compat_l; lra. }
  assert (A2 : Rabs d ^ 2 / 16 * Rabs s4 <= Rabs d ^ 2 / 16 * 2).
  { apply Rmult_le_compat_l; lra. }
  assert (A3 : Rabs d ^ 3 / 48 * Rabs s6 <= Rabs d ^ 3 / 48 * 2).
  { apply Rmult_le_compat_l; lra. }
  lra.
Qed.

(** With a ratio of at most 7/8, the loop leaves once the gap between two
    iterates, shrunk by the remaining passes, is within [EPS]. *)
Lemma iterate_leaves (m : nat) :
  0 <= InFwd.ratio d <= 7 / 8 ->
  forall y : R,
    Rabs (InFwd.step az21 d tu y - y) * (7 / 8) ^ m <= InFwd.EPS ->
    exists v : InFwd.vars,
      InFwd.loop (Datatypes.S m) az21 d tu y = Ok v /\
      fabs (InFwd.y v - InFwd.c v) <= InFwd.EPS.
Proof.
  intros Hk. unfold InFwd.loop.
  induction m as [|m IH]; intros y Hy; cbn [InFwd.iterate].
  - destruct (gtbP (fabs (InFwd.y (InFwd.body az21 d tu y) -
                         InFwd.c (InFwd.body az21 d tu y))) InFwd.EPS)
      as [Hgt|Hle].
    + exfalso. unfold fabs, InFwd.step in *. cbn [InFwd.c InFwd.body] in Hgt.
      simpl pow in Hy. lra.
    + eexists. split; [reflexivity|]. lra.
  - destruct (gtbP (fabs (InFwd.y (InFwd.body az21 d tu y) -
                         InFwd.c (InFwd.body az21 d tu y))) InFwd.EPS)
      as [Hgt|Hle].
    + apply IH.
      fold (InFwd.step az21 d tu y).
      pose proof (step_lipschitz (InFwd.step az21 d tu y) y) as HL.
      set (g := Rabs (InFwd.step az21 d tu y - y)) in *.
      set (g' := Rabs (InFwd.step az21 d tu (InFwd.step az21 d tu y) -
                       InFwd.step az21 d tu y)) in *.
      assert (Hg : 0 <= g) by apply Rabs_pos.
      assert (Hp : 0 <= (7 / 8) ^ m) by (apply pow_le; lra).
      assert (H1 : g' <= 7 / 8 * g).
      { eapply Rle_trans; [exact HL|]. apply Rmult_le_compat_r; lra. }
      assert (H2 : g' * (7 / 8) ^ m <= 7 / 8 * g * (7 / 8) ^ m).
      { apply Rmult_le_compat_r; assumption. }
      simpl pow in Hy. lra.
    + eexists. split; [reflexivity|]. lra.
Qed.

End DirectIteration.

Lemma expansion_x_range (r c2a : R) : -1 <= InFwd.expansion_x r c2a < 1.
Proof.
  unfold InFwd.expansion_x. cbv zeta.
  set (q := sqrt ((1.0 / r / r - 1.0) * c2a + 1.0)).
  assert (Hq : 0 <= q) by apply sqrt_pos.
  assert (Hx : 0 < q + 1.0) by lra.
  assert (Hi : 0 < / (q + 1.0)) by now apply Rinv_0_lt_compat.
  assert (Hi1 : / (q + 1.0) <= 1).
  { rewrite <- Rinv_1. apply Rinv_le_contravar; lra. }
  replace ((q + 1.0 - 2.0) / (q + 1.0)) with (1 - 2 * / (q + 1.0))
    by (decimals; field; lra).
  lra.
Qed.

Lemma expansion_d_bound (x : R) :
  -1 <= x <= 1 -> Rabs (InFwd.expansion_d x) <= 7 / 10.
Proof.
  intros Hx. unfold InFwd.expansion_d.
  assert (H : forall t, 0 <= t <= 1 -> 3 / 8 * t * t * t - t + 7 / 10 >= 0).
  { intros t Ht. pose proof (Rle_0_sqr (t - 47 / 50)) as Hs. unfold Rsqr in Hs.
    assert (0 <= (t - 47 / 50) * (t - 47 / 50) * (3 / 8 * t + 141 / 200)).
    { apply Rmult_le_pos; [exact Hs | lra]. }
    lra. }
  apply Rabs_le.
  destruct (Rle_dec 0 x) as [H0|H0].
  - pose proof (H x (conj H0 (proj2 Hx))).
    assert (0 <= x * x * x).
    { apply Rmult_le_pos; [apply Rmult_le_pos|]; lra. }
    assert (x * x * x <= 1 * 1 * x).
    { apply Rmult_le_compat_r; [lra|]. apply Rmult_le_compat; lra. }
    lra.
  - pose proof (H (- x) ltac:(lra)).
    assert (0 <= (- x) * (- x) * (- x)).
    { apply Rmult_le_pos; [apply Rmult_le_pos|]; lra. }
    assert ((- x) * (- x) * (- x) <= 1 * 1 * (- x)).
    { apply Rmult_le_compat_r; [lra|]. apply Rmult_le_compat; lra. }
    lra.
Qed.

Lemma ratio_bound (d : R) :
  Rabs d <= 7 / 10 ->
  0 <= InFwd.ratio d <= 7 / 8 /\
  Rabs d + Rabs d ^ 2 / 8 + Rabs d ^ 3 / 24 <= 1.
Proof.
  intros Hd. unfold InFwd.ratio.
  pose proof (Rabs_pos d) as H0.
  set (t := Rabs d) in *.
  assert (H2 : 0 <= t ^ 2 <= 49 / 100).
  { split; [apply pow_le; lra|].
    replace (49 / 100) with ((7 / 10) ^ 2) by lra. apply pow_incr. lra. }
  assert (H3 : 0 <= t ^ 3 <= 343 / 1000).
  { split; [apply pow_le; lra|].
    replace (343 / 1000) with ((7 / 10) ^ 3) by lra. apply pow_incr. lra. }
  lra.
Qed.

Lemma passes_enough (k : nat) : (7 / 8) ^ (230 + k) <= InFwd.EPS.
Proof.
  rewrite pow_add.
  assert (H : (7 / 8) ^ 230 <= InFwd.EPS) by (unfold InFwd.EPS; lra).
  assert (H0 : 0 <= (7 / 8) ^ 230) by (apply pow_le; lra).
  assert (H1 : 0 <= (7 / 8) ^ k <= 1).
  { split; [apply pow_le; lra|].
    rewrite <- (pow1 k). apply pow_incr. lra. }
  assert ((7 / 8) ^ 230 * (7 / 8) ^ k <= (7 / 8) ^ 230 * 1).
  { apply Rmult_le_compat_l; lra. }
  lra.
Qed.

(** Over the reals the loop of [proj_in_fwd] leaves within [InFwd.passes]
    passes, whatever the flattening, the latitude, the azimuth and the
    distance. *)
Lemma in_fwd_loop_leaves (az21 r c2a tu : R) (k : nat) :
  exists v : InFwd.vars,
    InFwd.loop (InFwd.passes + k) az21
      (InFwd.expansion_d (InFwd.expansion_x r c2a)) tu tu = Ok v /\
    fabs (InFwd.y v - InFwd.c v) <= InFwd.EPS.
Proof.
  set (d := InFwd.expansion_d (InFwd.expansion_x r c2a)).
  assert (Hd : Rabs d <= 7 / 10).
  { apply expansion_d_bound. pose proof (expansion_x_range r c2a). lra. }
  destruct (ratio_bound d Hd) as [Hk H1].
  change (InFwd.passes + k)%nat with (Datatypes.S (230 + k)).
  apply iterate_leaves; [assumption|].
  pose proof (step_near_tu az21 d tu tu) as Hn.
  pose proof (passes_enough k) as Hp.
  assert (H0 : 0 <= (7 / 8) ^ (230 + k)) by (apply pow_le; lra).
  assert (Rabs (InFwd.step az21 d tu tu - tu) * (7 / 8) ^ (230 + k)
          <= 1 * (7 / 8) ^ (230 + k)).
  { apply Rmult_le_compat_r; lra. }
  lra.
Qed.

(** ** What the direct solvers return *)

(** Over the reals [proj_in_fwd] returns within [InFwd.passes] passes; it
    overwrites [az12] with its normalised value, [az21] and the two
    coordinates of [*pt2], and the longitude it writes is the longitude of
    [pt1] plus an increment that does not depend on it. *)
Lemma proj_in_fwd_returns (phi1 h1 az12 : R) (p2 : PROJ_PT_LPH)
  (az21 S : R) (E : PROJ_ELLIPS) (k : nat) :
  exists dlam phi2 az21' : R,
    forall lam1 : R,
      proj_in_fwd (InFwd.passes + k)
        (line_of (LPH.mk lam1 phi1 h1) az12 p2 az21 S E)
      = Ok (line_of (LPH.mk lam1 phi1 h1) (proj_adjlon az12)
              (LPH.mk (lam1 + dlam) phi2 (LPH.h p2)) az21' S E).
Proof.
  unfold proj_in_fwd, line_of.
  cbn [bind deref LINE.E LINE.pt1 LPH.phi LPH.lam].
  cbv zeta.
  cbn [LINE.S LINE.set_az21 LINE.pt1 LINE.az12 LINE.pt2 LINE.E].
  destruct (neqbP (cos az12) 0.0);
    cbn [LINE.S LINE.set_az21 LINE.pt1 LINE.az12 LINE.pt2 LINE.E LINE.az21];
    match goal with
    | |- context [InFwd.loop _ ?a
                    (InFwd.expansion_d (InFwd.expansion_x ?r ?c)) ?t ?t] =>
        destruct (in_fwd_loop_leaves a r c t k) as [v [Hv _]]
    end;
    rewrite Hv; cbn [bind set_pt2_phi set_pt2_lam deref LINE.pt2
      LINE.set_az21 LINE.set_az12 LINE.store_pt2 LINE.with_phi LINE.with_lam
      LINE.az21 LINE.az12 LINE.pt1 LINE.S LINE.E LPH.lam LPH.phi LPH.h];
    eexists _, _, _; intros lam1; unfold Rminus; rewrite Rplus_assoc;
    reflexivity.
Qed.

(** Over the reals, for every flattening, latitude, azimuth and distance
    each pass of the loop of [proj_in_fwd] is a contraction of ratio at
    most 7/8, so that the loop leaves within [InFwd.passes] = 231 passes.
    This is a statement of exact arithmetic: it uses that the iterates
    come arbitrarily close to each other, which rounded iterates need
    not do. *)
Lemma in_fwd_contraction (az21 r c2a tu : R) (k : nat) :
  let d := InFwd.expansion_d (InFwd.expansion_x r c2a) in
  0 <= InFwd.ratio d <= 7 / 8 /\
  (forall y y' : R,
     Rabs (InFwd.step az21 d tu y - InFwd.step az21 d tu y')
     <= InFwd.ratio d * Rabs (y - y')) /\
  (exists v : InFwd.vars,
     InFwd.loop (InFwd.passes + k) az21 d tu tu = Ok v /\
     fabs (InFwd.y v - InFwd.c v) <= InFwd.EPS).
Proof.
  intros d. split; [|split].
  - apply ratio_bound, expansion_d_bound.
    pose proof (expansion_x_range r c2a). lra.
  - apply step_lipschitz.
  - apply in_fwd_loop_leaves.
Qed.

(** ** The only exit of the loop of [proj_in_fwd] *)

(** [proj_in_fwd] as its loop followed by the stores of lines 81-89. *)
Lemma proj_in_fwd_stores (p1 : PROJ_PT_LPH) (az12 : R) (p2 : PROJ_PT_LPH)
  (az21 S : R) (E : PROJ_ELLIPS) (n : nat) :
  let flat := ELLIPS.f E in
  let r := 1.0 - flat in
  let tu0 := InFwd.reduced r (LPH.phi p1) in
  let sf := sin az12 in
  let cf := cos az12 in
  let a21 := if neqb cf 0.0 then atan2 tu0 cf * 2.0 else 0.0 in
  let cu := 1.0 / sqrt (tu0 * tu0 + 1.0) in
  let su := tu0 * cu in
  let sa := cu * sf in
  let c2a := - sa * sa + 1.0 in
  let x := InFwd.expansion_x r c2a in
  let d := InFwd.expansion_d x in
  let tu := S / ELLIPS.a E / r / ((x * x / 4.0 + 1) / (1.0 - x)) in
  proj_in_fwd n (line_of p1 az12 p2 az21 S E) =
    v <- InFwd.loop n a21 d tu tu ;;
    let sy := InFwd.sy v in
    let cy := InFwd.cy v in
    let b21 := cu * cy * cf - su * sy in
    let c := ((c2a * -3.0 + 4.0) * flat + 4.0) * c2a * flat / 16.0 in
    let d := ((InFwd.e v * cy * c + InFwd.cz v) * sy * c + InFwd.y v) * sa in
    Ok (line_of p1 (proj_adjlon az12)
          (LPH.mk (LPH.lam p1 + atan2 (sy * sf) (cu * cy - su * sy * cf)
                   - (1.0 - c) * d * flat)
                  (atan2 (su * cy + cu * sy * cf) (r * hypot sa b21))
                  (LPH.h p2))
          (proj_adjlon (atan2 sa b21 + M_PI)) S E).
Proof.
  unfold proj_in_fwd, line_of.
  cbn [bind deref LINE.E LINE.pt1 LPH.phi LPH.lam].
  cbv zeta.
  cbn [LINE.S LINE.set_az21 LINE.pt1 LINE.az12 LINE.pt2 LINE.E].
  destruct (neqb (cos az12) 0.0);
    cbn [LINE.S LINE.set_az21 LINE.pt1 LINE.az12 LINE.pt2 LINE.E LINE.az21];
    match goal with
    | |- context [InFwd.loop ?n ?a ?d ?t ?t] =>
        destruct (InFwd.loop n a d t t) as [v|e]
    end;
    cbn [bind set_pt2_phi set_pt2_lam deref LINE.pt2
      LINE.set_az21 LINE.set_az12 LINE.store_pt2 LINE.with_phi LINE.with_lam
      LINE.az21 LINE.az12 LINE.pt1 LINE.S LINE.E LPH.lam LPH.phi LPH.h];
    reflexivity.
Qed.

(** The loop fails only by not having left. *)
Lemma loop_fault (n : nat) (az21 d tu y : R) (e : fault) :
  InFwd.loop n az21 d tu y = Fault e -> e = StillLooping.
Proof.
  unfold InFwd.loop. revert y.
  induction n as [|n IH]; intros y; cbn [InFwd.iterate].
  - intros H. now injection H as <-.
  - destruct (_ >? _); [apply IH | discriminate].
Qed.







(** ** What the other direct solvers return *)

(** [proj_sp_fwd] returns; it overwrites [az21] and the two coordinates of
    [*pt2], and the longitude it writes is the longitude of [pt1] plus an
    angle of (-PI, PI], shifted by one turn when its magnitude exceeds
    PI. *)
Lemma proj_sp_fwd_returns (p1 : PROJ_PT_LPH) (az12 : R) (p2 : PROJ_PT_LPH)
  (az21 S : R) (E : PROJ_ELLIPS) :
  exists t phi2 az21' : R,
    - PI < t <= PI /\
    proj_sp_fwd (line_of p1 az12 p2 az21 S E)
    = Ok (line_of p1 az12
            (LPH.mk (let L := LPH.lam p1 + t in
                     if fabs L >? M_PI then L - copysign (2 * M_PI) L else L)
                    phi2 (LPH.h p2))
            az21' S E).
Proof.
  unfold proj_sp_fwd, line_of.
  cbn [bind deref set_pt2_phi set_pt2_lam LINE.E LINE.pt1 LINE.pt2 LINE.S
       LINE.az12 LINE.az21 LINE.set_az21 LINE.store_pt2 LINE.with_phi
       LINE.with_lam LPH.lam LPH.phi LPH.h].
  cbv zeta.
  match goal with
  | |- context [LPH.lam p1 + atan2 ?y ?x] =>
      pose proof (atan2_range y x) as Ht; set (t := atan2 y x) in *
  end.
  exists t. do 2 eexists. split; [exact Ht|].
  destruct (gtbP (fabs (LPH.lam p1 + t)) M_PI);
    cbn [bind deref set_pt2_lam LINE.pt2 LINE.store_pt2 LINE.with_lam
         LINE.pt1 LINE.az12 LINE.az21 LINE.S LINE.E LPH.lam LPH.phi LPH.h];
    reflexivity.
Qed.

(** [proj_pt_fwd] returns; it overwrites the longitude of [*pt2] with a
    normalised angle and, outside the meridian case only, [az21] and the
    latitude of [*pt2]. *)
Lemma proj_pt_fwd_returns (p1 : PROJ_PT_LPH) (az12 : R) (p2 : PROJ_PT_LPH)
  (az21 S : R) (E : PROJ_ELLIPS) :
  exists de phi2 az21' : R,
    proj_pt_fwd (line_of p1 az12 p2 az21 S E)
    = Ok (line_of p1 az12
            (LPH.mk (proj_adjlon (LPH.lam p1 + de)) phi2 (LPH.h p2))
            az21' S E) /\
    (PtFwd.merid (PtFwd.prepare E p1 (line_of p1 az12 p2 az21 S E)) = true ->
     de = snd (PtFwd.meridian
                 (PtFwd.prepare E p1 (line_of p1 az12 p2 az21 S E))) /\
     phi2 = LPH.phi p2 /\ az21' = az21).
Proof.
  unfold proj_pt_fwd.
  cbn [bind deref line_of LINE.E LINE.pt1].
  fold (line_of p1 az12 p2 az21 S E).
  set (l := PtFwd.prepare E p1 (line_of p1 az12 p2 az21 S E)).
  destruct (PtFwd.merid l) eqn:Hm.
  - destruct (PtFwd.meridian l) as [[al21 phi2] de].
    cbn [bind set_pt2_lam deref line_of LINE.pt2 LINE.store_pt2 LINE.with_lam
         LINE.pt1 LINE.az12 LINE.az21 LINE.S LINE.E LPH.lam LPH.phi LPH.h
         snd].
    exists de, (LPH.phi p2), az21. split; [reflexivity|].
    intros _. repeat split.
  - unfold PtFwd.general.
    cbn [bind set_pt2_lam set_pt2_phi deref line_of LINE.pt2 LINE.store_pt2
         LINE.with_lam LINE.with_phi LINE.set_az21
         LINE.pt1 LINE.az12 LINE.az21 LINE.S LINE.E LPH.lam LPH.phi LPH.h].
    do 3 eexists. split; [reflexivity|].
    intros H. discriminate H.
Qed.

(** ** [proj_gforward] *)

Lemma proj_gforward_refuses (fuel : nat) (A : PROJ_LINE) :
  LINE.pt1 A = None \/ LINE.S A <= 0 \/ LINE.E A = None ->
  proj_gforward fuel A = Ok (1%Z, A).
Proof.
  intros H. unfold proj_gforward.
  destruct (LINE.pt1 A) as [p1|]; cbn [is_null orb]; [|reflexivity].
  destruct (lebP (LINE.S A) 0) as [Hs|Hs]; cbn [orb]; [reflexivity|].
  destruct (LINE.E A) as [E|]; cbn [is_null]; [|reflexivity].
  destruct H as [H|[H|H]]; [discriminate H | contradiction | discriminate H].
Qed.

Lemma proj_gforward_dispatches (fuel : nat) (A : PROJ_LINE)
  (p1 : PROJ_PT_LPH) (E : PROJ_ELLIPS) :
  LINE.pt1 A = Some p1 -> 0 < LINE.S A -> LINE.E A = Some E ->
  proj_gforward fuel A =
    if neqb (ELLIPS.f E) 0
    then A' <- proj_in_fwd fuel A ;; Ok (0%Z, A')
    else A' <- proj_sp_fwd A ;; Ok (0%Z, A').
Proof.
  intros H1 HS HE. unfold proj_gforward. rewrite H1, HE.
  cbn [is_null orb bind deref].
  destruct (lebP (LINE.S A) 0) as [Hs|Hs]; [lra|reflexivity].
Qed.

(** With [pt2] NULL neither solver returns: the store into [*pt2] comes
    after the loop in [proj_in_fwd] and first in [proj_sp_fwd]. *)
Lemma proj_in_fwd_null_pt2 (fuel : nat) (A A' : PROJ_LINE) :
  LINE.pt2 A = None -> proj_in_fwd fuel A <> Ok A'.
Proof.
  intros H2. destruct A as [q1 az12 q2 az21 S E'].
  cbn [LINE.pt2] in H2. subst q2.
  unfold proj_in_fwd.
  destruct E' as [E|]; cbn [bind deref LINE.E LINE.pt1]; [|discriminate].
  destruct q1 as [p1|]; cbn [bind deref]; [|discriminate].
  cbv zeta.
  cbn [LINE.S LINE.set_az21 LINE.pt1 LINE.az12 LINE.pt2 LINE.E].
  destruct (neqb (cos az12) 0.0);
    cbn [LINE.S LINE.set_az21 LINE.pt1 LINE.az12 LINE.pt2 LINE.E LINE.az21];
    match goal with
    | |- context [InFwd.loop ?n ?a ?d ?t ?t] =>
        destruct (InFwd.loop n a d t t) as [v|e]
    end; cbn [bind set_pt2_phi deref LINE.pt2 LINE.set_az21]; discriminate.
Qed.

Lemma proj_sp_fwd_null_pt2 (A A' : PROJ_LINE) :
  LINE.pt2 A = None -> proj_sp_fwd A <> Ok A'.
Proof.
  intros H2. destruct A as [q1 az12 q2 az21 S E'].
  cbn [LINE.pt2] in H2. subst q2.
  unfold proj_sp_fwd.
  destruct E' as [E|]; cbn [bind deref LINE.E LINE.pt1]; [|discriminate].
  destruct q1 as [p1|]; cbn [bind deref]; [|discriminate].
  cbv zeta. cbn [bind set_pt2_phi deref LINE.pt2]. discriminate.
Qed.

(** C2 (as amended): [proj_gforward] returns 1 and leaves the line as it
    is when [A->pt1] is NULL, [A->S <= 0] or [A->E] is NULL, and it
    returns 1 in no other case.  Otherwise, when the flattening is 0 and
    [pt2] is not NULL it returns 0 after the spherical solver; when the
    flattening is not 0 it calls the ellipsoidal solver, and it returns,
    with 0, exactly when that call returns, which needs the loop of
    [proj_in_fwd] to leave.  [pt2] is not tested: when it is NULL the
    call does not return. *)
Theorem proj_gforward_contract (A : PROJ_LINE) (fuel : nat) :
  (LINE.pt1 A = None \/ LINE.S A <= 0 \/ LINE.E A = None ->
   proj_gforward fuel A = Ok (1%Z, A)) /\
  (forall (p1 : PROJ_PT_LPH) (E : PROJ_ELLIPS),
     LINE.pt1 A = Some p1 -> 0 < LINE.S A -> LINE.E A = Some E ->
     (forall A' : PROJ_LINE, proj_gforward fuel A <> Ok (1%Z, A')) /\
     (LINE.pt2 A = None ->
      forall (r : Z) (A' : PROJ_LINE), proj_gforward fuel A <> Ok (r, A')) /\
     (ELLIPS.f E = 0 -> LINE.pt2 A <> None ->
      exists A' : PROJ_LINE,
        proj_sp_fwd A = Ok A' /\ proj_gforward fuel A = Ok (0%Z, A')) /\
     (ELLIPS.f E <> 0 ->
      forall (r : Z) (A' : PROJ_LINE),
        proj_gforward fuel A = Ok (r, A') <->
        r = 0%Z /\ proj_in_fwd fuel A = Ok A')).
Proof.
  split; [apply proj_gforward_refuses|].
  intros p1 E H1 HS HE.
  rewrite (proj_gforward_dispatches fuel A p1 E H1 HS HE).
  split; [|split; [|split]].
  - intros A'. destruct (neqb (ELLIPS.f E) 0).
    + destruct (proj_in_fwd fuel A); cbn [bind]; [|discriminate].
      intros H. injection H as H _. discriminate H.
    + destruct (proj_sp_fwd A); cbn [bind]; [|discriminate].
      intros H. injection H as H _. discriminate H.
  - intros H2 r A'. destruct (neqb (ELLIPS.f E) 0).
    + destruct (proj_in_fwd fuel A) as [B|e] eqn:HB; cbn [bind];
        [|discriminate].
      exfalso. exact (proj_in_fwd_null_pt2 fuel A B H2 HB).
    + destruct (proj_sp_fwd A) as [B|e] eqn:HB; cbn [bind]; [|discriminate].
      exfalso. exact (proj_sp_fwd_null_pt2 A B H2 HB).
  - intros Hf H2. destruct (neqbP (ELLIPS.f E) 0) as [Hn|_]; [contradiction|].
    destruct A as [q1 az12 q2 az21 S E']. cbn [LINE.pt1 LINE.E LINE.pt2] in *.
    subst q1 E'. destruct q2 as [p2|]; [clear H2|contradiction].
    destruct (proj_sp_fwd_returns p1 az12 p2 az21 S E)
      as (t & phi2 & az21' & _ & Hr).
    unfold line_of in Hr. rewrite Hr. cbn [bind].
    eexists. split; reflexivity.
  - intros Hf r A'. destruct (neqbP (ELLIPS.f E) 0) as [_|Hn].
    + destruct (proj_in_fwd fuel A) as [B|e]; cbn [bind].
      * split.
        -- intros H. injection H as <- <-. split; reflexivity.
        -- intros [-> H]. injection H as ->. reflexivity.
      * split; [discriminate | intros [_ H]; discriminate H].
    + exfalso. apply Hn. exact Hf.
Qed.

(** C2, two instances: on the unit sphere, from the origin over a
    distance of 1, the call returns 0 after [proj_sp_fwd]; on the
    ellipsoid of flattening 1/2, with a forward azimuth of 5, it returns 0
    with the line of [proj_in_fwd], whose loop has left within
    [InFwd.passes] passes over the reals. *)
Lemma proj_gforward_contract_sphere :
  (exists A' : PROJ_LINE,
     proj_sp_fwd sphere_line = Ok A' /\
     proj_gforward 0 sphere_line = Ok (0%Z, A')) /\
  (exists A' : PROJ_LINE,
     proj_in_fwd InFwd.passes line_az12_5 = Ok A' /\
     proj_gforward InFwd.passes line_az12_5 = Ok (0%Z, A')).
Proof.
  split.
  - destruct (proj_gforward_contract sphere_line 0) as [_ H].
    destruct (H (LPH.mk 0 0 0) unit_sphere) as (_ & _ & H' & _);
      [reflexivity | cbn; lra | reflexivity |].
    apply H'; [reflexivity | discriminate].
  - destruct (proj_in_fwd_returns 0 0 5 (LPH.mk 0 0 0) 0 1 ellipsoid_half 0)
      as (dlam & phi2 & az21' & Hr).
    specialize (Hr 0). change (InFwd.passes + 0)%nat with InFwd.passes in Hr.
    eexists. split; [exact Hr|].
    destruct (proj_gforward_contract line_az12_5 InFwd.passes) as [_ H].
    destruct (H (LPH.mk 0 0 0) ellipsoid_half) as (_ & _ & _ & H');
      [reflexivity | cbn; lra | reflexivity |].
    apply H'; [cbn; lra | split; [reflexivity | exact Hr]].
Defined.

(** C2 (as stated) fails for a line that passes the three tests while its
    [pt2] is NULL: the call does not return 0. *)
Lemma proj_gforward_null_pt2 :
  is_null (LINE.pt1 sphere_line_without_pt2) = false /\
  0 < LINE.S sphere_line_without_pt2 /\
  is_null (LINE.E sphere_line_without_pt2) = false /\
  proj_gforward InFwd.passes sphere_line_without_pt2 = Fault NullDeref.
Proof.
  split; [reflexivity|]. split; [cbn; lra|]. split; [reflexivity|].
  rewrite (proj_gforward_dispatches _ _ (LPH.mk 0 0 0) unit_sphere);
    [|reflexivity | cbn; lra | reflexivity].
  change (ELLIPS.f unit_sphere) with 0.
  destruct (neqbP 0 0) as [H|H]; [now exfalso|].
  reflexivity.
Qed.

(** ** The fields the direct solvers write *)

(** C8 (as amended): given a line whose pointers are set and point to
    distinct objects, [proj_sp_fwd] and [proj_pt_fwd] return with [pt1],
    [az12], [S] and [E] as they were; [proj_in_fwd] returns with [pt1],
    [S] and [E] as they were and with [az12] replaced by
    [proj_adjlon (az12)]. *)
Theorem direct_solvers_frame (p1 : PROJ_PT_LPH) (az12 : R)
  (p2 : PROJ_PT_LPH) (az21 S : R) (E : PROJ_ELLIPS) (k : nat) :
  let A := line_of p1 az12 p2 az21 S E in
  (exists A' : PROJ_LINE,
     proj_sp_fwd A = Ok A' /\
     LINE.pt1 A' = Some p1 /\ LINE.az12 A' = az12 /\
     LINE.S A' = S /\ LINE.E A' = Some E) /\
  (exists A' : PROJ_LINE,
     proj_pt_fwd A = Ok A' /\
     LINE.pt1 A' = Some p1 /\ LINE.az12 A' = az12 /\
     LINE.S A' = S /\ LINE.E A' = Some E) /\
  (exists A' : PROJ_LINE,
     proj_in_fwd (InFwd.passes + k) A = Ok A' /\
     LINE.pt1 A' = Some p1 /\ LINE.az12 A' = proj_adjlon az12 /\
     LINE.S A' = S /\ LINE.E A' = Some E).
Proof.
  intros A. unfold A. split; [|split].
  - destruct (proj_sp_fwd_returns p1 az12 p2 az21 S E)
      as (t & phi2 & az21' & _ & Hr).
    eexists. split; [exact Hr|]. repeat split.
  - destruct (proj_pt_fwd_returns p1 az12 p2 az21 S E)
      as (de & phi2 & az21' & Hr & _).
    eexists. split; [exact Hr|]. repeat split.
  - destruct p1 as [lam1 phi1 h1].
    destruct (proj_in_fwd_returns phi1 h1 az12 p2 az21 S E k)
      as (dlam & phi2 & az21' & Hr).
    eexists. split; [exact (Hr lam1)|]. repeat split.
Qed.

(** C8 (as stated) fails for [proj_in_fwd] on a forward azimuth of 5
    radians: line 88 stores the normalised azimuth into [az12]. *)
Lemma proj_in_fwd_rewrites_az12 :
  exists A' : PROJ_LINE,
    proj_in_fwd InFwd.passes line_az12_5 = Ok A' /\
    LINE.az12 A' <> LINE.az12 line_az12_5.
Proof.
  destruct (proj_in_fwd_returns 0 0 5 (LPH.mk 0 0 0) 0 1 ellipsoid_half 0)
    as (dlam & phi2 & az21' & Hr).
  eexists. split.
  - change InFwd.passes with (InFwd.passes + 0)%nat. exact (Hr 0).
  - cbn [line_of LINE.az12 line_az12_5]. exact proj_adjlon_5.
Qed.

(** ** The meridian case of the Thomas forward solvers *)

Lemma prepare_flags (E : PROJ_ELLIPS) (p1 : PROJ_PT_LPH) (Arc : PROJ_LINE) :
  PtFwd.merid (PtFwd.prepare E p1 Arc)
  = (fabs (sin (proj_adjlon (LINE.az12 Arc))) <? PtFwd.MERI_TOL) /\
  PtFwd.signS (PtFwd.prepare E p1 Arc)
  = (fabs (proj_adjlon (LINE.az12 Arc)) >? M_PI_2).
Proof. split; reflexivity. Qed.

(** C6 fails for [proj_pt_fwd]: in the meridian case (the sine of the
    normalised forward azimuth within 1e-9 of 0) the latitude and the back
    azimuth (0 or PI, by the sign of [al21] and by [signS]) are computed
    into the locals [phi2] and [al21] only; the call returns with [az21]
    and the latitude of [*pt2] as they were, and stores the longitude
    alone. *)
Theorem proj_pt_fwd_meridian_not_stored (p1 : PROJ_PT_LPH) (az12 : R)
  (p2 : PROJ_PT_LPH) (az21 S : R) (E : PROJ_ELLIPS) :
  let A := line_of p1 az12 p2 az21 S E in
  let l := PtFwd.prepare E p1 A in
  Rabs (sin (proj_adjlon az12)) < PtFwd.MERI_TOL ->
  PtFwd.merid l = true /\
  PtFwd.signS l = (Rabs (proj_adjlon az12) >? PI / 2) /\
  (fst (fst (PtFwd.meridian l)) = 0 \/ fst (fst (PtFwd.meridian l)) = PI) /\
  proj_pt_fwd A
  = Ok (line_of p1 az12
          (LPH.mk (proj_adjlon (LPH.lam p1 + snd (PtFwd.meridian l)))
                  (LPH.phi p2) (LPH.h p2))
          az21 S E).
Proof.
  intros A l Hlt.
  assert (Hm : PtFwd.merid l = true).
  { unfold l. rewrite (proj1 (prepare_flags E p1 A)).
    cbn [A line_of LINE.az12].
    destruct (ltbP (fabs (sin (proj_adjlon az12))) PtFwd.MERI_TOL) as [_|H];
      [reflexivity | contradiction]. }
  split; [exact Hm|]. split; [reflexivity|]. split.
  - unfold PtFwd.meridian. cbv zeta.
    destruct (PtFwd.al21 l >? 0), (PtFwd.signS l); cbn [fst];
      unfold M_PI; auto.
  - destruct (proj_pt_fwd_returns p1 az12 p2 az21 S E)
      as (de & phi2 & az21' & Hr & Hmer).
    destruct (Hmer Hm) as (-> & -> & ->). exact Hr.
Qed.

Lemma due_north_is_meridian : Rabs (sin (proj_adjlon 0)) < PtFwd.MERI_TOL.
Proof.
  rewrite proj_adjlon_0, sin_0, Rabs_R0. unfold PtFwd.MERI_TOL. lra.
Qed.

(** C6, the failing input: due north from the origin; [az21] and the
    latitude of [*pt2] hold 9 before the call and after it. *)
Lemma proj_pt_fwd_meridian_stale :
  Rabs (sin (proj_adjlon 0)) < PtFwd.MERI_TOL /\
  exists lam2 : R,
    proj_pt_fwd meridian_line
    = Ok (line_of (LPH.mk 0 0 0) 0 (LPH.mk lam2 9 9) 9 1 ellipsoid_half).
Proof.
  split; [exact due_north_is_meridian|].
  eexists.
  exact (proj2 (proj2 (proj2
           (proj_pt_fwd_meridian_not_stored (LPH.mk 0 0 0) 0
              (LPH.mk 9 9 9) 9 1 ellipsoid_half due_north_is_meridian)))).
Defined.

(** The same branch of [geod_for] does store both: the back azimuth it
    leaves in [ALPHA21] is 0 or PI, and the latitude it leaves in [p2.u]
    is the arctangent it computes, up to sign. *)
Lemma geod_for_meridian_stored (G : GEODESIC_T) :
  truth (GEOD.merid G) = true ->
  (GEOD.ALPHA21 (geod_for G) = 0 \/ GEOD.ALPHA21 (geod_for G) = PI) /\
  exists ds : R,
    let phi2 := atan (tan (HALFPI + GEOD.s1 G - ds) / GEOD.ONEF G) in
    UV.u (GEOD.p2 (geod_for G)) = phi2 \/
    UV.u (GEOD.p2 (geod_for G)) = - phi2.
Proof.
  intros Hm. unfold geod_for.
  destruct (if truth (GEOD.ELLIPSE G) then _ else _) as [ds ss].
  cbv zeta.
  change (GEOD.merid (GEOD.set_ALPHA21 ?x G)) with (GEOD.merid G).
  rewrite Hm. unfold GeodFor.meridian. cbv zeta.
  match goal with
  | |- context [if ?c >? 0 then _ else _] => destruct (c >? 0)
  end;
    match goal with
    | |- context [if truth ?c then _ else _] => destruct (truth c)
    end; (split; [auto | exists ds; cbv zeta; auto]).
Qed.

(** ** The inverse solvers on a pair of equal points *)

Lemma fabs_0_lt (tol : R) : 0 < tol -> (fabs 0 <? tol) = true.
Proof.
  intros H. destruct (ltbP (fabs 0) tol) as [_|H']; [reflexivity|].
  exfalso. apply H'. unfold fabs. rewrite Rabs_R0. exact H.
Qed.

Lemma proj_pt_inv_same_point (p : PROJ_PT_LPH) (az12 az21 S : R)
  (E : PROJ_ELLIPS) :
  proj_pt_inv (line_of p az12 p az21 S E) = Ok (line_of p 0 p 0 0 E).
Proof.
  unfold proj_pt_inv, line_of.
  cbn [bind deref LINE.E LINE.pt1 LINE.pt2]. cbv zeta.
  rewrite (Rminus_diag (LPH.lam p)), proj_adjlon_0.
  rewrite (Rminus_diag (PtInv.reduced _ _)), Rmult_0_r.
  rewrite !fabs_0_lt by (unfold PtInv.DTOL; lra).
  reflexivity.
Qed.

Lemma geod_inv_same_point (G : GEODESIC_T) :
  geod_inv (GEOD.set_p2 (GEOD.p1 G) G)
  = ((-1)%Z, GEOD.set_inverse 0 0 0 (GEOD.set_p2 (GEOD.p1 G) G)).
Proof.
  unfold geod_inv. cbv zeta.
  cbn [GEOD.p1 GEOD.p2 GEOD.set_p2 GEOD.ELLIPSE GEOD.ONEF].
  unfold adjlon.
  rewrite (Rminus_diag (UV.v (GEOD.p1 G))), proj_adjlon_0.
  destruct (truth (GEOD.ELLIPSE G));
    rewrite Rminus_diag, Rmult_0_r;
    rewrite !fabs_0_lt by (unfold DTOL; lra); reflexivity.
Qed.

Lemma merid_arc_same_latitude (esq phi : R) : InInv.merid_arc esq phi phi = 0.
Proof.
  unfold InInv.merid_arc. cbv zeta.
  assert (Hflag : (fabs phi <=? InInv.TTA) &&
                  (fabs (fabs phi - M_PI_2) <? InInv.TTA) = false).
  { destruct (lebP (fabs phi) InInv.TTA) as [H1|H1]; [|reflexivity].
    destruct (ltbP (fabs (fabs phi - M_PI_2)) InInv.TTA) as [H2|H2];
      [|reflexivity].
    exfalso. unfold fabs, M_PI_2, InInv.TTA in *.
    pose proof PI_bounds. pose proof (Rabs_pos phi).
    apply Rabs_def2 in H2. lra. }
  rewrite Hflag. cbn [negb]. lra.
Qed.

Lemma proj_in_inv_same_point (p : PROJ_PT_LPH) (az12 az21 S : R)
  (E : PROJ_ELLIPS) :
  proj_in_inv (line_of p az12 p az21 S E) = Ok (line_of p PI p 0 0 E).
Proof.
  unfold proj_in_inv, line_of.
  cbn [bind deref LINE.E LINE.pt1 LINE.pt2]. cbv zeta.
  rewrite (Rminus_diag (LPH.lam p)).
  rewrite fabs_0_lt by (unfold InInv.TOL1; lra).
  rewrite merid_arc_same_latitude.
  destruct (gtbP (LPH.phi p) (LPH.phi p)) as [H|_]; [lra|].
  unfold fabs, LINE.set_az21, LINE.set_az12, LINE.set_S, M_PI.
  cbn [LINE.pt1 LINE.pt2 LINE.az12 LINE.az21 LINE.S LINE.E].
  rewrite Rabs_R0, Rmult_0_r. reflexivity.
Qed.

Lemma proj_sp_inv_same_point (p : PROJ_PT_LPH) (az12 az21 S : R)
  (E : PROJ_ELLIPS) :
  proj_sp_inv (line_of p az12 p az21 S E) = Ok (line_of p 0 p 0 0 E).
Proof.
  unfold proj_sp_inv, line_of.
  cbn [bind deref LINE.E LINE.pt1 LINE.pt2]. cbv zeta.
  rewrite (Rminus_diag (LPH.lam p)), (Rminus_diag (LPH.phi p)).
  rewrite Rmult_0_r, sin_0, cos_0.
  replace (0 * 0 + cos (LPH.phi p) * cos (LPH.phi p) * 0 * 0) with 0 by ring.
  rewrite sqrt_0, asin_0.
  replace (cos (LPH.phi p) * sin (LPH.phi p) -
           sin (LPH.phi p) * cos (LPH.phi p) * 1) with 0 by ring.
  rewrite !Rmult_0_r.
  assert (Hat : atan2 0 0 = 0).
  { unfold atan2. destruct (Rlt_dec 0 0); [lra|reflexivity]. }
  rewrite Hat.
  cbn [LINE.set_S LINE.set_az12 LINE.set_az21 LINE.az12 LINE.az21 LINE.pt1
       LINE.pt2 LINE.S LINE.E].
  destruct (ltbP 0 0) as [H|_]; [lra|].
  cbn [LINE.set_S LINE.set_az12 LINE.set_az21 LINE.az12 LINE.az21 LINE.pt1
       LINE.pt2 LINE.S LINE.E].
  rewrite Ropp_0.
  destruct (ltbP 0 0) as [H|_]; [lra|].
  cbn [LINE.set_S LINE.set_az12 LINE.set_az21 LINE.az12 LINE.az21 LINE.pt1
       LINE.pt2 LINE.S LINE.E].
  rewrite proj_adjlon_0. reflexivity.
Qed.

(** C4 (as amended): for every point [p], on [pt1 = pt2 = p] the Thomas
    solvers [proj_pt_inv] and [geod_inv] and the spherical [proj_sp_inv]
    leave distance 0 and both azimuths 0; [proj_in_inv] leaves distance 0
    and [az21 = 0] but [az12 = PI]. *)
Theorem inverse_same_point (p : PROJ_PT_LPH) (az12 az21 S : R)
  (E : PROJ_ELLIPS) (G : GEODESIC_T) :
  proj_pt_inv (line_of p az12 p az21 S E) = Ok (line_of p 0 p 0 0 E) /\
  geod_inv (GEOD.set_p2 (GEOD.p1 G) G)
  = ((-1)%Z, GEOD.set_inverse 0 0 0 (GEOD.set_p2 (GEOD.p1 G) G)) /\
  proj_sp_inv (line_of p az12 p az21 S E) = Ok (line_of p 0 p 0 0 E) /\
  proj_in_inv (line_of p az12 p az21 S E) = Ok (line_of p PI p 0 0 E).
Proof.
  split; [apply proj_pt_inv_same_point|].
  split; [apply geod_inv_same_point|].
  split; [apply proj_sp_inv_same_point | apply proj_in_inv_same_point].
Qed.

(** C4 (as stated) fails for [proj_in_inv] at the origin: the forward
    azimuth it leaves is PI, not 0. *)
Lemma proj_in_inv_same_point_az12 :
  exists A' : PROJ_LINE,
    proj_in_inv coincident_line = Ok A' /\ LINE.az12 A' <> 0.
Proof.
  eexists. split; [apply proj_in_inv_same_point|].
  cbn [line_of LINE.az12]. pose proof PI_bounds. lra.
Qed.

(** ** The antipodal test of [proj_in_inv] *)

(** When the azimuths are computed off the equator, the back azimuth of the
    general case is PI minus an angle of (-PI, PI] that is PI only on the
    negative axis: it is never 0. *)
Lemma azimuths_az21_nonzero (v : InInv.vars) (su1 cu1 su2 cu2 dlon : R)
  (A : PROJ_LINE) :
  InInv.TOL0 <= Rabs su1 ->
  LINE.az21 (InInv.azimuths v su1 cu1 su2 cu2 dlon A) <> 0.
Proof.
  intros Hsu1. unfold InInv.azimuths. cbv zeta.
  destruct (ltbP (fabs su1) InInv.TOL0) as [H|_]; [unfold fabs in H; lra|].
  cbn [andb negb].
  match goal with
  | |- context [LINE.set_az21 (M_PI - atan2 ?y ?x) (LINE.set_az12 ?a ?B)] =>
      pose proof (atan2_range y x) as Hr;
      pose proof (atan2_PI_inv y x) as Hi;
      set (A4 := B); set (a1 := a); set (t := atan2 y x) in *
  end.
  assert (Ht : t <> PI).
  { intros Ht. destruct (Hi Ht) as [Hy Hx].
    rewrite Hy in Hx. unfold Rdiv in Hx. rewrite Rmult_0_l in Hx. lra. }
  clearbody t A4 a1. clear Hi.
  cbn [LINE.set_az12 LINE.set_az21 LINE.az12 LINE.az21].
  destruct (ltbP a1 0);
    cbn [LINE.set_az12 LINE.set_az21 LINE.az12 LINE.az21];
    (destruct (ltbP (M_PI - t) 0) as [Hneg|_]; [unfold M_PI in Hneg; lra|]);
    cbn [LINE.set_az12 LINE.set_az21 LINE.az12 LINE.az21]; unfold M_PI;
    intros H0; apply Ht; lra.
Qed.

(** After the meridional test has failed, [proj_in_inv] is the antipodal
    test followed by the general case. *)
Lemma proj_in_inv_branches (p1 : PROJ_PT_LPH) (az12 : R) (p2 : PROJ_PT_LPH)
  (az21 S : R) (E : PROJ_ELLIPS) :
  let A := line_of p1 az12 p2 az21 S E in
  let dlon := InInv.wrap_dlon (LPH.lam p2 - LPH.lam p1) in
  let r1 := fabs (LPH.phi p1) in
  let r2 := fabs (LPH.phi p2) in
  InInv.TOL1 <= Rabs (LPH.lam p2 - LPH.lam p1) ->
  proj_in_inv A =
    if (InInv.separation dlon >=? M_PI * (1 - ELLIPS.f E)) &&
       InInv.near_equator r1 r2
    then
      if (r1 >? InInv.TOL1) || (r2 >? InInv.TOL1)
      then Ok (line_of p1 0 p2 0 0 E)
      else
        let '(az21', aa, bb, sms) :=
          InInv.func_loa (ELLIPS.f E) (ELLIPS.es E) dlon az12 in
        Ok (line_of p1 az12 p2 az21' (fabs dlon - sms) E)
    else Ok (InInv.general E p1 p2 A).
Proof.
  intros A dlon r1 r2 Hlon. unfold proj_in_inv, A, line_of.
  cbn [bind deref LINE.E LINE.pt1 LINE.pt2 LINE.az12]. cbv zeta.
  destruct (ltbP (fabs (LPH.lam p2 - LPH.lam p1)) InInv.TOL1) as [H|_];
    [unfold fabs in H; lra|].
  fold dlon r1 r2.
  destruct (InInv.func_loa (ELLIPS.f E) (ELLIPS.es E) dlon az12)
    as [[[az21' aa] bb] sms].
  reflexivity.
Qed.

Lemma near_equator_spec (r1 r2 : R) :
  InInv.near_equator r1 r2 = true <->
  ~ (r1 > InInv.TOL2 /\ r2 > InInv.TOL2) /\
  ~ (r1 < InInv.TOL1 /\ r2 > InInv.TOL2) /\
  ~ (r2 < InInv.TOL1 /\ r1 > InInv.TOL2).
Proof.
  unfold InInv.near_equator.
  destruct (gtbP r1 InInv.TOL2), (gtbP r2 InInv.TOL2),
    (ltbP r1 InInv.TOL1), (ltbP r2 InInv.TOL1); cbn [andb negb];
    split; try discriminate; try reflexivity; intros H; try tauto;
    repeat split; tauto.
Qed.

Lemma separation_wrap_2 : InInv.separation (InInv.wrap_dlon (2 - 0)) = 2.
Proof.
  pose proof PI_bounds as HP.
  unfold InInv.wrap_dlon, InInv.separation, M_PI, fabs.
  rewrite Rminus_0_r.
  destruct (gebP 2 0) as [_|H]; [|lra].
  destruct (lebP PI 2) as [H|_]; [lra|]. cbn [andb].
  rewrite (Rabs_pos_eq 2) by lra.
  destruct (gtbP 2 PI) as [H|_]; [lra|reflexivity].
Qed.

(** C7 (as amended): in [proj_in_inv], when the two longitudes differ by at
    least TOL1 and their separation reaches the limit PI * (1 - f): if the
    two latitudes are not both beyond TOL2 in magnitude, neither is within
    TOL1 of the equator while the other is beyond TOL2, and at least one is
    beyond TOL1, the solver returns the zero line (S = 0, both azimuths 0);
    if one latitude is within TOL1 of the equator and the other is beyond
    TOL2, it runs the general iteration instead. *)
Theorem proj_in_inv_antipodal (p1 : PROJ_PT_LPH) (az12 : R)
  (p2 : PROJ_PT_LPH) (az21 S : R) (E : PROJ_ELLIPS) :
  let A := line_of p1 az12 p2 az21 S E in
  let r1 := Rabs (LPH.phi p1) in
  let r2 := Rabs (LPH.phi p2) in
  InInv.TOL1 <= Rabs (LPH.lam p2 - LPH.lam p1) ->
  PI * (1 - ELLIPS.f E)
    <= InInv.separation (InInv.wrap_dlon (LPH.lam p2 - LPH.lam p1)) ->
  (~ (r1 > InInv.TOL2 /\ r2 > InInv.TOL2) ->
   ~ (r1 < InInv.TOL1 /\ r2 > InInv.TOL2) ->
   ~ (r2 < InInv.TOL1 /\ r1 > InInv.TOL2) ->
   r1 > InInv.TOL1 \/ r2 > InInv.TOL1 ->
   proj_in_inv A = Ok (line_of p1 0 p2 0 0 E)) /\
  ((r1 < InInv.TOL1 /\ r2 > InInv.TOL2) \/
   (r2 < InInv.TOL1 /\ r1 > InInv.TOL2) ->
   proj_in_inv A = Ok (InInv.general E p1 p2 A)).
Proof.
  intros A r1 r2 Hlon Hsep.
  pose proof (proj_in_inv_branches p1 az12 p2 az21 S E Hlon) as Hb.
  cbv zeta in Hb. fold A in Hb. unfold fabs in Hb. fold r1 r2 in Hb.
  split.
  - intros Ha Hb1 Hb2 Hoff.
    rewrite Hb.
    destruct (gebP (InInv.separation
                      (InInv.wrap_dlon (LPH.lam p2 - LPH.lam p1)))
                   (M_PI * (1 - ELLIPS.f E))) as [_|Hn];
      [|unfold M_PI in Hn; lra].
    rewrite (proj2 (near_equator_spec r1 r2)) by tauto.
    cbn [andb].
    destruct (gtbP r1 InInv.TOL1), (gtbP r2 InInv.TOL1); cbn [orb];
      try reflexivity.
    exfalso. destruct Hoff; contradiction.
  - intros Hfar. rewrite Hb.
    assert (Hne : InInv.near_equator r1 r2 = false).
    { destruct (InInv.near_equator r1 r2) eqn:Heq; [|reflexivity].
      apply near_equator_spec in Heq. tauto. }
    rewrite Hne, andb_false_r. reflexivity.
Qed.

(** C7, an instance: latitudes 0.001 and 0, longitudes 2 radians apart,
    flattening 1/2. *)
Lemma proj_in_inv_antipodal_just_off_equator :
  InInv.TOL1 <= Rabs (2 - 0) /\
  PI * (1 - 1 / 2) <= InInv.separation (InInv.wrap_dlon (2 - 0)) /\
  proj_in_inv near_antipodal_line
  = Ok (line_of (LPH.mk 0 0.001 0) 0 (LPH.mk 2 0 0) 0 0 ellipsoid_half).
Proof.
  pose proof PI_bounds as HP.
  assert (H1 : InInv.TOL1 <= Rabs (2 - 0)).
  { unfold InInv.TOL1. rewrite Rabs_pos_eq; lra. }
  assert (H2 : PI * (1 - 1 / 2)
               <= InInv.separation (InInv.wrap_dlon (2 - 0))).
  { rewrite separation_wrap_2. lra. }
  assert (R1 : Rabs 0.001 = 0.001) by (apply Rabs_pos_eq; lra).
  split; [exact H1|]. split; [exact H2|].
  apply (proj1 (proj_in_inv_antipodal (LPH.mk 0 0.001 0) 0 (LPH.mk 2 0 0)
                  0 0 ellipsoid_half H1 H2));
    cbn [LPH.phi]; rewrite R1, Rabs_R0;
    unfold InInv.TOL1, InInv.TOL2; try (intros [Ha Hb]); try left; lra.
Defined.

Lemma far_latitude_reduced :
  InInv.TOL0 <= Rabs (sin (InInv.reduced (1 - 1 / 2) (PI / 4))).
Proof.
  unfold InInv.reduced, InInv.TOL0.
  rewrite sin_PI4, cos_PI4.
  assert (Hs : 0 < sqrt 2) by (apply sqrt_lt_R0; lra).
  replace ((1 - 1 / 2) * (1 / sqrt 2) / (1 / sqrt 2)) with (1 / 2)
    by (field; lra).
  rewrite sin_atan. unfold Rsqr.
  assert (Hq : 1 <= sqrt (1 + 1 / 2 * (1 / 2)) <= 2).
  { split.
    - rewrite <- sqrt_1 at 1. apply sqrt_le_1_alt. lra.
    - apply Rle_trans with (sqrt (2 * 2)).
      + apply sqrt_le_1_alt. lra.
      + rewrite sqrt_square; lra. }
  set (q := sqrt (1 + 1 / 2 * (1 / 2))) in *.
  assert (Hi : / 2 <= / q) by (apply Rinv_le_contravar; lra).
  rewrite Rabs_pos_eq.
  - unfold Rdiv. lra.
  - unfold Rdiv. assert (0 < / q) by (apply Rinv_0_lt_compat; lra). lra.
Qed.

(** C7 (as stated) fails on a line whose longitudes are 2 radians apart on
    an ellipsoid of flattening 1/2 (limit PI / 2), the first latitude at
    PI / 4 and the second on the equator: the solver runs the general
    iteration, and the back azimuth it leaves is not 0. *)
Lemma proj_in_inv_far_and_equator :
  PI * (1 - 1 / 2) <= InInv.separation (InInv.wrap_dlon (2 - 0)) /\
  Rabs (PI / 4) > InInv.TOL2 /\ Rabs 0 < InInv.TOL1 /\
  exists A' : PROJ_LINE,
    proj_in_inv far_and_equator_line = Ok A' /\ LINE.az21 A' <> 0.
Proof.
  pose proof PI_bounds as HP.
  assert (H1 : InInv.TOL1 <= Rabs (2 - 0)).
  { unfold InInv.TOL1. rewrite Rabs_pos_eq; lra. }
  assert (H2 : PI * (1 - 1 / 2)
               <= InInv.separation (InInv.wrap_dlon (2 - 0))).
  { rewrite separation_wrap_2. lra. }
  assert (R1 : Rabs (PI / 4) > InInv.TOL2).
  { unfold InInv.TOL2. rewrite Rabs_pos_eq; lra. }
  assert (R2 : Rabs 0 < InInv.TOL1).
  { unfold InInv.TOL1. rewrite Rabs_R0. lra. }
  split; [exact H2|]. split; [exact R1|]. split; [exact R2|].
  eexists. split.
  - apply (proj2 (proj_in_inv_antipodal (LPH.mk 0 (PI / 4) 0) 0
                    (LPH.mk 2 0 0) 0 0 ellipsoid_half H1 H2)).
    right. split; assumption.
  - unfold InInv.general. cbv zeta.
    apply azimuths_az21_nonzero. exact far_latitude_reduced.
Qed.

(** ** A round trip along the equator *)

(** [atan2] gives back an angle of (0, PI) from its sine and cosine. *)
Lemma atan2_sin_cos (t : R) : 0 < t < PI -> atan2 (sin t) (cos t) = t.
Proof.
  intros [H0 H1]. pose proof PI_bounds as HP.
  assert (Hs : 0 < sin t) by (apply sin_gt_0; assumption).
  unfold atan2.
  destruct (Rlt_dec 0 (cos t)) as [Hc|Hc].
  - destruct (Rlt_dec t (PI / 2)) as [Ht|Ht].
    + change (sin t / cos t) with (tan t). apply atan_tan. lra.
    + exfalso. destruct (Req_dec_T t (PI / 2)) as [e|e].
      * rewrite e, cos_PI2 in Hc. lra.
      * assert (cos t < 0) by (apply cos_lt_0; lra). lra.
  - destruct (Rlt_dec (cos t) 0) as [Hc'|Hc'].
    + destruct (Rle_dec 0 (sin t)) as [_|Hn]; [|lra].
      assert (Ht : PI / 2 < t).
      { destruct (Rlt_dec (PI / 2) t) as [H|H]; [assumption|].
        exfalso. destruct (Req_dec_T t (PI / 2)) as [e|e].
        - rewrite e, cos_PI2 in Hc'. lra.
        - assert (0 < cos t) by (apply cos_gt_0; lra). lra. }
      assert (Htan : sin t / cos t = tan (t - PI)).
      { unfold tan. replace t with ((t - PI) + PI) at 1 2 by ring.
        rewrite neg_sin, neg_cos. field.
        replace (t - PI) with (- (PI - t)) by ring. rewrite cos_neg.
        intros Hz. replace t with ((t - PI) + PI) in Hc' by ring.
        rewrite neg_cos in Hc'.
        replace (t - PI) with (- (PI - t)) in Hc' by ring.
        rewrite cos_neg in Hc'. lra. }
      rewrite Htan, atan_tan by lra. ring.
    + assert (Hz : cos t = 0) by lra.
      destruct (Rlt_dec 0 (sin t)) as [_|Hn]; [|lra].
      destruct (Rtotal_order t (PI / 2)) as [H|[H|H]].
      * assert (0 < cos t) by (apply cos_gt_0; lra). lra.
      * lra.
      * assert (cos t < 0) by (apply cos_lt_0; lra). lra.
Qed.

(** One pass of the iteration of [proj_in_inv] between two points of the
    equator, at an angle [ab] of (0, PI). *)
Lemma equator_pass (f dlon ab : R) :
  0 < ab < PI ->
  let v := InInv.body f 0 1 0 1 dlon ab in
  InInv.sig v = ab /\ InInv.w v = 0 /\
  InInv.xy v = Rabs (dlon + f * ab - ab) /\ InInv.ab v = dlon + f * ab.
Proof.
  intros Hab v. pose proof PI_bounds as HP.
  assert (Hs : 0 < sin ab) by (apply sin_gt_0; lra).
  assert (Hh : hypot (sin ab * 1) (0 * 1 - 0 * 1 * cos ab) = sin ab).
  { unfold hypot.
    replace (sin ab * 1 * (sin ab * 1) +
             (0 * 1 - 0 * 1 * cos ab) * (0 * 1 - 0 * 1 * cos ab))
      with (sin ab * sin ab) by ring.
    apply sqrt_square. lra. }
  assert (Hc : 0 * 0 + 1 * 1 * cos ab = cos ab) by ring.
  assert (Ha : 1 * 1 * sin ab / sin ab = 1) by (field; lra).
  assert (Hw : 1 - 1 * 1 = 0) by ring.
  unfold v, InInv.body. cbv zeta.
  cbn [InInv.sig InInv.w InInv.xy InInv.ab].
  rewrite !Hh, !Hc, !Ha, !Hw, atan2_sin_cos by assumption.
  destruct (0 >? InInv.TOL0); repeat split; try reflexivity;
    try (unfold fabs; f_equal); lra.
Qed.

(** Between two points of the equator [s] apart, on the ellipsoid of
    flattening 1/2, the passes move [ab] halfway to [2 * s] each time and
    the cap stops them: after the [n] continuations the angle [sig] is
    still short of [2 * s]. *)
Lemma equator_loop (s : R) (n : nat) :
  0 < s -> 2 * s < PI ->
  forall ab : R,
    0 < ab < 2 * s ->
    5e-14 <= (2 * s - ab) / 2 ^ n ->
    let v := InInv.loop n (1 / 2) 0 1 0 1 s ab in
    InInv.w v = 0 /\ InInv.sig v = 2 * s - (2 * s - ab) / 2 ^ n.
Proof.
  intros Hs Hpi. induction n as [|n IH]; intros ab Hab Htol;
    cbn [InInv.loop]; cbv zeta;
    destruct (equator_pass (1 / 2) s ab ltac:(lra)) as (Hsig & Hw & Hxy & Hab').
  - destruct (InInv.xy _ >=? 5e-14); (split; [exact Hw|]);
      rewrite Hsig; simpl pow; lra.
  - assert (H2 : 0 < 2 ^ n) by (apply pow_lt; lra).
    assert (Hq : (2 * s - ab) / 2 ^ Datatypes.S n
                 = (2 * s - (s + 1 / 2 * ab)) / 2 ^ n).
    { simpl pow. field. lra. }
    assert (Hx : 5e-14 <= Rabs (s + 1 / 2 * ab - ab)).
    { rewrite Rabs_pos_eq by lra.
      apply Rle_trans with ((2 * s - ab) / 2 ^ Datatypes.S n);
        [exact Htol|].
      rewrite Hq. unfold Rdiv.
      assert (/ 2 ^ n <= 1).
      { rewrite <- Rinv_1. apply Rinv_le_contravar; [lra|].
        rewrite <- (pow1 n). apply pow_incr. lra. }
      assert ((2 * s - (s + 1 / 2 * ab)) * / 2 ^ n
              <= (2 * s - (s + 1 / 2 * ab)) * 1).
      { apply Rmult_le_compat_l; lra. }
      lra. }
    rewrite Hxy.
    destruct (gebP (Rabs (s + 1 / 2 * ab - ab)) 5e-14) as [_|Hn];
      [|exfalso; apply Hn; lra].
    rewrite Hab'.
    destruct (IH (s + 1 / 2 * ab) ltac:(lra) ltac:(rewrite <- Hq; exact Htol))
      as [Hw' Hsig'].
    split; [exact Hw'|]. rewrite Hsig', Hq. reflexivity.
Qed.

(** The azimuth part of the general case leaves the distance alone. *)
Lemma azimuths_S (v : InInv.vars) (su1 cu1 su2 cu2 dlon : R) (A : PROJ_LINE) :
  LINE.S (InInv.azimuths v su1 cu1 su2 cu2 dlon A) = LINE.S A.
Proof.
  unfold InInv.azimuths. cbv zeta.
  repeat match goal with
  | |- context [if ?c then _ else _] => destruct c
  end; reflexivity.
Qed.

Lemma reduced_equator (f0 : R) : InInv.reduced f0 0 = 0.
Proof.
  unfold InInv.reduced. rewrite sin_0, cos_0.
  replace (f0 * 0 / 1) with 0 by field. exact atan_0.
Qed.

(** The inverse solver between two points of the equator 1/10 apart, on the
    ellipsoid of flattening 1/2: the eight passes that the cap allows
    leave a distance of 255/256 of 1/10. *)
Lemma proj_in_inv_equator (az12 az21 S : R) :
  exists A2 : PROJ_LINE,
    proj_in_inv (line_of (LPH.mk 0 0 0) az12 (LPH.mk (1 / 10) 0 0) az21 S
                   ellipsoid_half) = Ok A2 /\
    LINE.S A2 = 1 / 10 * (255 / 256).
Proof.
  pose proof PI_bounds as HP.
  assert (Hd : 1 / 10 - 0 = 1 / 10) by lra.
  pose proof (proj_in_inv_branches (LPH.mk 0 0 0) az12 (LPH.mk (1 / 10) 0 0)
                az21 S ellipsoid_half) as Hb.
  cbv zeta in Hb. cbn [LPH.lam LPH.phi] in Hb. rewrite Hd in Hb.
  rewrite Hb by (unfold InInv.TOL1; rewrite Rabs_pos_eq; lra). clear Hb.
  assert (Hsep : InInv.separation (InInv.wrap_dlon (1 / 10)) = 1 / 10).
  { unfold InInv.wrap_dlon, InInv.separation, M_PI, fabs.
    destruct (gebP (1 / 10) 0) as [_|H]; [|lra].
    destruct (lebP PI (1 / 10)) as [H|_]; [lra|]. cbn [andb].
    rewrite (Rabs_pos_eq (1 / 10)) by lra.
    destruct (gtbP (1 / 10) PI) as [H|_]; [lra|reflexivity]. }
  rewrite Hsep.
  destruct (gebP (1 / 10) (M_PI * (1 - ELLIPS.f ellipsoid_half))) as [H|_].
  { exfalso. unfold M_PI, ellipsoid_half in H. cbn [ELLIPS.f] in H. lra. }
  cbn [andb]. eexists. split; [reflexivity|].
  unfold InInv.general. cbv zeta. rewrite azimuths_S.
  cbn [LINE.S LINE.set_S LPH.lam LPH.phi].
  rewrite Hd, !reduced_equator, sin_0, cos_0.
  unfold ellipsoid_half. cbn [ELLIPS.f ELLIPS.a ELLIPS.es].
  destruct (equator_loop (1 / 10) 7 ltac:(lra) ltac:(lra) (1 / 10)
              ltac:(lra) ltac:(simpl pow; lra)) as [Hw Hsig].
  cbv zeta in Hw, Hsig.
  set (v := InInv.loop 7 (1 / 2) 0 1 0 1 (1 / 10) (1 / 10)) in *.
  rewrite Hw, Hsig. simpl pow. lra.
Qed.

Lemma in_fwd_reduced_equator (r : R) : InFwd.reduced r 0 = 0.
Proof. unfold InFwd.reduced. rewrite sin_0, cos_0. field. Qed.

Lemma expansion_x_0 (r : R) : InFwd.expansion_x r 0 = 0.
Proof.
  unfold InFwd.expansion_x. cbv zeta.
  replace ((1.0 / r / r - 1.0) * 0 + 1.0) with 1 by lra.
  rewrite sqrt_1. lra.
Qed.

Lemma expansion_d_0 : InFwd.expansion_d 0 = 0.
Proof. unfold InFwd.expansion_d. lra. Qed.

(** With [d = 0] the first pass already agrees with its start. *)
Lemma loop_without_correction (fuel : nat) (az21 tu : R) :
  InFwd.loop (Datatypes.S fuel) az21 0 tu tu = Ok (InFwd.body az21 0 tu tu) /\
  InFwd.y (InFwd.body az21 0 tu tu) = tu.
Proof.
  assert (Hy : InFwd.y (InFwd.body az21 0 tu tu) = tu).
  { unfold InFwd.body. cbn [InFwd.y]. lra. }
  split; [|exact Hy].
  unfold InFwd.loop. cbn [InFwd.iterate]. rewrite Hy.
  cbn [InFwd.c InFwd.body].
  destruct (gtbP (fabs (tu - tu)) InFwd.EPS) as [H|_]; [|reflexivity].
  exfalso. unfold fabs, InFwd.EPS in H. rewrite Rminus_diag, Rabs_R0 in H.
  lra.
Qed.

Lemma atan2_0_pos (x : R) : 0 < x -> atan2 0 x = 0.
Proof.
  intros H. unfold atan2. destruct (Rlt_dec 0 x) as [_|n]; [|contradiction].
  unfold Rdiv. rewrite Rmult_0_l. exact atan_0.
Qed.

Lemma atan2_pos_0 (y : R) : 0 < y -> atan2 y 0 = PI / 2.
Proof.
  intros H. unfold atan2.
  destruct (Rlt_dec 0 0) as [H0|_]; [lra|].
  destruct (Rlt_dec 0 y) as [_|n]; [reflexivity|contradiction].
Qed.

Lemma proj_in_fwd_equator :
  proj_in_fwd InFwd.passes equator_line
  = Ok (line_of (LPH.mk 0 0 0) (proj_adjlon (PI / 2)) (LPH.mk (1 / 10) 0 0)
          (proj_adjlon (PI / 2 + PI)) (1 / 10) ellipsoid_half).
Proof.
  pose proof PI_bounds as HP.
  unfold proj_in_fwd, equator_line, line_of, ellipsoid_half.
  cbn [bind deref LINE.E LINE.pt1 LPH.phi LPH.lam ELLIPS.f ELLIPS.a].
  cbv zeta.
  cbn [LINE.S LINE.set_az21 LINE.pt1 LINE.az12 LINE.pt2 LINE.E].
  rewrite in_fwd_reduced_equator, cos_PI2, sin_PI2.
  destruct (neqbP 0 0.0) as [H|_]; [exfalso; apply H; lra|].
  cbn [LINE.S LINE.set_az21 LINE.pt1 LINE.az12 LINE.pt2 LINE.E LINE.az21].
  assert (Hcu : 1.0 / sqrt (0 * 0 + 1.0) = 1).
  { replace (0 * 0 + 1.0) with 1 by lra. rewrite sqrt_1. lra. }
  rewrite !Hcu.
  assert (Hc2a : - (1 * 1) * (1 * 1) + 1.0 = 0) by lra.
  rewrite !Hc2a, !expansion_x_0, expansion_d_0.
  assert (Htu : 1 / 10 / 1 / (1.0 - 1 / 2) / ((0 * 0 / 4.0 + 1) / (1.0 - 0))
                = 2 / 10) by (decimals; field).
  rewrite !Htu.
  change InFwd.passes with (Datatypes.S 230).
  destruct (loop_without_correction 230 0.0 (2 / 10)) as [Hloop Hy].
  rewrite Hloop. cbn [bind]. rewrite Hy.
  cbn [InFwd.sy InFwd.cy InFwd.cz InFwd.e InFwd.body].
  set (t := 2 / 10).
  assert (Ht : 0 < t < PI) by (unfold t; lra).
  assert (Hphi : atan2 (0 * 1 * cos t + 1 * sin t * 0)
                   ((1.0 - 1 / 2) *
                    hypot (1 * 1) (1 * cos t * 0 - 0 * 1 * sin t)) = 0).
  { replace (0 * 1 * cos t + 1 * sin t * 0) with 0 by ring.
    apply atan2_0_pos. unfold hypot.
    replace (1 * 1 * (1 * 1) +
             (1 * cos t * 0 - 0 * 1 * sin t) * (1 * cos t * 0 - 0 * 1 * sin t))
      with 1 by ring.
    rewrite sqrt_1. lra. }
  assert (Hx : atan2 (sin t * 1) (1 * cos t - 0 * 1 * sin t * 0) = t).
  { replace (sin t * 1) with (sin t) by ring.
    replace (1 * cos t - 0 * 1 * sin t * 0) with (cos t) by ring.
    now apply atan2_sin_cos. }
  assert (Haz : atan2 (1 * 1) (1 * cos t * 0 - 0 * 1 * sin t) = PI / 2).
  { replace (1 * cos t * 0 - 0 * 1 * sin t) with 0 by ring.
    apply atan2_pos_0. lra. }
  rewrite Hphi, Hx.
  cbn [bind deref set_pt2_phi set_pt2_lam LINE.pt2 LINE.set_az21
       LINE.set_az12 LINE.store_pt2 LINE.with_phi LINE.with_lam LINE.az21
       LINE.az12 LINE.pt1 LINE.S LINE.E LPH.lam LPH.phi LPH.h].
  rewrite Haz. unfold M_PI. f_equal.
  match goal with
  | |- context [LINE.with_lam ?l _] =>
      replace l with (1 / 10) by (unfold t; lra)
  end.
  reflexivity.
Qed.

(** The direct solver along the equator of the ellipsoid of flattening 1/2
    reaches longitude 1/10 exactly; the inverse solver between the two
    points then returns 255/256 of the distance: its iteration is cut off
    by the cap of eight passes while each pass only halves the gap. *)
Lemma equator_round_trip :
  exists A1 A2 : PROJ_LINE,
    proj_in_fwd InFwd.passes equator_line = Ok A1 /\
    LINE.pt2 A1 = Some (LPH.mk (1 / 10) 0 0) /\
    proj_in_inv A1 = Ok A2 /\
    LINE.S A2 = LINE.S equator_line * (255 / 256) /\
    Rabs (LINE.S A2 - LINE.S equator_line) > 1e-9 * LINE.S equator_line.
Proof.
  destruct (proj_in_inv_equator (proj_adjlon (PI / 2))
              (proj_adjlon (PI / 2 + PI)) (1 / 10)) as (A2 & H2 & HS).
  eexists. exists A2.
  split; [exact proj_in_fwd_equator|]. split; [reflexivity|].
  split; [exact H2|].
  cbn [equator_line line_of LINE.S]. split; [rewrite HS; lra|].
  rewrite HS.
  replace (1 / 10 * (255 / 256) - 1 / 10) with (- (1 / 2560)) by lra.
  rewrite Rabs_Ropp, Rabs_pos_eq; lra.
Qed.

(* ================================================================== *)
(** * Angles: turns, [atan2] and the haversine *)
(* ================================================================== *)

Lemma proj_adjlon_turns (x : R) :
  exists k : Z, proj_adjlon x = x + IZR k * (2 * PI).
Proof.
  destruct (Rgt_dec (fabs (x * M_1_PI) - 1) (3 * DBL_EPSILON)) as [H|H].
  - apply proj_adjlon_reduced in H. destruct H as [H _].
    exists (- Zfloor (0.5 * (x * M_1_PI + 1.0)))%Z.
    rewrite H, opp_IZR. ring.
  - apply proj_adjlon_kept in H. destruct H as [H _].
    exists 0%Z. rewrite H. simpl. ring.
Qed.

Lemma sin_turns (x : R) (k : Z) : sin (x + IZR k * (2 * PI)) = sin x.
Proof.
  destruct (Z_le_gt_dec 0 k) as [Hk|Hk].
  - rewrite <- (Z2Nat.id k Hk), <- INR_IZR_INZ.
    replace (x + INR (Z.to_nat k) * (2 * PI))
      with (x + 2 * INR (Z.to_nat k) * PI) by ring.
    apply sin_period.
  - rewrite <- (sin_period (x + IZR k * (2 * PI)) (Z.to_nat (- k))).
    rewrite INR_IZR_INZ, Z2Nat.id, opp_IZR by (apply Z.opp_nonneg_nonpos, Z.lt_le_incl, Z.gt_lt, Hk).
    f_equal. ring.
Qed.

Lemma cos_turns (x : R) (k : Z) : cos (x + IZR k * (2 * PI)) = cos x.
Proof.
  destruct (Z_le_gt_dec 0 k) as [Hk|Hk].
  - rewrite <- (Z2Nat.id k Hk), <- INR_IZR_INZ.
    replace (x + INR (Z.to_nat k) * (2 * PI))
      with (x + 2 * INR (Z.to_nat k) * PI) by ring.
    apply cos_period.
  - rewrite <- (cos_period (x + IZR k * (2 * PI)) (Z.to_nat (- k))).
    rewrite INR_IZR_INZ, Z2Nat.id, opp_IZR by (apply Z.opp_nonneg_nonpos, Z.lt_le_incl, Z.gt_lt, Hk).
    f_equal. ring.
Qed.

Lemma sin_proj_adjlon (x : R) : sin (proj_adjlon x) = sin x.
Proof. destruct (proj_adjlon_turns x) as [k ->]. apply sin_turns. Qed.

Lemma cos_proj_adjlon (x : R) : cos (proj_adjlon x) = cos x.
Proof. destruct (proj_adjlon_turns x) as [k ->]. apply cos_turns. Qed.

(** An angle of [-PI, PI] is inside the band of the test. *)
Lemma adjlon_inside (x : R) :
  - PI <= x <= PI -> ~ fabs (x * M_1_PI) - 1 > 3 * DBL_EPSILON.
Proof.
  intros Hx. pose proof PI_bounds as HP. unfold fabs, M_1_PI, DBL_EPSILON.
  assert (Hinv : 0 < / PI) by (apply Rinv_0_lt_compat; lra).
  assert (Rabs (x * / PI) <= 1).
  { rewrite Rabs_mult, (Rabs_pos_eq (/ PI)) by lra.
    replace 1 with (PI * / PI) by (field; lra).
    apply Rmult_le_compat_r; [lra|]. apply Rabs_le. lra. }
  lra.
Qed.

Lemma proj_adjlon_idempotent_l (x : R) :
  proj_adjlon (adjlon x) = proj_adjlon x.
Proof.
  unfold adjlon.
  destruct (proj_adjlon_cases x) as [H|[H _]].
  - apply proj_adjlon_kept, adjlon_inside. lra.
  - now rewrite H.
Qed.

(** X1: [proj_adjlon] is idempotent: a longitude that it has returned is
    returned unchanged by a second call, whether the first call reduced
    it or left it as it was within the tolerance band of its test. *)
Theorem proj_adjlon_idempotent (x : R) :
  proj_adjlon (proj_adjlon x) = proj_adjlon x.
Proof.
  destruct (proj_adjlon_cases x) as [H|[H _]].
  - apply proj_adjlon_kept, adjlon_inside. lra.
  - now rewrite H.
Qed.

Lemma hypot_nonneg (x y : R) : 0 <= hypot x y.
Proof. apply sqrt_pos. Qed.

Lemma sum_sqr_nonneg (x y : R) : 0 <= x * x + y * y.
Proof. pose proof (Rle_0_sqr x). pose proof (Rle_0_sqr y). unfold Rsqr in *. lra. Qed.

Lemma hypot_sqr (x y : R) : hypot x y * hypot x y = x * x + y * y.
Proof. unfold hypot. apply sqrt_sqrt, sum_sqr_nonneg. Qed.

(** [hypot] of a positive multiple. *)
Lemma sqrt_1_sqr_pos (t : R) : 0 < sqrt (1 + t²).
Proof. apply sqrt_lt_R0. pose proof (Rle_0_sqr t). lra. Qed.

Lemma hypot_scale (x y : R) :
  x <> 0 -> hypot y x = Rabs x * sqrt (1 + (y / x)²).
Proof.
  intros Hx. unfold hypot.
  replace (y * y + x * x) with (x² * (1 + (y / x)²))
    by (unfold Rsqr; field; assumption).
  rewrite sqrt_mult_alt by apply Rle_0_sqr.
  now rewrite sqrt_Rsqr_abs.
Qed.

(** The point (x, y) in polar form: its distance from the origin is
    [hypot y x] and its angle is [atan2 y x]. *)
Lemma atan2_polar (y x : R) :
  hypot y x * cos (atan2 y x) = x /\ hypot y x * sin (atan2 y x) = y.
Proof.
  unfold atan2.
  destruct (Rlt_dec 0 x) as [Hx|Hx].
  { rewrite hypot_scale, cos_atan, sin_atan, Rabs_pos_eq by lra.
    pose proof (sqrt_1_sqr_pos (y / x)).
    split; field; lra. }
  destruct (Rlt_dec x 0) as [Hx'|Hx'].
  { rewrite hypot_scale, Rabs_left by lra.
    pose proof (sqrt_1_sqr_pos (y / x)).
    destruct (Rle_dec 0 y).
    - rewrite neg_cos, neg_sin, cos_atan, sin_atan. split; field; lra.
    - unfold Rminus. rewrite cos_plus, sin_plus, cos_neg, sin_neg, cos_PI, sin_PI,
        cos_atan, sin_atan. split; field; lra. }
  assert (x = 0) by lra. subst x. unfold hypot.
  replace (y * y + 0 * 0) with (y * y) by ring.
  destruct (Rlt_dec 0 y) as [Hy|Hy].
  { rewrite sqrt_square, cos_PI2, sin_PI2 by lra. lra. }
  destruct (Rlt_dec y 0) as [Hy'|Hy'].
  { replace (y * y) with ((- y) * (- y)) by ring.
    rewrite sqrt_square, cos_neg, sin_neg, cos_PI2, sin_PI2 by lra. lra. }
  assert (y = 0) by lra. subst y.
  rewrite Rmult_0_l, sqrt_0, cos_0, sin_0. lra.
Qed.

(** Scaling both coordinates by a positive factor keeps the angle. *)
Lemma atan2_scale (k y x : R) : 0 < k -> atan2 (k * y) (k * x) = atan2 y x.
Proof.
  intros Hk. unfold atan2.
  assert (Hq : x <> 0 -> k * y / (k * x) = y / x) by (intros; field; lra).
  destruct (Rlt_dec 0 x) as [Hx|Hx].
  { destruct (Rlt_dec 0 (k * x)) as [_|n].
    - now rewrite Hq by lra.
    - exfalso. apply n. now apply Rmult_lt_0_compat. }
  destruct (Rlt_dec 0 (k * x)) as [Hkx|_].
  { exfalso. apply Hx. replace x with (/ k * (k * x)) by (field; lra).
    apply Rmult_lt_0_compat; [now apply Rinv_0_lt_compat | assumption]. }
  destruct (Rlt_dec x 0) as [Hx'|Hx'].
  { destruct (Rlt_dec (k * x) 0) as [_|n].
    2:{ exfalso. apply n. replace 0 with (k * 0) by ring.
        now apply Rmult_lt_compat_l. }
    rewrite Hq by lra.
    destruct (Rle_dec 0 y) as [Hy|Hy]; destruct (Rle_dec 0 (k * y)) as [Hky|Hky];
      try reflexivity.
    - exfalso. apply Hky. apply Rmult_le_pos; lra.
    - exfalso. apply Hy. replace y with (/ k * (k * y)) by (field; lra).
      apply Rmult_le_pos; [left; now apply Rinv_0_lt_compat | assumption]. }
  assert (x = 0) by lra. subst x.
  destruct (Rlt_dec (k * 0) 0) as [H0|_]; [rewrite Rmult_0_r in H0; lra|].
  destruct (Rlt_dec 0 y) as [Hy|Hy].
  { destruct (Rlt_dec 0 (k * y)) as [_|n]; [reflexivity|].
    exfalso. apply n. now apply Rmult_lt_0_compat. }
  destruct (Rlt_dec 0 (k * y)) as [Hky|_].
  { exfalso. apply Hy. replace y with (/ k * (k * y)) by (field; lra).
    apply Rmult_lt_0_compat; [now apply Rinv_0_lt_compat | assumption]. }
  destruct (Rlt_dec y 0) as [Hy'|Hy'].
  { destruct (Rlt_dec (k * y) 0) as [_|n]; [reflexivity|].
    exfalso. apply n. replace 0 with (k * 0) by ring.
    now apply Rmult_lt_compat_l. }
  assert (y = 0) by lra. subst y.
  destruct (Rlt_dec (k * 0) 0) as [H0|_]; [rewrite Rmult_0_r in H0; lra|].
  reflexivity.
Qed.

(** The angle of a point of the unit circle is the point's argument, up
    to whole turns. *)
Lemma atan2_unit (s c : R) :
  s * s + c * c = 1 -> sin (atan2 s c) = s /\ cos (atan2 s c) = c.
Proof.
  intros H. destruct (atan2_polar s c) as [Hc Hs].
  unfold hypot in *. rewrite H, sqrt_1 in *. lra.
Qed.

(* ================================================================== *)
(** * The spherical solvers *)
(* ================================================================== *)

(** The haversine of the angular distance, as [proj_sp_inv] and the
    Thomas solvers form it, against the spherical law of cosines. *)
Lemma sin_half_sqr (x : R) : sin (0.5 * x) * sin (0.5 * x) = (1 - cos x) / 2.
Proof.
  replace (cos x) with (cos (2 * (0.5 * x))) by (f_equal; lra).
  rewrite cos_2a_sin. lra.
Qed.

Lemma haversine (p0 p1 dl : R) :
  1 - 2 * (sin (0.5 * (p1 - p0)) * sin (0.5 * (p1 - p0)) +
           cos p0 * cos p1 * sin (0.5 * dl) * sin (0.5 * dl))
  = sin p0 * sin p1 + cos p0 * cos p1 * cos dl.
Proof.
  rewrite Rmult_assoc with (r3 := sin (0.5 * dl)).
  rewrite !sin_half_sqr, cos_minus. lra.
Qed.

Lemma law_of_cosines_range (p0 p1 dl : R) :
  -1 <= sin p0 * sin p1 + cos p0 * cos p1 * cos dl <= 1.
Proof.
  pose proof (COS_bound (p1 - p0)) as HA.
  pose proof (COS_bound (p1 + p0)) as HB.
  pose proof (COS_bound dl) as HC.
  rewrite cos_minus in HA. rewrite cos_plus in HB.
  set (cc := cos p0 * cos p1) in *. set (ss := sin p0 * sin p1) in *.
  replace (cos p1 * cos p0) with cc in * by (unfold cc; ring).
  replace (sin p1 * sin p0) with ss in * by (unfold ss; ring).
  set (t := (1 + cos dl) / 2).
  assert (Ht : 0 <= t <= 1) by (unfold t; lra).
  assert (H1 : 0 <= t * (1 - (cc + ss))) by (apply Rmult_le_pos; lra).
  assert (H2 : 0 <= (1 - t) * (1 + (cc - ss))) by (apply Rmult_le_pos; lra).
  assert (H3 : 0 <= t * ((cc + ss) + 1)) by (apply Rmult_le_pos; lra).
  assert (H4 : 0 <= (1 - t) * (1 - (cc - ss))) by (apply Rmult_le_pos; lra).
  unfold t in *. lra.
Qed.

Lemma haversine_range (p0 p1 dl : R) :
  0 <= sin (0.5 * (p1 - p0)) * sin (0.5 * (p1 - p0)) +
       cos p0 * cos p1 * sin (0.5 * dl) * sin (0.5 * dl) <= 1.
Proof.
  pose proof (haversine p0 p1 dl). pose proof (law_of_cosines_range p0 p1 dl).
  lra.
Qed.

Lemma asin_nonneg (x : R) : 0 <= x <= 1 -> 0 <= asin x.
Proof.
  intros Hx. pose proof (asin_bound x) as Hb. pose proof PI_bounds as HP.
  destruct (Rle_dec 0 (asin x)) as [H|H]; [assumption|].
  exfalso. assert (Hs : sin (asin x) < 0) by (apply sin_lt_0_var; lra).
  rewrite sin_asin in Hs by lra. lra.
Qed.

(** Twice the arc sine of the root of a haversine [h]: an angle of
    [0, PI] whose cosine is [1 - 2 h]. *)
Lemma double_asin_sqrt (h : R) :
  0 <= h <= 1 ->
  0 <= 2 * asin (sqrt h) <= PI /\ cos (2 * asin (sqrt h)) = 1 - 2 * h.
Proof.
  intros Hh.
  assert (Hs : 0 <= sqrt h <= 1).
  { split; [apply sqrt_pos|]. rewrite <- sqrt_1. apply sqrt_le_1_alt. lra. }
  pose proof (asin_bound (sqrt h)). pose proof (asin_nonneg _ Hs).
  split; [lra|].
  rewrite cos_2a_sin, sin_asin by lra.
  rewrite Rmult_assoc, sqrt_sqrt by lra. reflexivity.
Qed.

(** What [proj_sp_inv] stores, field by field. *)
Lemma proj_sp_inv_stores (p1 : PROJ_PT_LPH) (az12 : R) (p2 : PROJ_PT_LPH)
  (az21 S : R) (E : PROJ_ELLIPS) :
  let dlam := LPH.lam p2 - LPH.lam p1 in
  let c1 := cos (LPH.phi p2) in
  let c0 := cos (LPH.phi p1) in
  let s1 := sin (LPH.phi p2) in
  let s0 := sin (LPH.phi p1) in
  let t12 := atan2 (c1 * sin dlam) (c0 * s1 - s0 * c1 * cos dlam) in
  let t21 := - atan2 (c0 * sin dlam) (c1 * s0 - s1 * c0 * cos dlam) in
  proj_sp_inv (line_of p1 az12 p2 az21 S E)
  = Ok (line_of p1
          (proj_adjlon (if t12 <? 0 then t12 + 2 * M_PI else t12)) p2
          (proj_adjlon (if t21 <? 0 then t21 + 2 * M_PI else t21))
          (2 * ELLIPS.a E *
           asin (sqrt (sin (0.5 * (LPH.phi p2 - LPH.phi p1)) *
                       sin (0.5 * (LPH.phi p2 - LPH.phi p1)) +
                       c0 * c1 * sin (0.5 * dlam) * sin (0.5 * dlam))))
          E).
Proof.
  intros dlam c1 c0 s1 s0 t12 t21.
  unfold proj_sp_inv, line_of.
  cbn [bind deref LINE.E LINE.pt1 LINE.pt2 LINE.S LINE.az12 LINE.az21
       LINE.set_az12 LINE.set_az21 LINE.set_S].
  cbv zeta. fold dlam c1 c0 s1 s0. fold t12. fold t21.
  destruct (t12 <? 0); destruct (t21 <? 0);
    cbn [LINE.E LINE.pt1 LINE.pt2 LINE.S LINE.az12 LINE.az21
         LINE.set_az12 LINE.set_az21 LINE.set_S]; reflexivity.
Qed.

(** X2: on a line whose three pointers are set, [proj_sp_inv] returns and
    writes as distance the radius [a] times a central angle [d] with
    [0 <= d <= PI] whose cosine is that of the spherical law of cosines
    for the two points: the haversine form of the code and the law of
    cosines give the same arc. *)
Theorem proj_sp_inv_law_of_cosines (p1 : PROJ_PT_LPH) (az12 : R)
  (p2 : PROJ_PT_LPH) (az21 S : R) (E : PROJ_ELLIPS) :
  exists (A' : PROJ_LINE) (d : R),
    proj_sp_inv (line_of p1 az12 p2 az21 S E) = Ok A' /\
    LINE.S A' = ELLIPS.a E * d /\
    0 <= d <= PI /\
    cos d = sin (LPH.phi p1) * sin (LPH.phi p2) +
            cos (LPH.phi p1) * cos (LPH.phi p2) *
            cos (LPH.lam p2 - LPH.lam p1).
Proof.
  pose proof (proj_sp_inv_stores p1 az12 p2 az21 S E) as H. cbv zeta in H.
  eexists. eexists. split; [exact H|].
  cbn [line_of LINE.S].
  pose proof (haversine_range (LPH.phi p1) (LPH.phi p2)
                (LPH.lam p2 - LPH.lam p1)) as Hr.
  destruct (double_asin_sqrt _ Hr) as [Hd Hc].
  split; [|split].
  - rewrite Rmult_comm with (r1 := 2). rewrite Rmult_assoc. reflexivity.
  - exact Hd.
  - rewrite Hc. apply haversine.
Qed.

(** What [proj_sp_fwd] stores, field by field. *)
Lemma proj_sp_fwd_stores (p1 : PROJ_PT_LPH) (az12 : R) (p2 : PROJ_PT_LPH)
  (az21 S : R) (E : PROJ_ELLIPS) :
  let cc := cos (S / ELLIPS.a E) in
  let sc := sin (S / ELLIPS.a E) in
  let cp := cos (LPH.phi p1) in
  let sp := sin (LPH.phi p1) in
  let ca := cos az12 in
  let phi2 := asin (sp * cc + cp * sc * ca) in
  let lam2 := LPH.lam p1 + atan2 (sc * sin az12) (cp * cc - sp * sc * ca) in
  let dl := LPH.lam p1 - lam2 in
  proj_sp_fwd (line_of p1 az12 p2 az21 S E)
  = Ok (line_of p1 az12
          (LPH.mk (if fabs lam2 >? M_PI
                   then lam2 - copysign (2 * M_PI) lam2 else lam2)
                  phi2 (LPH.h p2))
          (atan2 (cp * sin dl) (cos phi2 * sp - sin phi2 * cp * cos dl))
          S E).
Proof.
  intros cc sc cp sp ca phi2 lam2 dl.
  unfold proj_sp_fwd, line_of.
  cbn [bind deref set_pt2_phi set_pt2_lam LINE.E LINE.pt1 LINE.pt2 LINE.S
       LINE.az12 LINE.az21 LINE.set_az21 LINE.store_pt2 LINE.with_phi
       LINE.with_lam LPH.lam LPH.phi LPH.h].
  cbv zeta. fold cc sc cp sp ca. fold phi2. fold lam2. fold dl.
  destruct (fabs lam2 >? M_PI);
    cbn [bind deref set_pt2_lam LINE.pt2 LINE.store_pt2 LINE.with_lam
         LINE.pt1 LINE.az12 LINE.az21 LINE.S LINE.E LPH.lam LPH.phi LPH.h];
    reflexivity.
Qed.

(** The endpoint of the spherical direct problem on the unit sphere:
    [z] is the sine of its latitude, ([X], [y]) its longitude offset
    scaled by the cosine of the latitude. *)
Lemma sphere_endpoint (sp cp sc cc sa ca : R) :
  sp * sp + cp * cp = 1 -> sc * sc + cc * cc = 1 -> sa * sa + ca * ca = 1 ->
  let z := sp * cc + cp * sc * ca in
  let y := sc * sa in
  let X := cp * cc - sp * sc * ca in
  z * z + (y * y + X * X) = 1.
Proof.
  intros Hp Hs Ha z y X. unfold z, y, X.
  replace ((sp * cc + cp * sc * ca) * (sp * cc + cp * sc * ca) +
           (sc * sa * (sc * sa) +
            (cp * cc - sp * sc * ca) * (cp * cc - sp * sc * ca)))
    with ((sp * sp + cp * cp) * (cc * cc) +
          sc * sc * ((sp * sp + cp * cp) * (ca * ca) + sa * sa)) by ring.
  rewrite Hp. replace (1 * (ca * ca) + sa * sa) with (sa * sa + ca * ca) by ring.
  rewrite Ha. lra.
Qed.

Lemma sin_cos_sqr (x : R) : sin x * sin x + cos x * cos x = 1.
Proof. pose proof (sin2_cos2 x) as H. unfold Rsqr in H. exact H. Qed.

Lemma sqr_le_1 (z : R) : z * z <= 1 -> -1 <= z <= 1.
Proof.
  intros H. split.
  - destruct (Rle_dec (-1) z); [assumption|].
    assert (0 <= (- z - 1) * (- z + 1)) by (apply Rmult_le_pos; lra).
    assert (0 < - z - 1) by lra. 
    assert (0 < (- z - 1) * 2) by lra.
    assert ((-z - 1) * 2 <= (- z - 1) * (- z + 1))
      by (apply Rmult_le_compat_l; lra).
    lra.
  - destruct (Rle_dec z 1); [assumption|].
    assert (0 < z - 1) by lra.
    assert ((z - 1) * 2 <= (z - 1) * (z + 1)) by (apply Rmult_le_compat_l; lra).
    lra.
Qed.

(** The longitude shift of [proj_sp_fwd] moves the longitude by a whole
    number of turns (0, 1 or -1). *)
Lemma sp_fwd_shift_turns (lam2 : R) :
  exists k : Z,
    (if fabs lam2 >? M_PI then lam2 - copysign (2 * M_PI) lam2 else lam2)
    = lam2 + IZR k * (2 * PI).
Proof.
  pose proof PI_bounds as HP.
  destruct (fabs lam2 >? M_PI).
  - unfold copysign, M_PI. rewrite (Rabs_pos_eq (2 * PI)) by lra.
    destruct (Rle_dec 0 lam2).
    + exists (-1)%Z. lra.
    + exists 1%Z. lra.
  - exists 0%Z. lra.
Qed.

(** X3: on a sphere of positive radius, for a distance [S] of at most half
    the circumference ([0 <= S <= PI * a]), [proj_sp_inv] applied to the
    line that [proj_sp_fwd] has completed recovers [S]; for
    [0 < S < PI * a] the forward azimuth it writes has the sine and the
    cosine of the azimuth given, that is, the same direction. *)
Theorem sphere_round_trip (p1 : PROJ_PT_LPH) (az12 : R) (p2 : PROJ_PT_LPH)
  (az21 S : R) (E : PROJ_ELLIPS) :
  0 < ELLIPS.a E -> 0 <= S <= PI * ELLIPS.a E ->
  exists A1 A2 : PROJ_LINE,
    proj_sp_fwd (line_of p1 az12 p2 az21 S E) = Ok A1 /\
    proj_sp_inv A1 = Ok A2 /\
    LINE.S A2 = S /\
    (0 < S < PI * ELLIPS.a E ->
     sin (LINE.az12 A2) = sin az12 /\ cos (LINE.az12 A2) = cos az12).
Proof.
  intros Ha HS.
  pose proof (proj_sp_fwd_stores p1 az12 p2 az21 S E) as Hf. cbv zeta in Hf.
  set (cc := cos (S / ELLIPS.a E)) in *.
  set (sc := sin (S / ELLIPS.a E)) in *.
  set (cp := cos (LPH.phi p1)) in *.
  set (sp := sin (LPH.phi p1)) in *.
  set (ca := cos az12) in *. set (sa := sin az12) in *.
  set (z := sp * cc + cp * sc * ca) in *.
  set (y := sc * sa) in *.
  set (X := cp * cc - sp * sc * ca) in *.
  set (lam2 := LPH.lam p1 + atan2 y X) in *.
  destruct (sp_fwd_shift_turns lam2) as [k Hk].
  set (lam2' := if fabs lam2 >? M_PI
                then lam2 - copysign (2 * M_PI) lam2 else lam2) in *.
  match type of Hf with
  | _ = Ok (line_of _ _ ?q ?b _ _) => set (q2 := q) in *; set (az21' := b) in *
  end.
  pose proof (proj_sp_inv_stores p1 az12 q2 az21' S E) as Hi. cbv zeta in Hi.
  exists (line_of p1 az12 q2 az21' S E). eexists.
  split; [exact Hf|]. split; [exact Hi|].
  cbn [line_of LINE.S LINE.az12].
  unfold q2. cbn [LPH.phi LPH.lam].
  (* the endpoint *)
  pose proof (sphere_endpoint sp cp sc cc sa ca
                (sin_cos_sqr _) (sin_cos_sqr _) (sin_cos_sqr _)) as Hend.
  cbv zeta in Hend. fold z y X in Hend.
  assert (Hz : -1 <= z <= 1).
  { apply sqr_le_1. pose proof (sum_sqr_nonneg y X). lra. }
  assert (Hsin2 : sin (asin z) = z) by now apply sin_asin.
  assert (Hcos2 : cos (asin z) = hypot y X).
  { rewrite cos_asin by assumption. unfold hypot, Rsqr. f_equal. lra. }
  assert (Hdl : lam2' - LPH.lam p1 = atan2 y X + IZR k * (2 * PI)).
  { rewrite Hk. unfold lam2. ring. }
  destruct (atan2_polar y X) as [HpX Hpy].
  rewrite Hdl.
  split.
  - (* the distance *)
    match goal with
    | |- 2 * _ * asin (sqrt ?e) = _ => set (h := e)
    end.
    assert (Hr : 0 <= h <= 1) by apply haversine_range.
    destruct (double_asin_sqrt h Hr) as [Hd Hc].
    assert (Hh : 1 - 2 * h = cc).
    { unfold h. rewrite haversine. fold sp cp.
      rewrite Hsin2, Hcos2, cos_turns.
      replace (cp * hypot y X * cos (atan2 y X)) with (cp * X)
        by (rewrite <- HpX at 1; ring).
      unfold z, X.
      replace (sp * (sp * cc + cp * sc * ca) + cp * (cp * cc - sp * sc * ca))
        with ((sp * sp + cp * cp) * cc) by ring.
      unfold sp, cp. rewrite sin_cos_sqr. ring. }
    rewrite Hh in Hc. unfold cc in Hc.
    assert (Hrange : 0 <= S / ELLIPS.a E <= PI).
    { split.
      - apply Rmult_le_pos; [lra|]. left. now apply Rinv_0_lt_compat.
      - apply Rmult_le_reg_r with (r := ELLIPS.a E); [assumption|].
        replace (S / ELLIPS.a E * ELLIPS.a E) with S by (field; lra). lra. }
    apply cos_inj in Hc; [|assumption|assumption].
    replace (2 * ELLIPS.a E * asin (sqrt h))
      with (ELLIPS.a E * (2 * asin (sqrt h))) by ring.
    rewrite Hc. field. lra.
  - (* the forward azimuth *)
    intros HS'.
    assert (Hsc : 0 < sc).
    { unfold sc. apply sin_gt_0.
      - apply Rmult_lt_0_compat; [lra|]. now apply Rinv_0_lt_compat.
      - apply Rmult_lt_reg_r with (r := ELLIPS.a E); [assumption|].
        replace (S / ELLIPS.a E * ELLIPS.a E) with S by (field; lra). lra. }
    fold cp sp. rewrite Hsin2, Hcos2, sin_turns, cos_turns, Hpy.
    replace (cp * z - sp * hypot y X * cos (atan2 y X)) with (sc * ca).
    2:{ replace (sp * hypot y X * cos (atan2 y X)) with (sp * X)
          by (rewrite <- HpX at 1; ring).
        unfold z, X.
        replace (cp * (sp * cc + cp * sc * ca) - sp * (cp * cc - sp * sc * ca))
          with ((sp * sp + cp * cp) * (sc * ca)) by ring.
        unfold sp, cp. rewrite sin_cos_sqr. ring. }
    unfold y. rewrite atan2_scale by assumption.
    destruct (atan2_unit sa ca (sin_cos_sqr az12)) as [Hs1 Hc1].
    rewrite sin_proj_adjlon, cos_proj_adjlon.
    destruct (atan2 sa ca <? 0).
    + unfold M_PI.
      replace (atan2 sa ca + 2 * PI) with (atan2 sa ca + IZR 1 * (2 * PI)) by ring.
      rewrite sin_turns, cos_turns. now split.
    + now split.
Qed.

(** X3, an instance: the unit sphere, from the origin due north over a
    distance of 1. *)
Lemma sphere_round_trip_unit :
  exists A1 A2 : PROJ_LINE,
    proj_sp_fwd sphere_line = Ok A1 /\
    proj_sp_inv A1 = Ok A2 /\
    LINE.S A2 = 1 /\
    sin (LINE.az12 A2) = sin 0 /\ cos (LINE.az12 A2) = cos 0.
Proof.
  assert (Ha : 0 < ELLIPS.a unit_sphere)
    by (unfold unit_sphere; cbn [ELLIPS.a]; lra).
  assert (HS : 0 < 1 < PI * ELLIPS.a unit_sphere)
    by (unfold unit_sphere; cbn [ELLIPS.a]; pose proof PI_bounds; lra).
  destruct (sphere_round_trip (LPH.mk 0 0 0) 0 (LPH.mk 0 0 0) 0 1 unit_sphere
              Ha (conj (Rlt_le _ _ (proj1 HS)) (Rlt_le _ _ (proj2 HS))))
    as (A1 & A2 & Hf & Hi & Hd & Haz).
  exists A1, A2. repeat split; try assumption; now apply Haz.
Defined.

Lemma atan2_opp (y x : R) : y <> 0 -> atan2 (- y) x = - atan2 y x.
Proof.
  intros Hy. unfold atan2.
  assert (Hq : - y / x = - (y / x)) by (unfold Rdiv; ring).
  destruct (Rlt_dec 0 x) as [Hx|Hx].
  { now rewrite Hq, atan_opp. }
  destruct (Rlt_dec x 0) as [Hx'|Hx'].
  { rewrite Hq, atan_opp.
    destruct (Rle_dec 0 y); destruct (Rle_dec 0 (- y)); lra. }
  destruct (Rlt_dec 0 y); destruct (Rlt_dec 0 (- y));
    destruct (Rlt_dec y 0); destruct (Rlt_dec (- y) 0); lra.
Qed.

(** X4: [proj_sp_inv] with the two points exchanged writes the same
    distance; when the points differ in longitude by no multiple of PI
    and neither is a pole ([cos phi <> 0]), it exchanges the two azimuths
    as well. *)
Theorem proj_sp_inv_swap (p1 p2 : PROJ_PT_LPH) (az12 az21 S : R)
  (bz12 bz21 T : R) (E : PROJ_ELLIPS) :
  exists A' B' : PROJ_LINE,
    proj_sp_inv (line_of p1 az12 p2 az21 S E) = Ok A' /\
    proj_sp_inv (line_of p2 bz12 p1 bz21 T E) = Ok B' /\
    LINE.S B' = LINE.S A' /\
    (sin (LPH.lam p2 - LPH.lam p1) <> 0 ->
     cos (LPH.phi p1) <> 0 -> cos (LPH.phi p2) <> 0 ->
     LINE.az12 B' = LINE.az21 A' /\ LINE.az21 B' = LINE.az12 A').
Proof.
  pose proof (proj_sp_inv_stores p1 az12 p2 az21 S E) as HA.
  pose proof (proj_sp_inv_stores p2 bz12 p1 bz21 T E) as HB.
  cbv zeta in HA, HB.
  eexists. eexists. split; [exact HA|]. split; [exact HB|].
  cbn [line_of LINE.S LINE.az12 LINE.az21].
  set (dlam := LPH.lam p2 - LPH.lam p1).
  replace (LPH.lam p1 - LPH.lam p2) with (- dlam) by (unfold dlam; ring).
  replace (LPH.phi p1 - LPH.phi p2) with (- (LPH.phi p2 - LPH.phi p1)) by ring.
  replace (0.5 * - dlam) with (- (0.5 * dlam)) by ring.
  replace (0.5 * - (LPH.phi p2 - LPH.phi p1))
    with (- (0.5 * (LPH.phi p2 - LPH.phi p1))) by ring.
  rewrite !sin_neg, cos_neg.
  split.
  - do 3 f_equal. ring.
  - intros Hs H1 H2.
    assert (Hy1 : cos (LPH.phi p1) * sin dlam <> 0)
      by (apply Rmult_integral_contrapositive_currified; assumption).
    assert (Hy2 : cos (LPH.phi p2) * sin dlam <> 0)
      by (apply Rmult_integral_contrapositive_currified; assumption).
    replace (cos (LPH.phi p1) * - sin dlam)
      with (- (cos (LPH.phi p1) * sin dlam)) by ring.
    replace (cos (LPH.phi p2) * - sin dlam)
      with (- (cos (LPH.phi p2) * sin dlam)) by ring.
    rewrite !atan2_opp by assumption. rewrite Ropp_involutive.
    split; reflexivity.
Qed.

(** X4, an instance: the unit sphere, the origin and the point of the
    equator at longitude 1. *)
Lemma proj_sp_inv_swap_east :
  exists A' B' : PROJ_LINE,
    proj_sp_inv (line_of (LPH.mk 0 0 0) 0 (LPH.mk 1 0 0) 0 0 unit_sphere)
    = Ok A' /\
    proj_sp_inv (line_of (LPH.mk 1 0 0) 0 (LPH.mk 0 0 0) 0 0 unit_sphere)
    = Ok B' /\
    LINE.S B' = LINE.S A' /\
    LINE.az12 B' = LINE.az21 A' /\ LINE.az21 B' = LINE.az12 A'.
Proof.
  destruct (proj_sp_inv_swap (LPH.mk 0 0 0) (LPH.mk 1 0 0) 0 0 0 0 0 0
              unit_sphere) as (A' & B' & HA & HB & HS & Haz).
  exists A', B'. split; [exact HA|]. split; [exact HB|]. split; [exact HS|].
  pose proof PI_bounds as HP.
  apply Haz; cbn [LPH.lam LPH.phi].
  - apply Rgt_not_eq, sin_gt_0; lra.
  - rewrite cos_0. lra.
  - rewrite cos_0. lra.
Defined.

(* ================================================================== *)
(** * The inverse of Thomas in [geod_inv] and in [proj_pt_inv] *)
(* ================================================================== *)

(** X5: on an ellipsoid ([ELLIPSE] not 0), with the constants of the
    structure derived from the flattening as [GEOD_init] does
    ([ONEF = 1 - FLAT], [FLAT2 = FLAT / 2], [FLAT4 = FLAT / 4],
    [FLAT64 = FLAT * FLAT / 64]), [geod_inv] writes the two azimuths that
    [proj_pt_inv] writes for the same points and flattening, and as
    distance [A] times the distance of [proj_pt_inv]: [proj_pt_inv] does
    not scale by the semi-major axis. *)
Theorem geod_inv_agrees_with_proj_pt_inv (G : GEODESIC_T)
  (p1 p2 : PROJ_PT_LPH) (az12 az21 S : R) (E : PROJ_ELLIPS) :
  truth (GEOD.ELLIPSE G) = true ->
  GEOD.FLAT G = ELLIPS.f E ->
  GEOD.ONEF G = 1 - GEOD.FLAT G ->
  GEOD.FLAT2 G = GEOD.FLAT G / 2 ->
  GEOD.FLAT4 G = GEOD.FLAT G / 4 ->
  GEOD.FLAT64 G = GEOD.FLAT G * GEOD.FLAT G / 64 ->
  GEOD.p1 G = UV.mk (LPH.phi p1) (LPH.lam p1) ->
  GEOD.p2 G = UV.mk (LPH.phi p2) (LPH.lam p2) ->
  exists Arc' : PROJ_LINE,
    proj_pt_inv (line_of p1 az12 p2 az21 S E) = Ok Arc' /\
    GEOD.ALPHA12 (snd (geod_inv G)) = LINE.az12 Arc' /\
    GEOD.ALPHA21 (snd (geod_inv G)) = LINE.az21 Arc' /\
    GEOD.DIST (snd (geod_inv G)) = GEOD.A G * LINE.S Arc'.
Proof.
  intros He Hf H1 H2 H4 H64 Hp1 Hp2.
  unfold proj_pt_inv, geod_inv, line_of, adjlon, PtInv.reduced, TWOPI,
    PtInv.DTOL, DTOL.
  cbn [bind deref LINE.E LINE.pt1 LINE.pt2].
  rewrite He, Hp1, Hp2, H1, H2, H4, H64, Hf. cbn [UV.u UV.v].
  cbv zeta.
  set (f := ELLIPS.f E).
  replace (0.5 * (0.5 * f)) with (f / 4) by lra.
  replace (0.5 * f) with (f / 2) by lra.
  replace (0.25 * (f / 4) * (f / 4)) with (f * f / 64) by lra.
  match goal with
  | |- context [if ?b then _ else _] => destruct b
  end.
  - eexists. split; [reflexivity|].
    cbn [snd GEOD.set_inverse GEOD.ALPHA12 GEOD.ALPHA21 GEOD.DIST
         LINE.set_az12 LINE.set_az21 LINE.set_S LINE.az12 LINE.az21 LINE.S].
    repeat split; lra.
  - eexists. split; [reflexivity|].
    cbn [snd GEOD.set_inverse GEOD.ALPHA12 GEOD.ALPHA21 GEOD.DIST
         LINE.set_az12 LINE.set_az21 LINE.set_S LINE.az12 LINE.az21 LINE.S].
    unfold M_PI. repeat split; try reflexivity. apply Rmult_assoc.
Qed.

(** X5, an instance: flattening 1/2, the origin and the point of the
    equator at longitude 1. *)
Lemma geod_inv_agrees_with_proj_pt_inv_east :
  exists Arc' : PROJ_LINE,
    proj_pt_inv (line_of (LPH.mk 0 0 0) 0 (LPH.mk 1 0 0) 0 0 ellipsoid_half)
    = Ok Arc' /\
    GEOD.ALPHA12 (snd (geod_inv (GEOD.set_p2 (UV.mk 0 1) (geodesic_half 0 0))))
    = LINE.az12 Arc' /\
    GEOD.ALPHA21 (snd (geod_inv (GEOD.set_p2 (UV.mk 0 1) (geodesic_half 0 0))))
    = LINE.az21 Arc' /\
    GEOD.DIST (snd (geod_inv (GEOD.set_p2 (UV.mk 0 1) (geodesic_half 0 0))))
    = GEOD.A (GEOD.set_p2 (UV.mk 0 1) (geodesic_half 0 0)) * LINE.S Arc'.
Proof.
  apply (geod_inv_agrees_with_proj_pt_inv
           (GEOD.set_p2 (UV.mk 0 1) (geodesic_half 0 0))
           (LPH.mk 0 0 0) (LPH.mk 1 0 0) 0 0 0 ellipsoid_half);
    reflexivity.
Defined.

(* ================================================================== *)
(** * The inverse projection entry *)
(* ================================================================== *)

Lemma truth_true (i : Z) : truth i = true -> i <> 0%Z.
Proof.
  unfold truth. destruct (Z.eqb_spec i 0); [discriminate | trivial].
Qed.

Lemma truth_false (i : Z) : truth i = false -> i = 0%Z.
Proof.
  unfold truth. destruct (Z.eqb_spec i 0); [trivial | discriminate].
Qed.

(** X6: what [proj_inv] returns depends on neither the error numbers at
    entry nor the test of its argument against [HUGE_VAL]: both error
    numbers are cleared before the projection is called with the
    descaled coordinate.  [proj_errno] is not 0 at exit exactly when the
    projection has set [proj_errno] or [errno]; the coordinate returned
    is then ([HUGE_VAL], [HUGE_VAL]).  Otherwise the latitude is that of
    the projection, and the longitude is that of the projection plus
    [netlam0], reduced by [proj_adjlon] unless [over] is set. *)
Theorem proj_inv_errors (HUGE_VAL : R) (xy : PROJ_XY) (P : PROJ)
  (e : Errs.t) :
  let r := proj_inv HUGE_VAL xy P e in
  let r0 := PROJ.inv P
              (XY.mk ((XY.x xy * PROJ.to_meter P - PROJ.x0 P) * PROJ.ra P)
                     ((XY.y xy * PROJ.to_meter P - PROJ.y0 P) * PROJ.ra P))
              (Errs.mk 0 0) in
  (Errs.proj_errno (snd r) <> 0%Z <->
   Errs.proj_errno (snd r0) <> 0%Z \/ Errs.errno (snd r0) <> 0%Z) /\
  (Errs.proj_errno (snd r) <> 0%Z -> fst r = LP.mk HUGE_VAL HUGE_VAL) /\
  (Errs.proj_errno (snd r) = 0%Z ->
   LP.phi (fst r) = LP.phi (fst r0) /\
   LP.lam (fst r) =
     if truth (PROJ.over P) then LP.lam (fst r0) + PROJ.netlam0 P
     else proj_adjlon (LP.lam (fst r0) + PROJ.netlam0 P)).
Proof.
  unfold proj_inv. cbv zeta. cbn [XY.x XY.y].
  destruct (PROJ.inv P _ _) as [lp e1]. cbn [fst snd].
  destruct (truth (Errs.proj_errno e1)) eqn:T1.
  - apply truth_true in T1. cbn [fst snd].
    split; [split; [intros _; left; exact T1 | intros _; exact T1]
           |split; [reflexivity | intros H; contradiction]].
  - apply truth_false in T1. cbn [Errs.proj_errno Errs.errno].
    destruct (truth (Errs.errno e1)) eqn:T2.
    + apply truth_true in T2. cbn [fst snd Errs.proj_errno].
      split; [split; [intros _; right; exact T2 | intros _; exact T2]
             |split; [reflexivity | intros H; contradiction]].
    + apply truth_false in T2.
      destruct (truth (PROJ.over P));
        cbn [negb fst snd Errs.proj_errno LP.lam LP.phi];
        (split; [split; [intros H; now elim H | intros [H|H]; contradiction]
                |split; [intros H; now elim H | intros _; split; reflexivity]]).
Qed.

(** X7: when [proj_inv] returns without an error and [over] is 0, the
    longitude returned is at most [PI * (1 + 3e-14)] in absolute
    value. *)
Theorem proj_inv_longitude (HUGE_VAL : R) (xy : PROJ_XY) (P : PROJ)
  (e : Errs.t) :
  Errs.proj_errno (snd (proj_inv HUGE_VAL xy P e)) = 0%Z ->
  PROJ.over P = 0%Z ->
  Rabs (LP.lam (fst (proj_inv HUGE_VAL xy P e))) <= PI * (1 + 3e-14).
Proof.
  unfold proj_inv. cbv zeta. cbn [XY.x XY.y].
  destruct (PROJ.inv P _ _) as [lp e1]. cbn [fst snd].
  intros H0 Ho. rewrite Ho in *. cbn [truth Z.eqb negb] in *.
  destruct (truth (Errs.proj_errno e1)) eqn:T1.
  - apply truth_true in T1. cbn [snd] in H0. contradiction.
  - cbn [Errs.proj_errno Errs.errno] in *.
    destruct (truth (Errs.errno e1)) eqn:T2.
    + apply truth_true in T2. cbn [snd Errs.proj_errno] in H0. contradiction.
    + cbn [fst LP.lam].
      pose proof (proj_adjlon_band (LP.lam lp + PROJ.netlam0 P)) as Hb.
      unfold adjlon_band, DBL_EPSILON in Hb. lra.
Qed.

(** X7, an instance: the coordinate (4, 0) under a projection whose
    inverse is the identity. *)
Lemma proj_inv_longitude_plate_carree :
  Rabs (LP.lam (fst (proj_inv 1 (XY.mk 4 0) plate_carree (Errs.mk 0 0))))
  <= PI * (1 + 3e-14).
Proof.
  apply (proj_inv_longitude 1 (XY.mk 4 0) plate_carree (Errs.mk 0 0));
    reflexivity.
Defined.

(* ================================================================== *)
(** * The inverse solvers *)
(* ================================================================== *)

Ltac line_fields :=
  cbn [LINE.pt1 LINE.pt2 LINE.E LINE.az12 LINE.az21 LINE.S LINE.set_az12
       LINE.set_az21 LINE.set_S line_of].

(** Case analysis on a comparison that does not itself contain a
    conditional. *)
Ltac without_if t :=
  lazymatch t with
  | context [if _ then _ else _] => fail
  | _ => idtac
  end.
Ltac compare_step :=
  match goal with
  | |- context [if ?a <? ?b then _ else _] =>
      without_if a; without_if b; destruct (ltbP a b)
  | |- context [if ?a >? ?b then _ else _] =>
      without_if a; without_if b; destruct (gtbP a b)
  end; line_fields.

(** ** The azimuths of [proj_in_inv] *)

Lemma azimuths_stores (v : InInv.vars) (su1 cu1 su2 cu2 dlon : R)
  (A : PROJ_LINE) :
  exists a b : R,
    (InInv.azimuths v su1 cu1 su2 cu2 dlon A
     = LINE.set_az21 b (LINE.set_az12 a A)) /\
    0 <= a < 2 * PI /\ 0 <= b < 2 * PI.
Proof.
  pose proof PI_bounds as HP.
  unfold InInv.azimuths. cbv zeta.
  set (d := if fabs _ >? M_PI then _ else _). clearbody d.
  destruct ((fabs su1 <? InInv.TOL0) && (fabs su2 <? InInv.TOL0));
    cbn [negb]; line_fields.
  - unfold M_PI. repeat compare_step;
      (do 2 eexists; split; [reflexivity|]); lra.
  - match goal with
    | |- context [LINE.set_az21 (M_PI - atan2 ?y ?x) (LINE.set_az12 (atan2 ?y1 ?x1) ?B)] =>
        pose proof (atan2_range y x) as Hr2;
        pose proof (atan2_range y1 x1) as Hr1;
        set (A4 := B); set (t2 := atan2 y x) in *;
        set (t1 := atan2 y1 x1) in *
    end.
    assert (HA4 : exists a0 b0 : R,
               A4 = LINE.set_az21 b0 (LINE.set_az12 a0 A)).
    { unfold A4. repeat compare_step; do 2 eexists; reflexivity. }
    destruct HA4 as (a0 & b0 & HA4).
    clearbody A4 t1 t2. subst A4. line_fields. unfold M_PI.
    repeat compare_step; (do 2 eexists; split; [reflexivity|]);
      line_fields; lra.
Qed.

Lemma general_stores (E : PROJ_ELLIPS) (p1 p2 : PROJ_PT_LPH)
  (az12 az21 S : R) :
  exists a b s : R,
    InInv.general E p1 p2 (line_of p1 az12 p2 az21 S E)
    = line_of p1 a p2 b s E /\
    0 <= a < 2 * PI /\ 0 <= b < 2 * PI.
Proof.
  unfold InInv.general. cbv zeta.
  match goal with
  | |- context [InInv.azimuths ?v ?su1 ?cu1 ?su2 ?cu2 ?dlon ?A] =>
      destruct (azimuths_stores v su1 cu1 su2 cu2 dlon A)
        as (a & b & H & Ha & Hb);
      rewrite H
  end.
  do 3 eexists. split; [reflexivity|]. now split.
Qed.

(** The meridional branch (lines 238-251). *)
Lemma proj_in_inv_meridional (p1 : PROJ_PT_LPH) (az12 : R)
  (p2 : PROJ_PT_LPH) (az21 S : R) (E : PROJ_ELLIPS) :
  Rabs (LPH.lam p2 - LPH.lam p1) < InInv.TOL1 ->
  proj_in_inv (line_of p1 az12 p2 az21 S E)
  = Ok (line_of p1 (if LPH.phi p2 >? LPH.phi p1 then 0 else M_PI) p2
          (if LPH.phi p2 >? LPH.phi p1 then M_PI else 0)
          (ELLIPS.a E *
           fabs (InInv.merid_arc (ELLIPS.es E) (LPH.phi p1) (LPH.phi p2)))
          E).
Proof.
  intros H. unfold proj_in_inv, line_of.
  cbn [bind deref LINE.E LINE.pt1 LINE.pt2]. cbv zeta.
  destruct (ltbP (fabs (LPH.lam p2 - LPH.lam p1)) InInv.TOL1) as [_|n];
    [|now elim n].
  destruct (LPH.phi p2 >? LPH.phi p1); reflexivity.
Qed.

(** X8: when one of the two latitudes is more than [TOL1] = 5e-14 from
    the equator, [proj_in_inv] returns with both azimuths in
    [0, 2 PI). *)
Theorem proj_in_inv_azimuth_range (p1 : PROJ_PT_LPH) (az12 : R)
  (p2 : PROJ_PT_LPH) (az21 S : R) (E : PROJ_ELLIPS) :
  InInv.TOL1 < Rabs (LPH.phi p1) \/ InInv.TOL1 < Rabs (LPH.phi p2) ->
  exists A' : PROJ_LINE,
    proj_in_inv (line_of p1 az12 p2 az21 S E) = Ok A' /\
    0 <= LINE.az12 A' < 2 * PI /\ 0 <= LINE.az21 A' < 2 * PI.
Proof.
  intros Hoff. pose proof PI_bounds as HP.
  destruct (Rlt_dec (Rabs (LPH.lam p2 - LPH.lam p1)) InInv.TOL1) as [Hm|Hm].
  - rewrite proj_in_inv_meridional by assumption. eexists.
    split; [reflexivity|]. line_fields. unfold M_PI.
    destruct (LPH.phi p2 >? LPH.phi p1); lra.
  - pose proof (proj_in_inv_branches p1 az12 p2 az21 S E) as H.
    cbv zeta in H. rewrite H by lra. clear H.
    assert (Hor : (fabs (LPH.phi p1) >? InInv.TOL1)
                  || (fabs (LPH.phi p2) >? InInv.TOL1) = true).
    { apply orb_true_iff. unfold fabs.
      destruct Hoff as [H1|H2]; [left|right];
        match goal with
        | |- (?a >? ?b) = true => destruct (gtbP a b) as [_|n];
                                    [reflexivity | now elim n]
        end. }
    rewrite Hor.
    destruct (_ && _).
    + eexists. split; [reflexivity|]. line_fields. lra.
    + destruct (general_stores E p1 p2 az12 az21 S)
        as (a & b & s & Hg & Ha & Hb).
      rewrite Hg. eexists. split; [reflexivity|]. line_fields. now split.
Qed.

(** ** What the inverse solvers write *)

Lemma proj_pt_inv_stores (p1 : PROJ_PT_LPH) (az12 : R) (p2 : PROJ_PT_LPH)
  (az21 S : R) (E : PROJ_ELLIPS) :
  exists a b s : R,
    proj_pt_inv (line_of p1 az12 p2 az21 S E) = Ok (line_of p1 a p2 b s E).
Proof.
  unfold proj_pt_inv, line_of.
  cbn [bind deref LINE.E LINE.pt1 LINE.pt2]. cbv zeta.
  destruct (_ && _); do 3 eexists; reflexivity.
Qed.

Lemma proj_in_inv_stores (p1 : PROJ_PT_LPH) (az12 : R) (p2 : PROJ_PT_LPH)
  (az21 S : R) (E : PROJ_ELLIPS) :
  exists a b s : R,
    proj_in_inv (line_of p1 az12 p2 az21 S E) = Ok (line_of p1 a p2 b s E).
Proof.
  destruct (Rlt_dec (Rabs (LPH.lam p2 - LPH.lam p1)) InInv.TOL1) as [Hm|Hm].
  - rewrite proj_in_inv_meridional by assumption. do 3 eexists. reflexivity.
  - pose proof (proj_in_inv_branches p1 az12 p2 az21 S E) as H.
    cbv zeta in H. rewrite H by lra. clear H.
    destruct (_ && _).
    + destruct (_ || _).
      * do 3 eexists. reflexivity.
      * destruct (InInv.func_loa _ _ _ _) as [[[az21' aa] bb] sms].
        do 3 eexists. reflexivity.
    + destruct (general_stores E p1 p2 az12 az21 S) as (a & b & s & Hg & _).
      rewrite Hg. do 3 eexists. reflexivity.
Qed.

(** X9: on a line whose three pointers are set, each of [proj_sp_inv],
    [proj_pt_inv] and [proj_in_inv] returns, and changes at most the two
    azimuths and the distance: the pointers of the line are kept. *)
Theorem inverse_solvers_frame (p1 : PROJ_PT_LPH) (az12 : R)
  (p2 : PROJ_PT_LPH) (az21 S : R) (E : PROJ_ELLIPS) :
  let A := line_of p1 az12 p2 az21 S E in
  (exists a b s : R, proj_sp_inv A = Ok (line_of p1 a p2 b s E)) /\
  (exists a b s : R, proj_pt_inv A = Ok (line_of p1 a p2 b s E)) /\
  (exists a b s : R, proj_in_inv A = Ok (line_of p1 a p2 b s E)).
Proof.
  intros A. split; [|split].
  - pose proof (proj_sp_inv_stores p1 az12 p2 az21 S E) as H.
    cbv zeta in H. unfold A. rewrite H. do 3 eexists. reflexivity.
  - apply proj_pt_inv_stores.
  - apply proj_in_inv_stores.
Qed.

(** X10: none of the three inverse solvers tests a pointer: when [pt1],
    [pt2] or [E] is NULL, each of them dereferences NULL. *)
Theorem inverse_solvers_null (A : PROJ_LINE) :
  LINE.pt1 A = None \/ LINE.pt2 A = None \/ LINE.E A = None ->
  proj_sp_inv A = Fault NullDeref /\
  proj_pt_inv A = Fault NullDeref /\
  proj_in_inv A = Fault NullDeref.
Proof.
  intros H. unfold proj_sp_inv, proj_pt_inv, proj_in_inv.
  destruct (LINE.pt1 A) as [p1|]; destruct (LINE.pt2 A) as [p2|];
    destruct (LINE.E A) as [E|]; cbn [bind deref];
    try (repeat split; reflexivity).
  destruct H as [H|[H|H]]; discriminate H.
Qed.

(** X10, an instance: a line of the unit sphere without a second
    point. *)
Lemma inverse_solvers_null_pt2 :
  proj_sp_inv sphere_line_without_pt2 = Fault NullDeref /\
  proj_pt_inv sphere_line_without_pt2 = Fault NullDeref /\
  proj_in_inv sphere_line_without_pt2 = Fault NullDeref.
Proof.
  apply (inverse_solvers_null sphere_line_without_pt2).
  right. left. reflexivity.
Defined.

(** ** The meridional arc *)

(** Away from the 90 degree lookup, [merid_arc] is a difference of one
    function of the latitude. *)
Lemma merid_arc_difference (esq : R) :
  exists g : R -> R,
    forall p q, InInv.TTA < Rabs p -> InInv.merid_arc esq p q = g q - g p.
Proof.
  set (t1 := esq * 0.75).
  set (t2 := esq * esq * 0.234375).
  set (t3 := esq * esq * esq * 0.068359375).
  set (t4 := esq * esq * esq * esq * 0.01922607421875).
  set (t5 := esq * esq * esq * esq * esq * 0.00528717041015625).
  exists (fun p =>
            (1 - esq) *
            (p * (t1 + 1 + t2 * 3 + t3 * 10 + t4 * 35 + t5 * 126)
             - sin (p * 2) * (t1 + t2 * 4 + t3 * 15 + t4 * 56 + t5 * 210) / 2
             + sin (p * 4) * (t2 + t3 * 6 + t4 * 28 + t5 * 120) / 4
             - sin (p * 6) * (t3 + t4 * 8 + t5 * 45) / 6
             + sin (p * 8) * (t4 + t5 * 10) / 8
             - sin (p * 10) * t5 / 10)).
  intros p q Hp. unfold InInv.merid_arc. cbv zeta.
  destruct (lebP (fabs p) InInv.TTA) as [H|_]; [unfold fabs in H; lra|].
  cbn [andb negb]. unfold t1, t2, t3, t4, t5. decimals. field.
Qed.

(** X11: the meridional arc of [proj_in_inv.c] is additive: when the
    first two latitudes are more than [TTA] = 5e-15 from the equator (so
    that neither call takes the 90 degree lookup), the arc from [phi1]
    to [phi3] is the arc from [phi1] to [phi2] plus the arc from [phi2]
    to [phi3]. *)
Theorem merid_arc_additive (esq phi1 phi2 phi3 : R) :
  InInv.TTA < Rabs phi1 -> InInv.TTA < Rabs phi2 ->
  InInv.merid_arc esq phi1 phi3
  = InInv.merid_arc esq phi1 phi2 + InInv.merid_arc esq phi2 phi3.
Proof.
  intros H1 H2.
  destruct (merid_arc_difference esq) as [g Hg].
  rewrite !Hg by assumption. ring.
Qed.

(** X11, an instance: squared eccentricity 3/4, latitudes 1, 2 and 3. *)
Lemma merid_arc_additive_1_2_3 :
  InInv.merid_arc (3 / 4) 1 3
  = InInv.merid_arc (3 / 4) 1 2 + InInv.merid_arc (3 / 4) 2 3.
Proof.
  apply (merid_arc_additive (3 / 4) 1 2 3);
    unfold InInv.TTA; rewrite Rabs_pos_eq; lra.
Defined.

(** X8, an instance: flattening 1/2, latitude PI / 4 at longitude 0 and
    the equator at longitude 2. *)
Lemma proj_in_inv_azimuth_range_far :
  exists A' : PROJ_LINE,
    proj_in_inv far_and_equator_line = Ok A' /\
    0 <= LINE.az12 A' < 2 * PI /\ 0 <= LINE.az21 A' < 2 * PI.
Proof.
  apply (proj_in_inv_azimuth_range (LPH.mk 0 (PI / 4) 0) 0 (LPH.mk 2 0 0) 0 0
           ellipsoid_half).
  left. cbn [LPH.phi]. unfold InInv.TOL1.
  pose proof PI_bounds as HP. rewrite Rabs_pos_eq; lra.
Defined.

(* ================================================================== *)
(** * The longitude the solvers write *)
(* ================================================================== *)

(** The shift of [proj_sp_fwd] lines 63-64 on a longitude of [pt1] plus an
    angle of (-PI, PI]. *)
Lemma sp_fwd_shift (lam1 t : R) :
  - PI < t <= PI ->
  let L := lam1 + t in
  let lam2 := if fabs L >? M_PI then L - copysign (2 * M_PI) L else L in
  (Rabs lam1 <= PI -> Rabs lam2 <= PI) /\
  (lam1 = 100 -> PI < lam2).
Proof.
  intros Ht L lam2. pose proof PI_bounds as HP.
  unfold lam2, copysign, fabs, M_PI.
  rewrite (Rabs_pos_eq (2 * PI)) by lra.
  split.
  - intros H1. apply Rabs_le_inv in H1 as H1'.
    destruct (gtbP (Rabs L) PI) as [Hg|Hg].
    + destruct (Rle_dec 0 L) as [H0|H0].
      * rewrite (Rabs_pos_eq L) in Hg by assumption.
        apply Rabs_le. unfold L in *. lra.
      * rewrite (Rabs_left L) in Hg by lra.
        apply Rabs_le. unfold L in *. lra.
    + lra.
  - intros ->. assert (HL : 96 < L) by (unfold L; lra).
    destruct (gtbP (Rabs L) PI) as [Hg|Hg].
    + destruct (Rle_dec 0 L); lra.
    + lra.
Qed.

(** Off the equator the reduced latitude is not 0, and its cosine is
    strictly between 0 and 1. *)
Lemma cos_lt_1 (t : R) : Rabs t < PI / 2 -> t <> 0 -> 0 < cos t < 1.
Proof.
  intros Ht H0. apply Rabs_def2 in Ht. destruct Ht as [H1 H2].
  pose proof PI_bounds as HP.
  split; [apply cos_gt_0; lra|].
  replace t with (2 * (t / 2)) by field.
  rewrite cos_2a_sin.
  assert (Hs : sin (t / 2) <> 0).
  { destruct (Rlt_dec 0 t) as [Hp|Hn].
    - apply Rgt_not_eq, sin_gt_0; lra.
    - apply Rlt_not_eq.
      replace (t / 2) with (- (- t / 2)) by field. rewrite sin_neg.
      assert (0 < sin (- t / 2)) by (apply sin_gt_0; lra). lra. }
  assert (0 < sin (t / 2) * sin (t / 2)).
  { destruct (Rlt_dec 0 (sin (t / 2))) as [Hp|Hn].
    - apply Rmult_lt_0_compat; assumption.
    - replace (sin (t / 2) * sin (t / 2))
        with ((- sin (t / 2)) * (- sin (t / 2))) by ring.
      apply Rmult_lt_0_compat; lra. }
  lra.
Qed.

Lemma tan_nonzero (phi : R) : Rabs phi < PI / 2 -> phi <> 0 -> tan phi <> 0.
Proof.
  intros Hp H0 Ht. apply H0.
  apply Rabs_def2 in Hp. destruct Hp as [H1 H2].
  rewrite <- (atan_tan phi) by lra. rewrite Ht. exact atan_0.
Qed.

Lemma reduced_nonzero (onef phi : R) :
  0 < onef -> Rabs phi < PI / 2 -> phi <> 0 ->
  PtFwd.reduced onef phi <> 0.
Proof.
  intros Ho Hp H0 Ht. unfold PtFwd.reduced in Ht.
  pose proof (tan_nonzero phi Hp H0) as Hn.
  assert (Hx : onef * tan phi <> 0)
    by (apply Rmult_integral_contrapositive_currified; lra).
  apply Hx. rewrite <- (tan_atan (onef * tan phi)), Ht. exact tan_0.
Qed.

(** When the start is off the equator or the line is away from due east
    and west, [M] of [proj_pt_fwd] is of magnitude below 1: its arc
    cosine has a sine that is not 0, the divisor of line 82. *)
Lemma pt_fwd_M_below_1 (E : PROJ_ELLIPS) (p1 : PROJ_PT_LPH) (A : PROJ_LINE) :
  0 <= ELLIPS.f E < 1 -> Rabs (LPH.phi p1) < PI / 2 ->
  LPH.phi p1 <> 0 \/ Rabs (sin (LINE.az12 A)) <= 1 - 1e-15 ->
  Rabs (PtFwd.M (PtFwd.prepare E p1 A)) < 1 /\
  0 < sin (acos (PtFwd.M (PtFwd.prepare E p1 A))).
Proof.
  intros Hf Hp Hd.
  assert (HM : Rabs (PtFwd.M (PtFwd.prepare E p1 A)) < 1).
  { unfold PtFwd.prepare. cbv zeta. cbn [PtFwd.M].
    destruct (fabs (sin (proj_adjlon (LINE.az12 A))) <? PtFwd.MERI_TOL).
    - rewrite Rabs_R0. lra.
    - rewrite sin_proj_adjlon, Rabs_mult.
      set (th := PtFwd.reduced (1 - ELLIPS.f E) (LPH.phi p1)).
      assert (Hth : Rabs th < PI / 2).
      { unfold th, PtFwd.reduced. apply Rabs_def1;
          pose proof (atan_bound ((1 - ELLIPS.f E) * tan (LPH.phi p1))); lra. }
      pose proof (Rabs_pos (sin (LINE.az12 A))) as Hs0.
      assert (Hs1 : Rabs (sin (LINE.az12 A)) <= 1).
      { apply Rabs_le. pose proof (SIN_bound (LINE.az12 A)). lra. }
      destruct Hd as [Hd|Hd].
      + destruct (cos_lt_1 th Hth) as [Hc0 Hc1].
        { apply reduced_nonzero; [lra | assumption | assumption]. }
        rewrite (Rabs_pos_eq (cos th)) by lra.
        apply Rle_lt_trans with (cos th * 1); [|lra].
        apply Rmult_le_compat_l; lra.
      + assert (Hd' : Rabs (sin (LINE.az12 A)) < 1) by lra.
        assert (Hc : 0 <= cos th <= 1).
        { apply Rabs_def2 in Hth. destruct Hth.
          split; [left; apply cos_gt_0; lra|].
          pose proof (COS_bound th). lra. }
        rewrite (Rabs_pos_eq (cos th)) by lra.
        apply Rle_lt_trans with (1 * Rabs (sin (LINE.az12 A))); [|lra].
        apply Rmult_le_compat_r; lra. }
  split; [exact HM|].
  apply Rabs_def2 in HM. destruct HM as [H1 H2].
  pose proof (acos_bound_lt (PtFwd.M (PtFwd.prepare E p1 A))) as Hb.
  apply sin_gt_0; lra.
Qed.

(** C5 (as amended): for a radius above 0, a flattening in [0, 1) and a
    start that is not a pole, [proj_pt_fwd] passes the longitude it
    writes through the normaliser, so that its magnitude is at most
    PI * (1 + 3e-14), on every line that starts off the equator or has
    [|sin az12| <= 1 - 1e-15] (from the equator due east or west line 82
    divides 0 by 0, also when [sin az12] only rounds to 1 or -1);
    [proj_sp_fwd] writes
    a longitude of magnitude at most PI provided that the longitude of
    [pt1] has magnitude at most PI; [proj_in_fwd], for every number of
    passes, either has not left its loop, whatever the longitude of
    [pt1], or writes the longitude of [pt1] plus an increment that does
    not depend on it, without normalising.  The inverse solvers return
    with both points as they were: they write no longitude. *)
Theorem direct_solvers_longitude (p1 : PROJ_PT_LPH) (az12 : R)
  (p2 : PROJ_PT_LPH) (az21 S : R) (E : PROJ_ELLIPS) (fuel : nat) :
  let A := line_of p1 az12 p2 az21 S E in
  (0 < ELLIPS.a E -> 0 <= ELLIPS.f E < 1 -> Rabs (LPH.phi p1) < PI / 2 ->
   (LPH.phi p1 <> 0 \/ Rabs (sin az12) <= 1 - 1e-15 ->
    0 < sin (acos (PtFwd.M (PtFwd.prepare E p1 A))) /\
    exists (A' : PROJ_LINE) (q : PROJ_PT_LPH),
      proj_pt_fwd A = Ok A' /\
      LINE.pt2 A' = Some q /\ Rabs (LPH.lam q) <= PI * (1 + 3e-14)) /\
   (Rabs (LPH.lam p1) <= PI ->
    exists (A' : PROJ_LINE) (q : PROJ_PT_LPH),
      proj_sp_fwd A = Ok A' /\
      LINE.pt2 A' = Some q /\ Rabs (LPH.lam q) <= PI) /\
   ((forall lam1 : R,
       proj_in_fwd fuel
         (line_of (LPH.mk lam1 (LPH.phi p1) (LPH.h p1)) az12 p2 az21 S E)
       = Fault StillLooping) \/
    (exists dlam : R, forall lam1 : R,
       exists (A' : PROJ_LINE) (q : PROJ_PT_LPH),
         proj_in_fwd fuel
           (line_of (LPH.mk lam1 (LPH.phi p1) (LPH.h p1)) az12 p2 az21 S E)
         = Ok A' /\
         LINE.pt2 A' = Some q /\ LPH.lam q = lam1 + dlam))) /\
  (exists a1 b1 s1 a2 b2 s2 a3 b3 s3 : R,
     proj_sp_inv A = Ok (line_of p1 a1 p2 b1 s1 E) /\
     proj_pt_inv A = Ok (line_of p1 a2 p2 b2 s2 E) /\
     proj_in_inv A = Ok (line_of p1 a3 p2 b3 s3 E)).
Proof.
  intros A. split.
  - intros Ha Hf Hp. split; [|split].
    + intros Hd. split.
      * apply pt_fwd_M_below_1; assumption.
      * destruct (proj_pt_fwd_returns p1 az12 p2 az21 S E)
          as (de & phi2 & az21' & Hr & _).
        do 2 eexists. split; [exact Hr|]. split; [reflexivity|].
        cbn [LPH.lam]. pose proof (proj_adjlon_band (LPH.lam p1 + de)) as H.
        unfold adjlon_band, DBL_EPSILON in H. lra.
    + intros H1.
      destruct (proj_sp_fwd_returns p1 az12 p2 az21 S E)
        as (t & phi2 & az21' & Ht & Hr).
      do 2 eexists. split; [exact Hr|]. split; [reflexivity|].
      cbn [LPH.lam]. now apply (sp_fwd_shift (LPH.lam p1) t Ht).
    + pose proof (fun lam1 =>
                    proj_in_fwd_stores (LPH.mk lam1 (LPH.phi p1) (LPH.h p1))
                      az12 p2 az21 S E fuel) as Hst.
      cbv zeta in Hst. cbn [LPH.phi LPH.lam] in Hst.
      match type of Hst with
      | context [InFwd.loop ?n ?a ?d ?t ?t] =>
          destruct (InFwd.loop n a d t t) as [v|e] eqn:Hl
      end; cbn [bind] in Hst.
      * right. eexists. intros lam1. do 2 eexists.
        split; [exact (Hst lam1)|]. split; [reflexivity|].
        cbn [LPH.lam]. unfold Rminus. rewrite Rplus_assoc. reflexivity.
      * left. intros lam1. rewrite (Hst lam1).
        apply loop_fault in Hl. now subst e.
  - pose proof (proj_sp_inv_stores p1 az12 p2 az21 S E) as H1.
    cbv zeta in H1.
    destruct (proj_pt_inv_stores p1 az12 p2 az21 S E) as (a2 & b2 & s2 & H2).
    destruct (proj_in_inv_stores p1 az12 p2 az21 S E) as (a3 & b3 & s3 & H3).
    do 3 eexists. exists a2, b2, s2, a3, b3, s3.
    split; [exact H1|]. split; assumption.
Qed.

(** C5, an instance: from latitude PI / 4 and longitude 0 on the
    ellipsoid of flattening 1/2, with a forward azimuth of 1. *)
Lemma direct_solvers_longitude_from_45 :
  (exists (A' : PROJ_LINE) (q : PROJ_PT_LPH),
     proj_pt_fwd line_from_45 = Ok A' /\
     LINE.pt2 A' = Some q /\ Rabs (LPH.lam q) <= PI * (1 + 3e-14)) /\
  (exists (A' : PROJ_LINE) (q : PROJ_PT_LPH),
     proj_sp_fwd line_from_45 = Ok A' /\
     LINE.pt2 A' = Some q /\ Rabs (LPH.lam q) <= PI).
Proof.
  pose proof PI_bounds as HP.
  assert (Ha : 0 < ELLIPS.a ellipsoid_half) by (cbn; lra).
  assert (Hf : 0 <= ELLIPS.f ellipsoid_half < 1) by (cbn; lra).
  assert (Hp : Rabs (LPH.phi (LPH.mk 0 (PI / 4) 0)) < PI / 2).
  { cbn [LPH.phi]. rewrite Rabs_pos_eq; lra. }
  destruct (direct_solvers_longitude (LPH.mk 0 (PI / 4) 0) 1 (LPH.mk 0 0 0) 0
              1 ellipsoid_half 0) as [H _].
  destruct (H Ha Hf Hp) as (Hpt & Hsp & _).
  split.
  - apply Hpt. left. cbn [LPH.phi]. lra.
  - apply Hsp. cbn [LPH.lam]. rewrite Rabs_R0. lra.
Defined.

(** C5 (as stated) fails for [proj_sp_fwd] on a starting longitude of 100
    radians: the single shift by one turn leaves it beyond PI. *)
Lemma proj_sp_fwd_longitude_beyond_PI :
  exists (A' : PROJ_LINE) (q : PROJ_PT_LPH),
    proj_sp_fwd line_lam_100 = Ok A' /\
    LINE.pt2 A' = Some q /\ ~ (- PI < LPH.lam q <= PI).
Proof.
  destruct (proj_sp_fwd_returns (LPH.mk 100 0 0) 0 (LPH.mk 0 0 0) 0 1
              unit_sphere) as (t & phi2 & az21' & Ht & Hr).
  do 2 eexists. split; [exact Hr|]. split; [reflexivity|].
  cbn [LPH.lam].
  pose proof (proj2 (sp_fwd_shift 100 t Ht) eq_refl) as H. cbv zeta in H.
  lra.
Qed.

(* ================================================================== *)
(** * The reduced latitude *)
(* ================================================================== *)

Lemma cos_pos_off_pole (phi : R) : Rabs phi < PI / 2 -> 0 < cos phi.
Proof.
  intros H. apply Rabs_def2 in H. destruct H as [H1 H2].
  apply cos_gt_0; lra.
Qed.

(** The reduced latitude [atan ((1 - f) * tan phi)] is between the
    equator and [phi]. *)
Lemma reduced_latitude_range (f phi : R) :
  0 <= f < 1 -> Rabs phi < PI / 2 ->
  Rabs (atan ((1 - f) * tan phi)) <= Rabs phi /\
  0 < cos (atan ((1 - f) * tan phi)).
Proof.
  intros Hf Hp. apply Rabs_def2 in Hp as Hp'. destruct Hp' as [H1 H2].
  pose proof (atan_bound ((1 - f) * tan phi)) as Hb.
  split; [|apply cos_gt_0; lra].
  assert (Hmono : forall a b : R, a <= b -> atan a <= atan b).
  { intros a b [Hab| ->]; [left; now apply atan_increasing | right; reflexivity]. }
  destruct (Rle_dec 0 phi) as [H0|H0].
  - assert (Ht : 0 <= tan phi).
    { destruct H0 as [H0| <-]; [left; apply tan_gt_0; lra | rewrite tan_0; lra]. }
    assert (Hl : 0 <= (1 - f) * tan phi) by (apply Rmult_le_pos; lra).
    assert (Hu : (1 - f) * tan phi <= tan phi).
    { apply Rle_trans with (1 * tan phi); [|lra].
      apply Rmult_le_compat_r; lra. }
    apply Hmono in Hl, Hu. rewrite atan_0 in Hl.
    rewrite (atan_tan phi) in Hu by lra.
    rewrite !Rabs_pos_eq; lra.
  - assert (Ht : tan phi < 0) by (apply tan_lt_0; lra).
    assert (Hl : (1 - f) * tan phi <= 0).
    { replace 0 with ((1 - f) * 0) by ring.
      apply Rmult_le_compat_l; lra. }
    assert (Hu : tan phi <= (1 - f) * tan phi).
    { apply Rle_trans with (1 * tan phi); [lra|].
      apply Ropp_le_cancel.
      replace (- (1 * tan phi)) with (1 * (- tan phi)) by ring.
      replace (- ((1 - f) * tan phi)) with ((1 - f) * (- tan phi)) by ring.
      apply Rmult_le_compat_r; lra. }
    apply Hmono in Hl, Hu. rewrite atan_0 in Hl.
    rewrite (atan_tan phi) in Hu by lra.
    rewrite (Rabs_left1 (atan _)) by lra.
    rewrite (Rabs_left phi) by lra. lra.
Qed.

(** The terms of the three solvers are the tangent of the reduced
    latitude, or the reduced latitude itself. *)
Lemma in_fwd_reduced_tan (f phi : R) :
  InFwd.reduced (1.0 - f) phi = tan (atan ((1 - f) * tan phi)).
Proof.
  rewrite tan_atan. unfold InFwd.reduced, tan, Rdiv.
  replace 1.0 with 1 by lra. ring.
Qed.

Lemma in_inv_reduced_atan (f phi : R) :
  InInv.reduced (1 - f) phi = atan ((1 - f) * tan phi).
Proof. unfold InInv.reduced, tan, Rdiv. f_equal. ring. Qed.

(** [cu] and [su] of [proj_in_fwd] lines 59-60 are the cosine and the
    sine of the reduced latitude. *)
Lemma in_fwd_cu_su (t : R) :
  1.0 / sqrt (t * t + 1.0) = cos (atan t) /\
  t * (1.0 / sqrt (t * t + 1.0)) = sin (atan t).
Proof.
  rewrite cos_atan, sin_atan. unfold Rsqr.
  replace (t * t + 1.0) with (1 + t * t) by lra.
  replace 1.0 with 1 by lra.
  split; [reflexivity|]. unfold Rdiv. ring.
Qed.

(** What the loop of [proj_in_fwd] leaves in [sy] and [cy] are the sine
    and the cosine of the iterate before the last, which it leaves in
    [c]. *)
Lemma loop_sy_cy (n : nat) (az21 d tu y0 : R) (v : InFwd.vars) :
  InFwd.loop n az21 d tu y0 = Ok v ->
  InFwd.sy v = sin (InFwd.c v) /\ InFwd.cy v = cos (InFwd.c v).
Proof.
  unfold InFwd.loop. revert y0.
  induction n as [|n IH]; intros y0; cbn [InFwd.iterate]; [discriminate|].
  destruct (_ >? _); [apply IH|].
  intros H. injection H as <-. split; reflexivity.
Qed.

(** [proj_pt_fwd] in the general case, with the stores of lines 121-124
    written out. *)
Lemma proj_pt_fwd_general (p1 : PROJ_PT_LPH) (az12 : R) (p2 : PROJ_PT_LPH)
  (az21 S : R) (E : PROJ_ELLIPS) :
  let A := line_of p1 az12 p2 az21 S E in
  let l := PtFwd.prepare E p1 A in
  PtFwd.merid l = false ->
  exists al21 de : R,
    proj_pt_fwd A
    = Ok (line_of p1 az12
            (LPH.mk (proj_adjlon (LPH.lam p1 + de))
               (atan (- (PtFwd.sinth1 l * PtFwd.cosds l
                         + PtFwd.N l * PtFwd.sinds l) * sin al21 /
                      (PtFwd.onef l * PtFwd.M l)))
               (LPH.h p2))
            (proj_adjlon al21) S E).
Proof.
  intros A l Hm. unfold proj_pt_fwd, A.
  cbn [bind deref line_of LINE.E LINE.pt1].
  fold (line_of p1 az12 p2 az21 S E). fold A. fold l.
  rewrite Hm. unfold PtFwd.general, A.
  cbn [bind set_pt2_lam set_pt2_phi deref line_of LINE.pt2 LINE.store_pt2
       LINE.with_lam LINE.with_phi LINE.set_az21
       LINE.pt1 LINE.az12 LINE.az21 LINE.S LINE.E LPH.lam LPH.phi LPH.h].
  do 2 eexists. reflexivity.
Qed.

(** [proj_in_inv] in the general case, when both latitudes are more than
    [TOL2] from the equator. *)
Lemma proj_in_inv_general (p1 : PROJ_PT_LPH) (az12 : R) (p2 : PROJ_PT_LPH)
  (az21 S : R) (E : PROJ_ELLIPS) :
  InInv.TOL1 <= Rabs (LPH.lam p2 - LPH.lam p1) ->
  InInv.TOL2 < Rabs (LPH.phi p1) -> InInv.TOL2 < Rabs (LPH.phi p2) ->
  proj_in_inv (line_of p1 az12 p2 az21 S E)
  = Ok (InInv.general E p1 p2 (line_of p1 az12 p2 az21 S E)).
Proof.
  intros Hl H1 H2.
  pose proof (proj_in_inv_branches p1 az12 p2 az21 S E) as H.
  cbv zeta in H. rewrite H by assumption. clear H.
  assert (Hn : InInv.near_equator (fabs (LPH.phi p1)) (fabs (LPH.phi p2))
               = false).
  { unfold InInv.near_equator, fabs.
    destruct (gtbP (Rabs (LPH.phi p1)) InInv.TOL2) as [_|n]; [|lra].
    destruct (gtbP (Rabs (LPH.phi p2)) InInv.TOL2) as [_|n]; [|lra].
    reflexivity. }
  rewrite Hn, andb_false_r. reflexivity.
Qed.

(** The double that holds PI / 2 is below PI / 2, and the next double is
    above it. *)
Lemma M_PI_2_binary64_bounds :
  M_PI_2_binary64 < PI / 2 < M_PI_2_binary64 + / 2 ^ 52.
Proof.
  unfold M_PI_2_binary64.
  pose proof (PI_2_3_7_ineq 8) as [H1 H2].
  unfold sum_f_R0, tg_alt, PI_2_3_7_tg, Ratan_seq in H1, H2.
  cbn [Nat.mul Nat.add] in H1, H2.
  simpl in H1, H2.
  split; lra.
Qed.

(** C10 (as amended): for a radius above 0, a flattening in [0, 1) and
    latitudes of magnitude strictly below PI / 2 the divisor [cos phi] of the
    reduced-latitude terms of [proj_in_fwd] (line 53), [proj_in_inv]
    (lines 304-305) and [proj_pt_fwd] (line 54) is positive; the reduced
    latitude [th = atan ((1 - f) * tan phi)] is between the equator and
    [phi], so that its cosine, a divisor further on, is positive as well;
    and it is what the three solvers compute with:
    - [proj_in_fwd] has [tan th1] in [tu] and, whenever its loop has
      left, writes the latitude of the formula of Vincenty in [th1];
    - [proj_pt_fwd] has [cos th1] and [sin th1] in [costh1] and [sinth1];
      off the meridian the divisor [onef * M] of line 123 is not 0, and
      (from off the equator, or away from due east and west) the latitude
      written is that of the formula of Thomas in [th1];
    - [proj_in_inv], in its general case, runs its iteration and its
      azimuths on the sines and cosines of [th1] and [th2]. *)
Theorem reduced_latitude_defined (p1 : PROJ_PT_LPH) (az12 : R)
  (p2 : PROJ_PT_LPH) (az21 S : R) (E : PROJ_ELLIPS) (fuel : nat) :
  0 < ELLIPS.a E -> 0 <= ELLIPS.f E < 1 ->
  Rabs (LPH.phi p1) < PI / 2 -> Rabs (LPH.phi p2) < PI / 2 ->
  let A := line_of p1 az12 p2 az21 S E in
  let f0 := 1 - ELLIPS.f E in
  let th1 := atan (f0 * tan (LPH.phi p1)) in
  let th2 := atan (f0 * tan (LPH.phi p2)) in
  (0 < cos (LPH.phi p1) /\ 0 < cos (LPH.phi p2)) /\
  (Rabs th1 <= Rabs (LPH.phi p1) /\ Rabs th2 <= Rabs (LPH.phi p2) /\
   0 < cos th1 /\ 0 < cos th2) /\
  (InFwd.reduced (1.0 - ELLIPS.f E) (LPH.phi p1) = tan th1 /\
   (proj_in_fwd fuel A = Fault StillLooping \/
    exists (y : R) (A' : PROJ_LINE) (q : PROJ_PT_LPH),
      proj_in_fwd fuel A = Ok A' /\ LINE.pt2 A' = Some q /\
      LPH.phi q
      = atan2 (sin th1 * cos y + cos th1 * sin y * cos az12)
          (f0 * hypot (cos th1 * sin az12)
                  (cos th1 * cos y * cos az12 - sin th1 * sin y)))) /\
  (let l := PtFwd.prepare E p1 A in
   PtFwd.costh1 l = cos th1 /\ PtFwd.sinth1 l = sin th1 /\
   (PtFwd.merid l = false ->
    f0 * PtFwd.M l <> 0 /\
    (LPH.phi p1 <> 0 \/ Rabs (sin az12) <= 1 - 1e-15 ->
     exists (al21 : R) (A' : PROJ_LINE) (q : PROJ_PT_LPH),
       proj_pt_fwd A = Ok A' /\ LINE.pt2 A' = Some q /\
       LPH.phi q
       = atan (- (sin th1 * PtFwd.cosds l + PtFwd.N l * PtFwd.sinds l) *
               sin al21 / (f0 * PtFwd.M l))))) /\
  (InInv.reduced f0 (LPH.phi p1) = th1 /\
   InInv.reduced f0 (LPH.phi p2) = th2 /\
   (InInv.TOL1 <= Rabs (LPH.lam p2 - LPH.lam p1) ->
    InInv.TOL2 < Rabs (LPH.phi p1) -> InInv.TOL2 < Rabs (LPH.phi p2) ->
    let dlon := LPH.lam p2 - LPH.lam p1 in
    let v := InInv.loop 7 (ELLIPS.f E) (sin th1) (cos th1) (sin th2)
               (cos th2) dlon dlon in
    exists s : R,
      proj_in_inv A
      = Ok (InInv.azimuths v (sin th1) (cos th1) (sin th2) (cos th2) dlon
              (LINE.set_S s A)))).
Proof.
  intros Ha Hf Hp1 Hp2 A f0 th1 th2.
  destruct (reduced_latitude_range (ELLIPS.f E) (LPH.phi p1) Hf Hp1)
    as [Hr1 Hc1].
  destruct (reduced_latitude_range (ELLIPS.f E) (LPH.phi p2) Hf Hp2)
    as [Hr2 Hc2].
  fold f0 in Hr1, Hc1, Hr2, Hc2. fold th1 in Hr1, Hc1. fold th2 in Hr2, Hc2.
  split; [split; apply cos_pos_off_pole; assumption|].
  split; [repeat split; assumption|].
  split; [|split].
  - split; [apply in_fwd_reduced_tan|].
    pose proof (proj_in_fwd_stores p1 az12 p2 az21 S E fuel) as Hst.
    cbv zeta in Hst. fold A in Hst.
    rewrite (in_fwd_reduced_tan (ELLIPS.f E) (LPH.phi p1)), tan_atan in Hst.
    fold f0 in Hst.
    destruct (in_fwd_cu_su (f0 * tan (LPH.phi p1))) as [Hcu Hsu].
    fold th1 in Hcu, Hsu. rewrite Hsu, Hcu in Hst.
    match type of Hst with
    | context [InFwd.loop ?n ?a ?d ?t ?t] =>
        destruct (InFwd.loop n a d t t) as [v|e] eqn:Hl
    end; cbn [bind] in Hst.
    + right. destruct (loop_sy_cy _ _ _ _ _ _ Hl) as [Hsy Hcy].
      exists (InFwd.c v). do 2 eexists.
      split; [exact Hst|]. split; [reflexivity|].
      cbn [LPH.phi]. rewrite Hsy, Hcy.
      replace (1.0 - ELLIPS.f E) with f0 by (unfold f0; lra).
      reflexivity.
    + left. rewrite Hst. apply loop_fault in Hl. now subst e.
  - intros l. split; [reflexivity|]. split; [reflexivity|].
    intros Hm.
    assert (HM : PtFwd.M l <> 0).
    { unfold l, PtFwd.prepare in Hm |- *. cbv zeta in Hm |- *.
      cbn [PtFwd.M PtFwd.merid] in Hm |- *. rewrite Hm.
      apply Rmult_integral_contrapositive_currified.
      - apply Rgt_not_eq. exact Hc1.
      - destruct (ltbP (fabs (sin (proj_adjlon (LINE.az12 A))))
                    PtFwd.MERI_TOL) as [H|H]; [discriminate Hm|].
        unfold fabs, PtFwd.MERI_TOL in H. intros H0. apply H.
        rewrite H0, Rabs_R0. lra. }
    split.
    + apply Rmult_integral_contrapositive_currified; [unfold f0; lra|exact HM].
    + intros _.
      destruct (proj_pt_fwd_general p1 az12 p2 az21 S E Hm) as (al21 & de & Hg).
      exists al21. do 2 eexists. split; [exact Hg|]. split; reflexivity.
  - split; [apply in_inv_reduced_atan|]. split; [apply in_inv_reduced_atan|].
    intros Hl H1 H2 dlon v.
    unfold A. rewrite proj_in_inv_general by assumption.
    unfold InInv.general. cbv zeta.
    rewrite !in_inv_reduced_atan. fold f0 th1 th2 dlon v.
    eexists. reflexivity.
Qed.

(** C10, an instance: latitudes PI / 4 and 0 on the ellipsoid of
    flattening 1/2. *)
Lemma reduced_latitude_defined_45 :
  (0 < cos (PI / 4) /\ 0 < cos 0) /\
  InFwd.reduced (1.0 - 1 / 2) (PI / 4)
  = tan (atan ((1 - 1 / 2) * tan (PI / 4))) /\
  PtFwd.costh1 (PtFwd.prepare ellipsoid_half (LPH.mk 0 (PI / 4) 0)
                  line_from_45)
  = cos (atan ((1 - 1 / 2) * tan (PI / 4))).
Proof.
  pose proof PI_bounds as HP.
  destruct (reduced_latitude_defined (LPH.mk 0 (PI / 4) 0) 1 (LPH.mk 0 0 0) 0
              1 ellipsoid_half 0) as (H1 & _ & (H3 & _) & (H4 & _) & _).
  - cbn [ELLIPS.a ellipsoid_half]. lra.
  - cbn [ELLIPS.f ellipsoid_half]. lra.
  - cbn [LPH.phi]. rewrite Rabs_pos_eq; lra.
  - cbn [LPH.phi]. rewrite Rabs_R0. lra.
  - split; [exact H1|]. split; [exact H3 | exact H4].
Defined.

(** C10 (as stated) fails for the latitudes that the program can hold.
    The doubles of magnitude between 1 and 2 are the multiples of
    [2 ^ -52]; the largest of them that is not above PI / 2 is the value
    of [M_PI_2], which is strictly below PI / 2.  So every latitude in
    [-PI / 2, PI / 2] that is a double, the two poles of the data model
    included, has a cosine above 0: the divisor is 0 at none of them. *)
Lemma pole_latitude_binary64 :
  M_PI_2_binary64 < PI / 2 < M_PI_2_binary64 + / 2 ^ 52 /\
  0 < cos M_PI_2_binary64 /\ 0 < cos (- M_PI_2_binary64) /\
  (forall phi : R,
     Rabs phi <= PI / 2 ->
     Rabs phi < 1 \/ (exists m : Z, phi = IZR m / 2 ^ 52) ->
     Rabs phi <= M_PI_2_binary64 /\ 0 < cos phi).
Proof.
  pose proof M_PI_2_binary64_bounds as [Hq1 Hq2].
  assert (Hq0 : 0 < M_PI_2_binary64) by (unfold M_PI_2_binary64; lra).
  split; [split; assumption|].
  split; [apply cos_pos_off_pole; rewrite Rabs_pos_eq; lra|].
  split; [apply cos_pos_off_pole; rewrite Rabs_Ropp, Rabs_pos_eq; lra|].
  intros phi Hp Hd.
  assert (Hle : Rabs phi <= M_PI_2_binary64).
  { destruct Hd as [Hd|[m ->]].
    - unfold M_PI_2_binary64. lra.
    - apply Rabs_le_inv in Hp. unfold M_PI_2_binary64 in *.
      assert (H1 : IZR m < IZR 7074237752028441) by lra.
      assert (H2 : IZR (- 7074237752028441) < IZR m) by lra.
      apply lt_IZR in H1, H2.
      assert (H3 : (m <= 7074237752028440)%Z) by lia.
      assert (H4 : (- 7074237752028440 <= m)%Z) by lia.
      apply IZR_le in H3, H4.
      apply Rabs_le. lra. }
  split; [exact Hle|].
  apply cos_pos_off_pole. lra.
Qed.

(* ================================================================== *)
(** * The structure of [geod]: [geod_pre], [geod_for] and the two modes *)
(* ================================================================== *)

Import ListNotations.

(** ** [geod_for]: what it reads and what it writes *)

Ltac geod_fields :=
  cbn [GEOD.A GEOD.p1 GEOD.p2 GEOD.ALPHA12 GEOD.ALPHA21 GEOD.DIST GEOD.ONEF
       GEOD.FLAT GEOD.FLAT2 GEOD.FLAT4 GEOD.FLAT64 GEOD.ELLIPSE GEOD.FR_METER
       GEOD.TO_METER GEOD.del_alpha GEOD.n_alpha GEOD.n_S GEOD.th1
       GEOD.costh1 GEOD.sinth1 GEOD.sina12 GEOD.cosa12 GEOD.M GEOD.N GEOD.c1
       GEOD.c2 GEOD.D GEOD.P GEOD.s1 GEOD.merid GEOD.signS
       GEOD.set_ALPHA21 GEOD.set_p2 GEOD.set_p2_u GEOD.set_p2_v
       GEOD.set_ALPHA12 GEOD.set_DIST GEOD.set_n_alpha GEOD.set_n_S
       GEOD.set_pre GEOD.set_inverse UV.u UV.v fst snd].

Ltac split_ifs :=
  repeat match goal with
  | |- context [if ?b then _ else _] => destruct b
  end.

(** The two branches of [geod_for] followed by its last store, on a
    structure whose [p2], [ALPHA21] and [n_S] have been overwritten. *)
Lemma meridian_reads (ds x a : R) (q : projUV) (m : Z) (G : GEODESIC_T) :
  (let '(G', de) :=
     GeodFor.meridian ds
       (GEOD.set_ALPHA21 x
          (GEOD.set_n_S m (GEOD.set_p2 q (GEOD.set_ALPHA21 a G)))) in
   GEOD.set_p2_v (adjlon (UV.v (GEOD.p1 G') + de)) G')
  = GEOD.set_n_S m
      (let '(G', de) := GeodFor.meridian ds (GEOD.set_ALPHA21 x G) in
       GEOD.set_p2_v (adjlon (UV.v (GEOD.p1 G') + de)) G').
Proof.
  unfold GeodFor.meridian. cbv zeta. geod_fields.
  destruct (x >? 0); destruct (truth (GEOD.signS G)); reflexivity.
Qed.

Lemma general_reads (ds ss cosds sinds x a : R) (q : projUV) (m : Z)
  (G : GEODESIC_T) :
  (let '(G', de) :=
     GeodFor.general ds ss cosds sinds
       (GEOD.set_ALPHA21 x
          (GEOD.set_n_S m (GEOD.set_p2 q (GEOD.set_ALPHA21 a G)))) in
   GEOD.set_p2_v (adjlon (UV.v (GEOD.p1 G') + de)) G')
  = GEOD.set_n_S m
      (let '(G', de) := GeodFor.general ds ss cosds sinds
                          (GEOD.set_ALPHA21 x G) in
       GEOD.set_p2_v (adjlon (UV.v (GEOD.p1 G') + de)) G').
Proof.
  unfold GeodFor.general. cbv zeta. geod_fields.
  destruct (atan (GEOD.M G / x) >? 0); geod_fields;
    destruct (GEOD.ALPHA12 G <? 0); geod_fields; reflexivity.
Qed.

Lemma geod_for_reads (a : R) (q : projUV) (m : Z) (G : GEODESIC_T) :
  geod_for (GEOD.set_n_S m (GEOD.set_p2 q (GEOD.set_ALPHA21 a G)))
  = GEOD.set_n_S m (geod_for G).
Proof.
  unfold geod_for.
  set (G' := GEOD.set_n_S m (GEOD.set_p2 q (GEOD.set_ALPHA21 a G))).
  change (GEOD.ELLIPSE G') with (GEOD.ELLIPSE G).
  change (GEOD.DIST G') with (GEOD.DIST G).
  change (GEOD.D G') with (GEOD.D G).
  change (GEOD.A G') with (GEOD.A G).
  change (GEOD.signS G') with (GEOD.signS G).
  change (GEOD.s1 G') with (GEOD.s1 G).
  change (GEOD.c2 G') with (GEOD.c2 G).
  change (GEOD.P G') with (GEOD.P G).
  destruct (if truth (GEOD.ELLIPSE G) then _ else _) as [ds ss].
  cbv zeta.
  change (GEOD.N G') with (GEOD.N G).
  change (GEOD.sinth1 G') with (GEOD.sinth1 G).
  set (sinds := if truth (GEOD.signS G) then - sin ds else sin ds).
  set (x := GEOD.N G * cos ds - GEOD.sinth1 G * sinds).
  change (GEOD.merid (GEOD.set_ALPHA21 x G')) with (GEOD.merid G).
  change (GEOD.merid (GEOD.set_ALPHA21 x G)) with (GEOD.merid G).
  destruct (truth (GEOD.merid G)).
  - apply meridian_reads.
  - apply general_reads.
Qed.

(** [geod_for] writes [p2] and [ALPHA21], and nothing else. *)
Lemma meridian_writes (ds x : R) (G : GEODESIC_T) :
  exists (q : projUV) (a : R),
    (let '(G', de) := GeodFor.meridian ds (GEOD.set_ALPHA21 x G) in
     GEOD.set_p2_v (adjlon (UV.v (GEOD.p1 G') + de)) G')
    = GEOD.set_p2 q (GEOD.set_ALPHA21 a G).
Proof.
  unfold GeodFor.meridian. cbv zeta. geod_fields.
  destruct (x >? 0); destruct (truth (GEOD.signS G));
    do 2 eexists; reflexivity.
Qed.

Lemma general_writes (ds ss cosds sinds x : R) (G : GEODESIC_T) :
  exists (q : projUV) (a : R),
    (let '(G', de) := GeodFor.general ds ss cosds sinds
                        (GEOD.set_ALPHA21 x G) in
     GEOD.set_p2_v (adjlon (UV.v (GEOD.p1 G') + de)) G')
    = GEOD.set_p2 q (GEOD.set_ALPHA21 a G).
Proof.
  unfold GeodFor.general. cbv zeta. geod_fields.
  destruct (atan (GEOD.M G / x) >? 0); geod_fields;
    destruct (GEOD.ALPHA12 G <? 0); geod_fields;
    do 2 eexists; reflexivity.
Qed.

Lemma geod_for_writes (G : GEODESIC_T) :
  exists (q : projUV) (a : R),
    geod_for G = GEOD.set_p2 q (GEOD.set_ALPHA21 a G).
Proof.
  unfold geod_for.
  destruct (if truth (GEOD.ELLIPSE G) then _ else _) as [ds ss].
  cbv zeta.
  set (sinds := if truth (GEOD.signS G) then - sin ds else sin ds).
  set (x := GEOD.N G * cos ds - GEOD.sinth1 G * sinds).
  change (GEOD.merid (GEOD.set_ALPHA21 x G)) with (GEOD.merid G).
  destruct (truth (GEOD.merid G)).
  - apply meridian_writes.
  - apply general_writes.
Qed.

(** ** [do_geod] *)

Lemma UV_eta (p : projUV) : UV.mk (UV.u p) (UV.v p) = p.
Proof. now destruct p. Qed.

Section GeodesicMode.

Variable G : GEODESIC_T.
Variable del_S : R.

(** The structure in the loop of [do_geod]: [G] with [n_S], [DIST], [p2]
    and [ALPHA21] overwritten. *)
Let state (m : Z) (d : R) (q : projUV) (a : R) : GEODESIC_T :=
  GEOD.set_n_S m (GEOD.set_p2 q (GEOD.set_ALPHA21 a (GEOD.set_DIST d G))).

Let point (d : R) : projUV := GEOD.p2 (geod_for (GEOD.set_DIST d G)).

Lemma geod_for_state (m : Z) (d : R) (q : projUV) (a : R) :
  exists a' : R, geod_for (state m d q a) = state m d (point d) a'.
Proof.
  unfold state, point. rewrite geod_for_reads.
  destruct (geod_for_writes (GEOD.set_DIST d G)) as (q' & a' & H).
  exists a'. rewrite H. reflexivity.
Qed.

Lemma geod_loop_lines (n : nat) :
  forall (fuel : nat) (d : R) (q : projUV) (a : R) (out : list projUV),
    (n < fuel)%nat ->
    exists (q' : projUV) (a' : R),
      Geod.geod_loop fuel del_S (state (Z.of_nat (S n)) d q a) out
      = Ok (state 0 (d + INR n * del_S) q' a',
            out ++ map (fun k => point (d + INR k * del_S)) (seq 0 n)).
Proof.
  induction n as [|n IH]; intros fuel d q a out Hfuel.
  - destruct fuel as [|fuel]; [lia|].
    exists q, a. cbn [Geod.geod_loop]. cbv zeta.
    change (GEOD.n_S (state (Z.of_nat 1) d q a)) with 1%Z.
    change (GEOD.n_S (GEOD.set_n_S (1 - 1) (state (Z.of_nat 1) d q a)))
      with 0%Z.
    cbn [truth Z.eqb negb seq map]. rewrite app_nil_r.
    replace (d + INR 0 * del_S) with d by (cbn [INR]; ring).
    reflexivity.
  - destruct fuel as [|fuel]; [lia|].
    cbn [Geod.geod_loop]. cbv zeta.
    set (m := Z.of_nat (S (S n))).
    change (GEOD.set_n_S (GEOD.n_S (state m d q a) - 1) (state m d q a))
      with (state (m - 1) d q a).
    change (GEOD.n_S (state (m - 1) d q a)) with (m - 1)%Z.
    replace (m - 1)%Z with (Z.of_nat (S n)) by (unfold m; lia).
    replace (truth (Z.of_nat (S n))) with true by reflexivity.
    destruct (geod_for_state (Z.of_nat (S n)) d q a) as [a1 H1].
    rewrite H1.
    change (GEOD.p2 (state (Z.of_nat (S n)) d (point d) a1)) with (point d).
    change (GEOD.set_DIST
              (GEOD.DIST (state (Z.of_nat (S n)) d (point d) a1) + del_S)
              (state (Z.of_nat (S n)) d (point d) a1))
      with (state (Z.of_nat (S n)) (d + del_S) (point d) a1).
    destruct (IH fuel (d + del_S) (point d) a1
                (Geod.printLL (UV.u (point d)) (UV.v (point d)) out))
      as (q' & a' & H); [lia|].
    exists q', a'. rewrite H. f_equal. f_equal.
    + f_equal. rewrite S_INR. ring.
    + unfold Geod.printLL. rewrite UV_eta, <- app_assoc. f_equal.
      cbn [seq map app]. f_equal.
      * f_equal. cbn [INR]. ring.
      * rewrite <- seq_shift, map_map. apply map_ext. intros k.
        f_equal. rewrite S_INR. ring.
Qed.

End GeodesicMode.

Lemma GEOD_restore (G : GEODESIC_T) (d : R) :
  GEOD.set_n_S (GEOD.n_S G)
    (GEOD.set_p2 (GEOD.p2 G) (GEOD.set_ALPHA21 (GEOD.ALPHA21 G)
       (GEOD.set_DIST d G)))
  = GEOD.set_DIST d G.
Proof. destruct G. reflexivity. Qed.

(** X14: with [n_S = n + 1 >= 1], [do_geod] returns (within [n + 1]
    passes of its loop) after [n + 2] lines: the first point, then for
    [k = 1 .. n] the point that [geod_for] finds at [k] times the
    [n_S]-th part of the distance, then the second point as it was at
    entry.  It leaves [n_S] at 0 and the distance as it was at
    entry. *)
Theorem do_geod_lines (G : GEODESIC_T) (n fuel : nat) :
  GEOD.n_S G = Z.of_nat (S n) -> (n < fuel)%nat ->
  exists G' : GEODESIC_T,
    do_geod fuel G
    = Ok (G',
          GEOD.p1 G ::
          map (fun k =>
                 GEOD.p2 (geod_for
                            (GEOD.set_DIST
                               (INR k * (GEOD.DIST G / IZR (GEOD.n_S G))) G)))
              (seq 1 n) ++
          [GEOD.p2 G]) /\
    GEOD.n_S G' = 0%Z /\
    GEOD.DIST G' = GEOD.DIST G.
Proof.
  intros Hn Hfuel. unfold do_geod. cbv zeta.
  set (del_S := GEOD.DIST G / IZR (GEOD.n_S G)).
  rewrite <- (GEOD_restore G del_S), Hn.
  destruct (geod_loop_lines G del_S n fuel del_S (GEOD.p2 G) (GEOD.ALPHA21 G)
              (Geod.printLL (UV.u (GEOD.p1 G)) (UV.v (GEOD.p1 G)) [])
              Hfuel) as (q' & a' & H).
  cbv zeta in H. rewrite H. cbn [bind].
  eexists. split; [|split].
  - f_equal. f_equal. unfold Geod.printLL. rewrite !UV_eta.
    cbn [app]. f_equal. f_equal.
    rewrite <- seq_shift, map_map. apply map_ext. intros k.
    do 3 f_equal. rewrite S_INR. ring.
  - reflexivity.
  - cbn [GEOD.DIST GEOD.set_n_S GEOD.set_p2 GEOD.set_ALPHA21 GEOD.set_DIST].
    unfold del_S. rewrite Hn, <- INR_IZR_INZ.
    assert (INR (S n) <> 0) by (apply not_0_INR; discriminate).
    rewrite S_INR in *. field. assumption.
Qed.

(** X14, an instance: [n_S = 2], flattening 1/2. *)
Lemma do_geod_lines_two :
  exists G' : GEODESIC_T,
    do_geod 2 (geodesic_half 0 2)
    = Ok (G',
          GEOD.p1 (geodesic_half 0 2) ::
          map (fun k =>
                 GEOD.p2 (geod_for
                            (GEOD.set_DIST
                               (INR k * (GEOD.DIST (geodesic_half 0 2) /
                                         IZR (GEOD.n_S (geodesic_half 0 2))))
                               (geodesic_half 0 2))))
              (seq 1 1) ++
          [GEOD.p2 (geodesic_half 0 2)]) /\
    GEOD.n_S G' = 0%Z /\
    GEOD.DIST G' = GEOD.DIST (geodesic_half 0 2).
Proof.
  apply (do_geod_lines (geodesic_half 0 2) 1 2); [reflexivity | lia].
Defined.

(** ** [geod_pre]: what it reads and what it writes *)

Lemma geod_pre_n_alpha (m : Z) (G : GEODESIC_T) :
  geod_pre (GEOD.set_n_alpha m G) = GEOD.set_n_alpha m (geod_pre G).
Proof. reflexivity. Qed.

Lemma geod_pre_p2 (q : projUV) (G : GEODESIC_T) :
  geod_pre (GEOD.set_p2 q G) = GEOD.set_p2 q (geod_pre G).
Proof. reflexivity. Qed.

Lemma geod_pre_ALPHA21 (a : R) (G : GEODESIC_T) :
  geod_pre (GEOD.set_ALPHA21 a G) = GEOD.set_ALPHA21 a (geod_pre G).
Proof. reflexivity. Qed.

(** A second [geod_pre] overwrites what the first one has stored. *)
Lemma geod_pre_again (az : R) (G : GEODESIC_T) :
  geod_pre (GEOD.set_ALPHA12 az (geod_pre G))
  = geod_pre (GEOD.set_ALPHA12 az G).
Proof. destruct G. destruct ELLIPSE; reflexivity. Qed.

Lemma geod_for_reads_n_alpha (a : R) (q : projUV) (m : Z) (G : GEODESIC_T) :
  geod_for (GEOD.set_n_alpha m (GEOD.set_p2 q (GEOD.set_ALPHA21 a G)))
  = GEOD.set_n_alpha m (geod_for G).
Proof.
  unfold geod_for.
  set (G' := GEOD.set_n_alpha m (GEOD.set_p2 q (GEOD.set_ALPHA21 a G))).
  change (GEOD.ELLIPSE G') with (GEOD.ELLIPSE G).
  change (GEOD.DIST G') with (GEOD.DIST G).
  change (GEOD.D G') with (GEOD.D G).
  change (GEOD.A G') with (GEOD.A G).
  change (GEOD.signS G') with (GEOD.signS G).
  change (GEOD.s1 G') with (GEOD.s1 G).
  change (GEOD.c2 G') with (GEOD.c2 G).
  change (GEOD.P G') with (GEOD.P G).
  destruct (if truth (GEOD.ELLIPSE G) then _ else _) as [ds ss].
  cbv zeta.
  change (GEOD.N G') with (GEOD.N G).
  change (GEOD.sinth1 G') with (GEOD.sinth1 G).
  set (sinds := if truth (GEOD.signS G) then - sin ds else sin ds).
  set (x := GEOD.N G * cos ds - GEOD.sinth1 G * sinds).
  change (GEOD.merid (GEOD.set_ALPHA21 x G')) with (GEOD.merid G).
  change (GEOD.merid (GEOD.set_ALPHA21 x G)) with (GEOD.merid G).
  destruct (truth (GEOD.merid G)).
  - unfold GeodFor.meridian, G'. cbv zeta. geod_fields.
    destruct (x >? 0); destruct (truth (GEOD.signS G)); reflexivity.
  - unfold GeodFor.general, G'. cbv zeta. geod_fields.
    destruct (atan (GEOD.M G / x) >? 0); geod_fields;
      destruct (GEOD.ALPHA12 G <? 0); geod_fields; reflexivity.
Qed.

(** ** [do_arc] *)

Section ArcMode.

Variable G : GEODESIC_T.

Let state (m : Z) (q : projUV) (a : R) (K : GEODESIC_T) : GEODESIC_T :=
  GEOD.set_n_alpha m (GEOD.set_p2 q (GEOD.set_ALPHA21 a K)).

Let point (az : R) : projUV :=
  GEOD.p2 (geod_for (geod_pre (GEOD.set_ALPHA12 az G))).

Let next (az : R) : R := adjlon (az + GEOD.del_alpha G).

(** The structures that the loop meets behave as [G] under [geod_pre]. *)
Let like_G (K : GEODESIC_T) : Prop :=
  GEOD.del_alpha K = GEOD.del_alpha G /\
  forall az, geod_pre (GEOD.set_ALPHA12 az K)
             = geod_pre (GEOD.set_ALPHA12 az G).

Lemma arc_pass (m : Z) (q : projUV) (a az : R) (K : GEODESIC_T) :
  like_G K ->
  exists (a' : R) (K' : GEODESIC_T),
    like_G K' /\
    geod_for (geod_pre (GEOD.set_ALPHA12 az (state m q a K)))
    = state m (point az) a' K'.
Proof.
  intros [_ HK]. unfold state.
  change (GEOD.set_ALPHA12 az
            (GEOD.set_n_alpha m (GEOD.set_p2 q (GEOD.set_ALPHA21 a K))))
    with (GEOD.set_n_alpha m
            (GEOD.set_p2 q (GEOD.set_ALPHA21 a (GEOD.set_ALPHA12 az K)))).
  rewrite geod_pre_n_alpha, geod_pre_p2, geod_pre_ALPHA21, HK.
  rewrite geod_for_reads_n_alpha.
  set (K' := geod_pre (GEOD.set_ALPHA12 az G)).
  destruct (geod_for_writes K') as (q' & a' & H).
  exists a', K'. split.
  - split; [reflexivity|].
    intros az'. unfold K'. rewrite geod_pre_again. reflexivity.
  - unfold point. fold K'. rewrite H. reflexivity.
Qed.

Lemma state_n_alpha (m : Z) (q : projUV) (a : R) (K : GEODESIC_T) :
  GEOD.n_alpha (state m q a K) = m.
Proof. reflexivity. Qed.

Lemma state_decrement (m m' : Z) (q : projUV) (a : R) (K : GEODESIC_T) :
  GEOD.set_n_alpha m' (state m q a K) = state m' q a K.
Proof. reflexivity. Qed.

Lemma state_del_alpha (m : Z) (q : projUV) (a : R) (K : GEODESIC_T) :
  GEOD.del_alpha (state m q a K) = GEOD.del_alpha K.
Proof. reflexivity. Qed.

Lemma state_p2 (m : Z) (q : projUV) (a : R) (K : GEODESIC_T) :
  GEOD.p2 (state m q a K) = q.
Proof. reflexivity. Qed.

Lemma arc_loop_lines (n : nat) :
  forall (fuel : nat) (az : R) (q : projUV) (a : R) (K : GEODESIC_T)
         (out : list projUV),
    like_G K -> (n < fuel)%nat ->
    exists (q' : projUV) (a' : R) (K' : GEODESIC_T),
      Geod.arc_loop fuel az (state (Z.of_nat n) q a K) out
      = Ok (state (-1) q' a' K',
            out ++ map (fun k => point (Nat.iter (S k) next az)) (seq 0 n)).
Proof.
  induction n as [|n IH]; intros fuel az q a K out HK Hfuel.
  - destruct fuel as [|fuel]; [lia|].
    exists q, a, K. cbn [Geod.arc_loop]. cbv zeta.
    rewrite state_n_alpha, state_decrement.
    cbn [truth Z.eqb negb Z.of_nat Z.sub Z.add Z.opp seq map].
    rewrite app_nil_r. reflexivity.
  - destruct fuel as [|fuel]; [lia|].
    cbn [Geod.arc_loop]. cbv zeta.
    rewrite state_n_alpha, state_decrement, state_del_alpha.
    replace (truth (Z.of_nat (S n))) with true by reflexivity.
    replace (Z.of_nat (S n) - 1)%Z with (Z.of_nat n) by lia.
    destruct HK as [Hdel HK]. rewrite Hdel. fold (next az).
    destruct (arc_pass (Z.of_nat n) q a (next az) K (conj Hdel HK))
      as (a1 & K1 & HK1 & H1).
    rewrite H1, state_p2.
    destruct (IH fuel (next az) (point (next az)) a1 K1
                (Geod.printLL (UV.u (point (next az)))
                   (UV.v (point (next az))) out) HK1)
      as (q' & a' & K' & H); [lia|].
    exists q', a', K'. rewrite H. f_equal. f_equal.
    unfold Geod.printLL. rewrite UV_eta, <- app_assoc. f_equal.
    cbn [seq map app]. f_equal.
    rewrite <- seq_shift, map_map. apply map_ext. intros k.
    f_equal. rewrite <- !Nat.iter_succ_r. reflexivity.
Qed.

End ArcMode.

Lemma GEOD_restore_arc (G : GEODESIC_T) :
  GEOD.set_n_alpha (GEOD.n_alpha G)
    (GEOD.set_p2 (GEOD.p2 G) (GEOD.set_ALPHA21 (GEOD.ALPHA21 G) G))
  = G.
Proof. destruct G. reflexivity. Qed.

(** X15: with [n_alpha = n >= 0], [do_arc] returns (within [n + 1]
    passes of its loop) after [n + 1] lines: the second point as it was
    at entry, then for [k = 1 .. n] the point that [geod_pre] and
    [geod_for] find for the azimuth turned [k] times by [del_alpha],
    each time from the structure as it was at entry: what the passes
    before have written has no effect.  It leaves [n_alpha] at -1. *)
Theorem do_arc_lines (G : GEODESIC_T) (n fuel : nat) :
  GEOD.n_alpha G = Z.of_nat n -> (n < fuel)%nat ->
  exists G' : GEODESIC_T,
    do_arc fuel G
    = Ok (G',
          GEOD.p2 G ::
          map (fun k =>
                 GEOD.p2 (geod_for (geod_pre
                   (GEOD.set_ALPHA12
                      (Nat.iter k (fun az => adjlon (az + GEOD.del_alpha G))
                         (GEOD.ALPHA12 G)) G))))
              (seq 1 n)) /\
    GEOD.n_alpha G' = (-1)%Z.
Proof.
  intros Hn Hfuel. unfold do_arc. cbv zeta.
  destruct (arc_loop_lines G n fuel (GEOD.ALPHA12 G) (GEOD.p2 G)
              (GEOD.ALPHA21 G) G
              (Geod.printLL (UV.u (GEOD.p2 G)) (UV.v (GEOD.p2 G)) []))
    as (q' & a' & K' & H).
  - split; [reflexivity|]. intros az. reflexivity.
  - exact Hfuel.
  - cbv zeta in H. rewrite <- Hn, GEOD_restore_arc in H.
    rewrite H. eexists. split.
    + f_equal. f_equal. unfold Geod.printLL. rewrite UV_eta. cbn [app].
      f_equal. rewrite <- seq_shift, map_map. reflexivity.
    + reflexivity.
Qed.

(** X15, an instance: [n_alpha = 2], flattening 1/2. *)
Lemma do_arc_lines_two :
  exists G' : GEODESIC_T,
    do_arc 3 (geodesic_half 2 0)
    = Ok (G',
          GEOD.p2 (geodesic_half 2 0) ::
          map (fun k =>
                 GEOD.p2 (geod_for (geod_pre
                   (GEOD.set_ALPHA12
                      (Nat.iter k
                         (fun az =>
                            adjlon (az + GEOD.del_alpha (geodesic_half 2 0)))
                         (GEOD.ALPHA12 (geodesic_half 2 0)))
                      (geodesic_half 2 0)))))
              (seq 1 2)) /\
    GEOD.n_alpha G' = (-1)%Z.
Proof.
  apply (do_arc_lines (geodesic_half 2 0) 2 3); [reflexivity | lia].
Defined.

(** ** [geod_pre] and [geod_for] against [proj_pt_fwd] *)

Lemma truth_of_bool (b : bool) : truth (of_bool b) = b.
Proof. now destruct b. Qed.

Lemma meridian_p1 (ds : R) (G : GEODESIC_T) :
  GEOD.p1 (fst (GeodFor.meridian ds G)) = GEOD.p1 G.
Proof.
  unfold GeodFor.meridian. cbv zeta.
  repeat match goal with
  | |- context [if ?b then _ else _] => destruct b
  end; reflexivity.
Qed.

Lemma general_p1 (ds ss cosds sinds : R) (G : GEODESIC_T) :
  GEOD.p1 (fst (GeodFor.general ds ss cosds sinds G)) = GEOD.p1 G.
Proof.
  unfold GeodFor.general. cbv zeta. cbn [fst].
  repeat match goal with
  | |- context [if ?a >? ?b then _ else _] => destruct (a >? b)
  | |- context [if ?a <? ?b then _ else _] => destruct (a <? b)
  end; reflexivity.
Qed.

Lemma meridian_de (ds : R) (G : GEODESIC_T) :
  snd (GeodFor.meridian ds G)
  = if GEOD.ALPHA21 G >? 0
    then (if truth (GEOD.signS G) then PI else 0)
    else (if truth (GEOD.signS G) then 0 else PI).
Proof.
  unfold GeodFor.meridian. cbv zeta.
  change (GEOD.ALPHA21 (GEOD.set_p2_u ?x G)) with (GEOD.ALPHA21 G).
  destruct (GEOD.ALPHA21 G >? 0).
  - change (GEOD.signS (GEOD.set_ALPHA21 ?a (GEOD.set_p2_u ?x G)))
      with (GEOD.signS G).
    destruct (truth (GEOD.signS G)); reflexivity.
  - change (GEOD.signS (GEOD.set_ALPHA21 ?a (GEOD.set_p2_u ?x G)))
      with (GEOD.signS G).
    destruct (truth (GEOD.signS G)); reflexivity.
Qed.

Lemma general_values (ds ss cosds sinds : R) (G : GEODESIC_T) :
  let a := atan (GEOD.M G / GEOD.ALPHA21 G) in
  let a := if a >? 0 then a + PI else a in
  let a := if GEOD.ALPHA12 G <? 0 then a - PI else a in
  let de := atan2 (sinds * GEOD.sina12 G)
              (GEOD.costh1 G * cosds - GEOD.sinth1 G * sinds * GEOD.cosa12 G)
  in
  GEOD.ALPHA21 (fst (GeodFor.general ds ss cosds sinds G)) = adjlon a /\
  UV.u (GEOD.p2 (fst (GeodFor.general ds ss cosds sinds G)))
  = atan (- (GEOD.sinth1 G * cosds + GEOD.N G * sinds) * sin (adjlon a) /
          (if truth (GEOD.ELLIPSE G) then GEOD.ONEF G * GEOD.M G
           else GEOD.M G)) /\
  snd (GeodFor.general ds ss cosds sinds G)
  = if truth (GEOD.ELLIPSE G) then
      if truth (GEOD.signS G)
      then de + GEOD.c1 G * ((1 - GEOD.c2 G) * ds + GEOD.c2 G * sinds * cos ss)
      else de - GEOD.c1 G * ((1 - GEOD.c2 G) * ds - GEOD.c2 G * sinds * cos ss)
    else de.
Proof.
  unfold GeodFor.general. cbv zeta. geod_fields.
  destruct (atan (GEOD.M G / GEOD.ALPHA21 G) >? 0); geod_fields;
    destruct (GEOD.ALPHA12 G <? 0); geod_fields;
    repeat split; reflexivity.
Qed.

Section ThomasForward.

Variables (G : GEODESIC_T) (p1 p2 : PROJ_PT_LPH) (az12 az21 S : R)
  (E : PROJ_ELLIPS).
Hypothesis He : truth (GEOD.ELLIPSE G) = true.
Hypothesis Ha : GEOD.A G = ELLIPS.a E.
Hypothesis Hf : GEOD.FLAT G = ELLIPS.f E.
Hypothesis H1 : GEOD.ONEF G = 1 - ELLIPS.f E.
Hypothesis H4 : GEOD.FLAT4 G = 0.5 * (0.5 * ELLIPS.f E).
Hypothesis Hp1 : GEOD.p1 G = UV.mk (LPH.phi p1) (LPH.lam p1).
Hypothesis Hal : GEOD.ALPHA12 G = az12.
Hypothesis Hd : GEOD.DIST G = S.

Let A := line_of p1 az12 p2 az21 S E.
Let l := PtFwd.prepare E p1 A.
Let G' := geod_pre G.

Ltac pre_field :=
  unfold G', geod_pre, l, PtFwd.prepare, A, line_of, GEOD.set_pre, adjlon,
    HALFPI, M_PI_2, MERI_TOL, PtFwd.MERI_TOL, PtFwd.reduced;
  cbn [GEOD.ELLIPSE GEOD.ONEF GEOD.p1 GEOD.ALPHA12 GEOD.N GEOD.M GEOD.sinth1
       GEOD.costh1 GEOD.sina12 GEOD.cosa12 GEOD.c1 GEOD.c2 GEOD.s1 GEOD.D
       GEOD.P GEOD.merid GEOD.signS GEOD.A GEOD.DIST
       PtFwd.onef PtFwd.al12 PtFwd.N PtFwd.M PtFwd.sinth1 PtFwd.costh1
       PtFwd.sina12 PtFwd.cosa12 PtFwd.c1 PtFwd.c2 PtFwd.s1 PtFwd.merid
       PtFwd.signS PtFwd.ds PtFwd.ss PtFwd.cosds PtFwd.sinds PtFwd.al21
       LINE.az12 LINE.S];
  rewrite ?He, ?Hp1, ?Hal, ?H1, ?Hf, ?H4, ?Ha, ?Hd; cbn [UV.u UV.v];
  rewrite ?truth_of_bool; try reflexivity.

Lemma pre_ELLIPSE : truth (GEOD.ELLIPSE G') = true.
Proof. exact He. Qed.
Lemma pre_ONEF : GEOD.ONEF G' = PtFwd.onef l.
Proof. exact H1. Qed.
Lemma pre_p1 : GEOD.p1 G' = UV.mk (LPH.phi p1) (LPH.lam p1).
Proof. exact Hp1. Qed.
Lemma pre_ALPHA12 : GEOD.ALPHA12 G' = PtFwd.al12 l.
Proof. pre_field. Qed.
Lemma pre_N : GEOD.N G' = PtFwd.N l.
Proof. pre_field. Qed.
Lemma pre_M : GEOD.M G' = PtFwd.M l.
Proof. pre_field. Qed.
Lemma pre_sinth1 : GEOD.sinth1 G' = PtFwd.sinth1 l.
Proof. pre_field. Qed.
Lemma pre_costh1 : GEOD.costh1 G' = PtFwd.costh1 l.
Proof. pre_field. Qed.
Lemma pre_sina12 : GEOD.sina12 G' = PtFwd.sina12 l.
Proof. pre_field. Qed.
Lemma pre_cosa12 : GEOD.cosa12 G' = PtFwd.cosa12 l.
Proof. pre_field. Qed.
Lemma pre_c1 : GEOD.c1 G' = PtFwd.c1 l.
Proof. pre_field. Qed.
Lemma pre_c2 : GEOD.c2 G' = PtFwd.c2 l.
Proof. pre_field. Qed.
Lemma pre_s1 : GEOD.s1 G' = PtFwd.s1 l.
Proof. pre_field. Qed.
Lemma pre_merid : truth (GEOD.merid G') = PtFwd.merid l.
Proof. pre_field. Qed.
Lemma pre_signS : truth (GEOD.signS G') = PtFwd.signS l.
Proof. pre_field. Qed.

(** The arc [ds] and the angle [ss] that [geod_for] computes are those of
    [proj_pt_fwd]. *)
Lemma pre_ds :
  (let d := GEOD.DIST G' / (GEOD.D G' * GEOD.A G') in
   let d := if truth (GEOD.signS G') then - d else d in
   let u := 2 * (GEOD.s1 G' - d) in
   let V := cos (u + d) in
   let sind := sin d in
   let X := GEOD.c2 G' * GEOD.c2 G' * sind * cos d * (2 * V * V - 1) in
   let ds := d + X - 2 * GEOD.P G' * V * (1 - 2 * GEOD.P G' * cos u) * sind in
   (ds, GEOD.s1 G' + GEOD.s1 G' - ds))
  = (PtFwd.ds l, PtFwd.ss l).
Proof. pre_field. Qed.


Lemma l_cosds : PtFwd.cosds l = cos (PtFwd.ds l).
Proof. reflexivity. Qed.
Lemma l_sinds :
  PtFwd.sinds l
  = if PtFwd.signS l then - sin (PtFwd.ds l) else sin (PtFwd.ds l).
Proof. reflexivity. Qed.
Lemma l_al21 :
  PtFwd.al21 l
  = PtFwd.N l * PtFwd.cosds l - PtFwd.sinth1 l * PtFwd.sinds l.
Proof. reflexivity. Qed.


(** [geod_for] after [geod_pre], in the locals of [proj_pt_fwd]. *)
Lemma geod_for_locals :
  geod_for G'
  = (let G0 := GEOD.set_ALPHA21 (PtFwd.al21 l) G' in
     let '(G1, de) :=
       if PtFwd.merid l
       then GeodFor.meridian (PtFwd.ds l) G0
       else GeodFor.general (PtFwd.ds l) (PtFwd.ss l) (PtFwd.cosds l)
              (PtFwd.sinds l) G0 in
     GEOD.set_p2_v (adjlon (LPH.lam p1 + de)) G1).
Proof.
  unfold geod_for.
  destruct (if truth (GEOD.ELLIPSE G') then _ else _) as [ds ss] eqn:Hpair.
  assert (Hds : (ds, ss) = (PtFwd.ds l, PtFwd.ss l))
    by (rewrite <- Hpair, pre_ELLIPSE; exact pre_ds).
  assert (H1' : ds = PtFwd.ds l) by exact (f_equal fst Hds).
  assert (H2' : ss = PtFwd.ss l) by exact (f_equal snd Hds).
  clear Hpair Hds. subst ds ss. cbv zeta.
  rewrite pre_signS, pre_N, pre_sinth1, <- l_cosds, <- l_sinds, <- l_al21.
  change (GEOD.merid (GEOD.set_ALPHA21 (PtFwd.al21 l) G'))
    with (GEOD.merid G').
  rewrite pre_merid.
  destruct (PtFwd.merid l).
  - pose proof (meridian_p1 (PtFwd.ds l)
                  (GEOD.set_ALPHA21 (PtFwd.al21 l) G')) as Hp.
    destruct (GeodFor.meridian _ _) as [G1 de]. cbn [fst] in Hp.
    rewrite Hp. change (GEOD.p1 (GEOD.set_ALPHA21 (PtFwd.al21 l) G'))
      with (GEOD.p1 G').
    rewrite pre_p1. reflexivity.
  - pose proof (general_p1 (PtFwd.ds l) (PtFwd.ss l) (PtFwd.cosds l)
                  (PtFwd.sinds l)
                  (GEOD.set_ALPHA21 (PtFwd.al21 l) G')) as Hp.
    destruct (GeodFor.general _ _ _ _ _) as [G1 de]. cbn [fst] in Hp.
    rewrite Hp. change (GEOD.p1 (GEOD.set_ALPHA21 (PtFwd.al21 l) G'))
      with (GEOD.p1 G').
    rewrite pre_p1. reflexivity.
Qed.


Lemma thomas_forward_longitude :
  exists (Arc' : PROJ_LINE) (q2 : PROJ_PT_LPH),
    proj_pt_fwd A = Ok Arc' /\
    LINE.pt2 Arc' = Some q2 /\
    UV.v (GEOD.p2 (geod_for G')) = LPH.lam q2 /\
    (PtFwd.merid l = false ->
     UV.u (GEOD.p2 (geod_for G')) = LPH.phi q2 /\
     GEOD.ALPHA21 (geod_for G') = LINE.az21 Arc').
Proof.
  rewrite geod_for_locals. cbv zeta.
  unfold proj_pt_fwd.
  cbn [bind deref A line_of LINE.E LINE.pt1].
  fold (line_of p1 az12 p2 az21 S E). fold A. fold l.
  destruct (PtFwd.merid l).
  - pose proof (meridian_de (PtFwd.ds l)
                  (GEOD.set_ALPHA21 (PtFwd.al21 l) G')) as Hde.
    change (GEOD.ALPHA21 (GEOD.set_ALPHA21 (PtFwd.al21 l) G'))
      with (PtFwd.al21 l) in Hde.
    change (GEOD.signS (GEOD.set_ALPHA21 (PtFwd.al21 l) G'))
      with (GEOD.signS G') in Hde.
    rewrite pre_signS in Hde.
    destruct (GeodFor.meridian _ _) as [G1 de]. cbn [snd] in Hde. subst de.
    unfold PtFwd.meridian. cbv zeta.
    destruct (PtFwd.al21 l >? 0); destruct (PtFwd.signS l);
      cbn [bind set_pt2_lam deref A line_of LINE.pt2 LINE.store_pt2
           LINE.with_lam];
      (do 2 eexists; split; [reflexivity|]; split; [reflexivity|]);
      (split; [reflexivity | intros H; discriminate H]).
  - pose proof (general_values (PtFwd.ds l) (PtFwd.ss l) (PtFwd.cosds l)
                  (PtFwd.sinds l)
                  (GEOD.set_ALPHA21 (PtFwd.al21 l) G')) as Hg.
    cbv zeta in Hg.
    change (GEOD.ALPHA21 (GEOD.set_ALPHA21 (PtFwd.al21 l) G'))
      with (PtFwd.al21 l) in Hg.
    change (GEOD.M (GEOD.set_ALPHA21 (PtFwd.al21 l) G'))
      with (GEOD.M G') in Hg.
    change (GEOD.ALPHA12 (GEOD.set_ALPHA21 (PtFwd.al21 l) G'))
      with (GEOD.ALPHA12 G') in Hg.
    change (GEOD.sina12 (GEOD.set_ALPHA21 (PtFwd.al21 l) G'))
      with (GEOD.sina12 G') in Hg.
    change (GEOD.costh1 (GEOD.set_ALPHA21 (PtFwd.al21 l) G'))
      with (GEOD.costh1 G') in Hg.
    change (GEOD.sinth1 (GEOD.set_ALPHA21 (PtFwd.al21 l) G'))
      with (GEOD.sinth1 G') in Hg.
    change (GEOD.cosa12 (GEOD.set_ALPHA21 (PtFwd.al21 l) G'))
      with (GEOD.cosa12 G') in Hg.
    change (GEOD.N (GEOD.set_ALPHA21 (PtFwd.al21 l) G'))
      with (GEOD.N G') in Hg.
    change (GEOD.ELLIPSE (GEOD.set_ALPHA21 (PtFwd.al21 l) G'))
      with (GEOD.ELLIPSE G') in Hg.
    change (GEOD.ONEF (GEOD.set_ALPHA21 (PtFwd.al21 l) G'))
      with (GEOD.ONEF G') in Hg.
    change (GEOD.signS (GEOD.set_ALPHA21 (PtFwd.al21 l) G'))
      with (GEOD.signS G') in Hg.
    change (GEOD.c1 (GEOD.set_ALPHA21 (PtFwd.al21 l) G'))
      with (GEOD.c1 G') in Hg.
    change (GEOD.c2 (GEOD.set_ALPHA21 (PtFwd.al21 l) G'))
      with (GEOD.c2 G') in Hg.
    rewrite pre_ELLIPSE, pre_signS, pre_M, pre_ALPHA12, pre_sina12,
      pre_costh1, pre_sinth1, pre_cosa12, pre_N, pre_ONEF, pre_c1, pre_c2
      in Hg.
    destruct Hg as (Haz & Hu & Hde).
    destruct (GeodFor.general _ _ _ _ _) as [G1 de].
    cbn [fst snd] in Haz, Hu, Hde. subst de.
    unfold PtFwd.general.
    cbn [bind set_pt2_lam set_pt2_phi deref A line_of LINE.pt2
         LINE.store_pt2 LINE.with_lam LINE.with_phi LINE.set_az21
         LINE.pt1 LINE.az12 LINE.az21 LINE.S LINE.E LPH.lam LPH.phi LPH.h].
    do 2 eexists. split; [reflexivity|]. split; [reflexivity|].
    cbn [LINE.az21 LPH.lam LPH.phi GEOD.p2 GEOD.ALPHA21 GEOD.set_p2_v
         GEOD.set_p2 UV.u UV.v].
    split; [|intros _; split].
    + unfold adjlon, M_PI. reflexivity.
    + rewrite Hu. unfold adjlon. rewrite sin_proj_adjlon. unfold M_PI.
      reflexivity.
    + rewrite Haz. unfold adjlon, M_PI. reflexivity.
Qed.

End ThomasForward.

(** X16: on an ellipsoid, with [ONEF = 1 - FLAT] and [FLAT4 = FLAT / 4]
    as [GEOD_init] sets them, [geod_pre] followed by [geod_for] writes
    the longitude that [proj_pt_fwd] writes for the same first point,
    azimuth, distance and ellipsoid; when the line is not meridional
    ([|sin az12| >= 1e-9]) it writes the same latitude and the same back
    azimuth as well. *)
Theorem geod_for_agrees_with_proj_pt_fwd (G : GEODESIC_T)
  (p1 p2 : PROJ_PT_LPH) (az12 az21 S : R) (E : PROJ_ELLIPS) :
  truth (GEOD.ELLIPSE G) = true ->
  GEOD.A G = ELLIPS.a E ->
  GEOD.FLAT G = ELLIPS.f E ->
  GEOD.ONEF G = 1 - GEOD.FLAT G ->
  GEOD.FLAT4 G = GEOD.FLAT G / 4 ->
  GEOD.p1 G = UV.mk (LPH.phi p1) (LPH.lam p1) ->
  GEOD.ALPHA12 G = az12 ->
  GEOD.DIST G = S ->
  exists (Arc' : PROJ_LINE) (q2 : PROJ_PT_LPH),
    proj_pt_fwd (line_of p1 az12 p2 az21 S E) = Ok Arc' /\
    LINE.pt2 Arc' = Some q2 /\
    UV.v (GEOD.p2 (geod_for (geod_pre G))) = LPH.lam q2 /\
    (1e-9 <= Rabs (sin az12) ->
     UV.u (GEOD.p2 (geod_for (geod_pre G))) = LPH.phi q2 /\
     GEOD.ALPHA21 (geod_for (geod_pre G)) = LINE.az21 Arc').
Proof.
  intros He Ha Hf H1 H4 Hp1 Hal Hd.
  assert (H1' : GEOD.ONEF G = 1 - ELLIPS.f E) by (rewrite H1, Hf; reflexivity).
  assert (H4' : GEOD.FLAT4 G = 0.5 * (0.5 * ELLIPS.f E))
    by (rewrite H4, Hf; lra).
  destruct (thomas_forward_longitude G p1 p2 az12 az21 S E
              He Ha Hf H1' H4' Hp1 Hal Hd) as (Arc' & q2 & HA & Hq & Hv & Hn).
  exists Arc', q2. split; [exact HA|]. split; [exact Hq|].
  split; [exact Hv|].
  intros Hs. apply Hn.
  destruct (prepare_flags E p1 (line_of p1 az12 p2 az21 S E)) as [Hm _].
  rewrite Hm. cbn [line_of LINE.az12].
  destruct (ltbP (fabs (sin (proj_adjlon az12))) PtFwd.MERI_TOL) as [H|_];
    [|reflexivity].
  exfalso. unfold fabs, PtFwd.MERI_TOL in H. rewrite sin_proj_adjlon in H. lra.
Qed.

(** X16, an instance: flattening 1/2, from the origin due east over a
    distance of 1/10. *)
Lemma geod_for_agrees_with_proj_pt_fwd_east :
  exists (Arc' : PROJ_LINE) (q2 : PROJ_PT_LPH),
    proj_pt_fwd equator_line = Ok Arc' /\
    LINE.pt2 Arc' = Some q2 /\
    UV.v (GEOD.p2 (geod_for (geod_pre (geodesic_half 0 0)))) = LPH.lam q2 /\
    UV.u (GEOD.p2 (geod_for (geod_pre (geodesic_half 0 0)))) = LPH.phi q2 /\
    GEOD.ALPHA21 (geod_for (geod_pre (geodesic_half 0 0))) = LINE.az21 Arc'.
Proof.
  destruct (geod_for_agrees_with_proj_pt_fwd (geodesic_half 0 0)
              (LPH.mk 0 0 0) (LPH.mk 0 0 0) (PI / 2) 0 (1 / 10)
              ellipsoid_half)
    as (Arc' & q2 & HA & Hq & Hv & Hn);
    try reflexivity.
  exists Arc', q2. split; [exact HA|]. split; [exact Hq|].
  split; [exact Hv|]. apply Hn.
  rewrite sin_PI2, Rabs_R1. lra.
Defined.

(** ** [geod_pre] and [geod_for] applied twice *)

Lemma set_ALPHA12_same (G : GEODESIC_T) :
  GEOD.set_ALPHA12 (GEOD.ALPHA12 G) G = G.
Proof. now destruct G. Qed.

Lemma geod_pre_ALPHA12 (G : GEODESIC_T) :
  GEOD.ALPHA12 (geod_pre G) = adjlon (GEOD.ALPHA12 G).
Proof. reflexivity. Qed.

Lemma geod_pre_normalised (G : GEODESIC_T) :
  geod_pre (GEOD.set_ALPHA12 (adjlon (GEOD.ALPHA12 G)) G) = geod_pre G.
Proof.
  unfold geod_pre at 1.
  change (GEOD.ALPHA12 (GEOD.set_ALPHA12 (adjlon (GEOD.ALPHA12 G)) G))
    with (adjlon (GEOD.ALPHA12 G)).
  unfold adjlon at 1. rewrite proj_adjlon_idempotent_l.
  reflexivity.
Qed.

(** X17: [geod_pre] is idempotent: a second call changes nothing, the
    forward azimuth that the first call has reduced included. *)
Theorem geod_pre_idempotent (G : GEODESIC_T) :
  geod_pre (geod_pre G) = geod_pre G.
Proof.
  rewrite <- (set_ALPHA12_same (geod_pre G)).
  rewrite geod_pre_ALPHA12, geod_pre_again.
  apply geod_pre_normalised.
Qed.

Lemma set_n_S_same (G : GEODESIC_T) : GEOD.set_n_S (GEOD.n_S G) G = G.
Proof. now destruct G. Qed.

Lemma geod_for_overwrites (a : R) (q : projUV) (G : GEODESIC_T) :
  geod_for (GEOD.set_p2 q (GEOD.set_ALPHA21 a G)) = geod_for G.
Proof.
  pose proof (geod_for_reads a q (GEOD.n_S G) G) as H.
  change (GEOD.n_S G)
    with (GEOD.n_S (GEOD.set_p2 q (GEOD.set_ALPHA21 a G))) in H at 1.
  rewrite set_n_S_same in H. rewrite H.
  destruct (geod_for_writes G) as (q' & a' & Hw). rewrite Hw.
  change (GEOD.n_S G)
    with (GEOD.n_S (GEOD.set_p2 q' (GEOD.set_ALPHA21 a' G))).
  apply set_n_S_same.
Qed.

(** X18: [geod_for] assigns only the second point and the back azimuth;
    what it writes does not depend on their values at entry; a second
    call changes nothing. *)
Theorem geod_for_frame_idempotent (G : GEODESIC_T) :
  geod_for G
  = GEOD.set_p2 (GEOD.p2 (geod_for G))
      (GEOD.set_ALPHA21 (GEOD.ALPHA21 (geod_for G)) G) /\
  (forall (q : projUV) (a : R),
     geod_for (GEOD.set_p2 q (GEOD.set_ALPHA21 a G)) = geod_for G) /\
  geod_for (geod_for G) = geod_for G.
Proof.
  destruct (geod_for_writes G) as (q & a & H).
  split; [|split].
  - rewrite H. reflexivity.
  - intros q' a'. apply geod_for_overwrites.
  - rewrite H at 1. apply geod_for_overwrites.
Qed.

(** ** [geod_inv] on a sphere *)




(* ================================================================== *)
(** * The definition string of [GEOD_init_plus] *)
(* ================================================================== *)

Local Close Scope R_scope.

Lemma cstr_plain (a rest : list ascii) :
  forallb plain a = true ->
  InitPlus.cstr (a ++ InitPlus.NUL :: rest) = a.
Proof.
  induction a as [|c a IH]; intros H; cbn [app InitPlus.cstr].
  - now rewrite Ascii.eqb_refl.
  - cbn [forallb] in H. apply andb_true_iff in H. destruct H as [Hc Ha].
    unfold plain in Hc. apply andb_true_iff in Hc. destruct Hc as [_ Hc].
    apply negb_true_iff in Hc. rewrite Hc. now rewrite IH.
Qed.

(** The characters of an argument are passed over: none of them is white
    space, and a ['+'] among them does not follow a NUL. *)
Lemma split_plain (a todo done : list ascii) (argv : list nat) :
  forallb plain a = true ->
  done <> [] -> hd InitPlus.NUL done <> InitPlus.NUL ->
  (a <> [] ->
   hd InitPlus.NUL (rev a ++ done) <> InitPlus.NUL) /\
  InitPlus.split (a ++ todo) done argv
  = InitPlus.split todo (rev a ++ done) argv.
Proof.
  revert done. induction a as [|c a IH]; intros done H Hne Hhd.
  - split; [intros H0; now elim H0 | reflexivity].
  - cbn [forallb] in H. apply andb_true_iff in H. destruct H as [Hc Ha].
    unfold plain in Hc. apply andb_true_iff in Hc. destruct Hc as [Hb Hn].
    apply negb_true_iff in Hb, Hn.
    assert (Hcn : c <> InitPlus.NUL)
      by (intros ->; now rewrite Ascii.eqb_refl in Hn).
    destruct (IH (c :: done) Ha) as [IH1 IH2]; [discriminate | exact Hcn |].
    cbn [rev]. rewrite <- app_assoc. cbn [app].
    split.
    + intros _. destruct a as [|c' a']; [exact Hcn | apply IH1; discriminate].
    + cbn [InitPlus.split].
      destruct done as [|d done']; [now elim Hne|].
      cbn [length hd Nat.eqb orb] in *.
      assert (Hd : Ascii.eqb d InitPlus.NUL = false)
        by (apply Ascii.eqb_neq; exact Hhd).
      rewrite Hd, Hb.
      destruct (Ascii.eqb c "+"); exact IH2.
Qed.

Lemma split_definition (args : list (list ascii)) :
  forall (done : list ascii) (argv : list nat),
    done = [] \/ hd InitPlus.NUL done = InitPlus.NUL ->
    forallb (forallb plain) args = true ->
    (length argv + length args < InitPlus.MAX_ARG)%nat ->
    exists (buf : list ascii) (offs : list nat),
      InitPlus.split (definition_of args) done argv = Some (buf, argv ++ offs) /\
      (exists tail, buf = rev done ++ tail) /\
      forall pre tail,
        length pre = length done ->
        buf = rev done ++ tail ->
        map (InitPlus.arg (pre ++ tail)) offs = args.
Proof.
  induction args as [|a args IH]; intros done argv Hstart Hplain Hlen.
  - exists (rev done), []. cbn [definition_of map concat InitPlus.split].
    rewrite !app_nil_r. split; [reflexivity|]. split.
    + exists []. now rewrite app_nil_r.
    + reflexivity.
  - cbn [forallb] in Hplain. apply andb_true_iff in Hplain.
    destruct Hplain as [Ha Hargs]. cbn [length] in Hlen.
    unfold definition_of. cbn [map concat]. fold (definition_of args).
    cbn [app InitPlus.split]. rewrite Ascii.eqb_refl.
    assert (Hs : ((length done =? 0)%nat
                  || Ascii.eqb (hd InitPlus.NUL done) InitPlus.NUL) = true).
    { destruct Hstart as [H0 | H0]; rewrite H0; [reflexivity|].
      rewrite Ascii.eqb_refl. apply orb_true_r. }
    rewrite Hs.
    assert (Hc : (length argv + 1 =? InitPlus.MAX_ARG)%nat = false)
      by (apply Nat.eqb_neq; lia).
    rewrite Hc. rewrite <- app_assoc.
    destruct (split_plain a (" "%char :: definition_of args) ("+"%char :: done)
                (argv ++ [(length done + 1)%nat]) Ha) as [_ Hw];
      [discriminate | discriminate |].
    change ([" "%char] ++ definition_of args)
      with (" "%char :: definition_of args).
    rewrite Hw. cbn [InitPlus.split].
    change (Ascii.eqb " " "+") with false. cbn match.
    change (InitPlus.blank " ") with true. cbn match.
    destruct (IH (InitPlus.NUL :: rev a ++ "+"%char :: done)
                (argv ++ [(length done + 1)%nat])) as (buf & offs & H1 & H2 & H3).
    { right. reflexivity. }
    { exact Hargs. }
    { rewrite length_app. cbn [length]. lia. }
    exists buf, ((length done + 1)%nat :: offs).
    rewrite <- app_assoc in H1. cbn [app] in H1.
    split; [exact H1|].
    destruct H2 as [tail Htail].
    cbn [rev] in Htail. rewrite rev_app_distr in Htail. cbn [rev] in Htail.
    rewrite rev_involutive in Htail.
    rewrite <- !app_assoc in Htail. cbn [app] in Htail.
    split.
    + eexists. exact Htail.
    + intros pre tl Hpre Hbuf.
      assert (Htl : tl = "+"%char :: a ++ InitPlus.NUL :: tail).
      { rewrite Htail in Hbuf. now apply app_inv_head in Hbuf. }
      cbn [map]. f_equal.
      * unfold InitPlus.arg. subst tl.
        replace (pre ++ "+"%char :: a ++ InitPlus.NUL :: tail)
          with ((pre ++ ["+"%char]) ++ a ++ InitPlus.NUL :: tail)
          by (rewrite <- app_assoc; reflexivity).
        rewrite skipn_app, skipn_all2
          by (rewrite length_app; cbn [length]; lia).
        rewrite length_app. cbn [length].
        replace (length done + 1 - (length pre + 1))%nat with 0%nat by lia.
        cbn [skipn app]. now apply cstr_plain.
      * subst tl.
        replace (pre ++ "+"%char :: a ++ InitPlus.NUL :: tail)
          with ((pre ++ "+"%char :: a ++ [InitPlus.NUL]) ++ tail)
          by (now rewrite <- app_assoc; cbn [app]; rewrite <- app_assoc).
        apply H3.
        -- rewrite !length_app. cbn [length]. rewrite !length_app, length_rev.
           cbn [length]. lia.
        -- rewrite Htail. cbn [rev]. rewrite !rev_app_distr. cbn [rev app].
           rewrite rev_involutive, <- !app_assoc. cbn [app].
           rewrite <- ?app_assoc. reflexivity.
Qed.

Lemma split_overflow (args : list (list ascii)) :
  forall (done : list ascii) (argv : list nat),
    done = [] \/ hd InitPlus.NUL done = InitPlus.NUL ->
    forallb (forallb plain) args = true ->
    (length argv < InitPlus.MAX_ARG)%nat ->
    (InitPlus.MAX_ARG <= length argv + length args)%nat ->
    InitPlus.split (definition_of args) done argv = None.
Proof.
  induction args as [|a args IH]; intros done argv Hstart Hplain Hlt Hge.
  - cbn [length] in Hge. lia.
  - cbn [forallb] in Hplain. apply andb_true_iff in Hplain.
    destruct Hplain as [Ha Hargs]. cbn [length] in Hge.
    unfold definition_of. cbn [map concat]. fold (definition_of args).
    cbn [app InitPlus.split]. rewrite Ascii.eqb_refl.
    assert (Hs : ((length done =? 0)%nat
                  || Ascii.eqb (hd InitPlus.NUL done) InitPlus.NUL) = true).
    { destruct Hstart as [H0 | H0]; rewrite H0; [reflexivity|].
      rewrite Ascii.eqb_refl. apply orb_true_r. }
    rewrite Hs.
    destruct (Nat.eqb_spec (length argv + 1) InitPlus.MAX_ARG) as [He|He];
      [reflexivity|].
    rewrite <- app_assoc.
    change ([" "%char] ++ definition_of args)
      with (" "%char :: definition_of args).
    destruct (split_plain a (" "%char :: definition_of args) ("+"%char :: done)
                (argv ++ [(length done + 1)%nat]) Ha) as [_ Hw];
      [discriminate | discriminate |].
    rewrite Hw. cbn [InitPlus.split].
    change (Ascii.eqb " " "+") with false. cbn match.
    change (InitPlus.blank " ") with true. cbn match.
    apply IH.
    + right. reflexivity.
    + exact Hargs.
    + rewrite length_app. cbn [length]. lia.
    + rewrite length_app. cbn [length]. lia.
Qed.

Lemma cstr_without_NUL (s : list ascii) :
  forallb (fun c => negb (Ascii.eqb c InitPlus.NUL)) s = true ->
  InitPlus.cstr s = s.
Proof.
  induction s as [|c s IH]; intros H; [reflexivity|].
  cbn [forallb] in H. apply andb_true_iff in H. destruct H as [Hc Hs].
  apply negb_true_iff in Hc. cbn [InitPlus.cstr]. rewrite Hc. now rewrite IH.
Qed.

Lemma definition_of_without_NUL (args : list (list ascii)) :
  forallb (forallb plain) args = true ->
  forallb (fun c => negb (Ascii.eqb c InitPlus.NUL)) (definition_of args)
  = true.
Proof.
  induction args as [|a args IH]; intros H; [reflexivity|].
  cbn [forallb] in H. apply andb_true_iff in H. destruct H as [Ha Hargs].
  unfold definition_of. cbn [map concat]. fold (definition_of args).
  cbn [app forallb]. rewrite !forallb_app. cbn [forallb].
  rewrite (IH Hargs).
  replace (forallb (fun c => negb (Ascii.eqb c InitPlus.NUL)) a) with true.
  - reflexivity.
  - symmetry. apply forallb_forall. intros c Hin.
    rewrite forallb_forall in Ha. specialize (Ha c Hin).
    unfold plain in Ha. apply andb_true_iff in Ha. apply Ha.
Qed.

(** X20: a definition string written out from a list of arguments, each
    preceded by ['+'] and followed by a space, none containing white
    space or NUL, is split by [GEOD_init_plus] into exactly these
    arguments, which it passes to [GEOD_init]; with 200 arguments or
    more it returns NULL without calling [GEOD_init]. *)
Theorem GEOD_init_plus_round_trip (T : Type)
  (GEOD_init : list (list ascii) -> option GEODESIC_T -> T)
  (args : list (list ascii)) (geod : option GEODESIC_T) :
  forallb (forallb plain) args = true ->
  GEOD_init_plus GEOD_init (definition_of args) geod
  = if (length args <? InitPlus.MAX_ARG)%nat
    then Some (GEOD_init args geod) else None.
Proof.
  intros Hplain. unfold GEOD_init_plus.
  rewrite cstr_without_NUL by now apply definition_of_without_NUL.
  destruct (Nat.ltb_spec (length args) InitPlus.MAX_ARG) as [Hlt|Hge].
  - destruct (split_definition args [] [] (or_introl eq_refl) Hplain Hlt)
      as (buf & offs & H1 & _ & H3).
    rewrite H1. cbn [app]. f_equal. f_equal.
    apply (H3 [] buf); reflexivity.
  - rewrite split_overflow; try reflexivity; try assumption.
    + now left.
    + unfold InitPlus.MAX_ARG. cbn [length]. lia.
Qed.

(** X20, an instance: the arguments [a=1] and [b]. *)
Lemma GEOD_init_plus_round_trip_two :
  GEOD_init_plus (fun argv _ => argv)
    (definition_of [["a"%char; "="%char; "1"%char]; ["b"%char]]) None
  = Some [["a"%char; "="%char; "1"%char]; ["b"%char]].
Proof.
  apply (GEOD_init_plus_round_trip _ (fun argv _ => argv)
           [["a"%char; "="%char; "1"%char]; ["b"%char]] None).
  reflexivity.
Defined.

(** ** What [GEOD_init_plus] passes on *)

Lemma split_argc (todo : list ascii) :
  forall (done : list ascii) (argv : list nat) buf argv',
    InitPlus.split todo done argv = Some (buf, argv') ->
    (length argv < InitPlus.MAX_ARG)%nat ->
    (length argv' < InitPlus.MAX_ARG)%nat.
Proof.
  induction todo as [|c todo IH]; intros done argv buf argv' H Hlt.
  - cbn [InitPlus.split] in H. injection H as _ <-. exact Hlt.
  - cbn [InitPlus.split] in H.
    destruct (Ascii.eqb c "+").
    + destruct ((length done =? 0)%nat || _).
      * destruct (Nat.eqb_spec (length argv + 1) InitPlus.MAX_ARG) as [He|He];
          [discriminate|].
        apply IH in H; [exact H|]. rewrite length_app. cbn [length]. lia.
      * now apply IH in H.
    + destruct (InitPlus.blank c); now apply IH in H.
Qed.

Lemma split_buffer (todo : list ascii) :
  forall (done : list ascii) (argv : list nat) buf argv',
    InitPlus.split todo done argv = Some (buf, argv') ->
    forallb (fun c => negb (InitPlus.blank c)) done = true ->
    forallb (fun c => negb (InitPlus.blank c)) buf = true.
Proof.
  induction todo as [|c todo IH]; intros done argv buf argv' H Hd.
  - cbn [InitPlus.split] in H. injection H as <- _.
    apply forallb_forall. intros x Hx. apply in_rev in Hx.
    rewrite forallb_forall in Hd. now apply Hd.
  - cbn [InitPlus.split] in H.
    destruct (Ascii.eqb c "+") eqn:Hp.
    + apply Ascii.eqb_eq in Hp. subst c.
      assert (Hd' : forallb (fun c => negb (InitPlus.blank c))
                      ("+"%char :: done) = true)
        by (cbn [forallb]; now rewrite Hd).
      destruct ((length done =? 0)%nat || _).
      * destruct (length argv + 1 =? InitPlus.MAX_ARG)%nat; [discriminate|].
        now apply IH in H.
      * now apply IH in H.
    + destruct (InitPlus.blank c) eqn:Hb.
      * apply IH in H; [exact H|]. cbn [forallb]. now rewrite Hd.
      * apply IH in H; [exact H|]. cbn [forallb]. now rewrite Hb, Hd.
Qed.

Lemma cstr_chars (s : list ascii) (c : ascii) :
  In c (InitPlus.cstr s) -> In c s /\ c <> InitPlus.NUL.
Proof.
  induction s as [|d s IH]; cbn [InitPlus.cstr]; [intros []|].
  destruct (Ascii.eqb_spec d InitPlus.NUL) as [He|He]; [intros []|].
  intros [<-|Hin].
  - split; [now left | exact He].
  - destruct (IH Hin). split; [now right | assumption].
Qed.

Lemma skipn_chars {A : Type} (n : nat) (l : list A) (x : A) :
  In x (skipn n l) -> In x l.
Proof.
  revert l. induction n as [|n IH]; intros l; [trivial|].
  destruct l as [|y l]; cbn [skipn]; [trivial|]. intros H. right. now apply IH.
Qed.

(** X21: whatever the definition string, [GEOD_init_plus] passes fewer
    than 200 arguments to [GEOD_init], and no argument contains a
    space, a tab, a newline or NUL. *)
Theorem GEOD_init_plus_arguments (definition : list ascii)
  (geod : option GEODESIC_T) (args : list (list ascii)) :
  GEOD_init_plus (fun argv _ => argv) definition geod = Some args ->
  (length args < InitPlus.MAX_ARG)%nat /\
  forall a c, In a args -> In c a ->
    InitPlus.blank c = false /\ c <> InitPlus.NUL.
Proof.
  unfold GEOD_init_plus.
  destruct (InitPlus.split (InitPlus.cstr definition) [] []) as [[buf argv]|]
    eqn:Hs; [|discriminate].
  intros H. injection H as <-.
  split.
  - rewrite length_map. apply (split_argc _ _ _ _ _ Hs).
    unfold InitPlus.MAX_ARG. cbn [length]. lia.
  - intros a c Ha Hc. apply in_map_iff in Ha. destruct Ha as (o & <- & _).
    unfold InitPlus.arg in Hc. apply cstr_chars in Hc. destruct Hc as [Hc Hn].
    apply skipn_chars in Hc. split; [|exact Hn].
    pose proof (split_buffer _ _ _ _ _ Hs eq_refl) as Hb.
    rewrite forallb_forall in Hb. specialize (Hb c Hc).
    now apply negb_true_iff in Hb.
Qed.

(** X21, an instance: in [x +a<tab>b<newline>+c+d] the text before the
    first ['+'] and the word [b] are dropped, and the second ['+'] of
    [+c+d] does not start an argument. *)
Lemma GEOD_init_plus_arguments_words :
  GEOD_init_plus (fun argv _ => argv)
    ["x"%char; " "%char; "+"%char; "a"%char; "009"%char; "b"%char;
     "010"%char; "+"%char; "c"%char; "+"%char; "d"%char] None
  = Some [["a"%char]; ["c"%char; "+"%char; "d"%char]] /\
  (length [["a"%char]; ["c"%char; "+"%char; "d"%char]] < InitPlus.MAX_ARG)%nat /\
  forall a c, In a [["a"%char]; ["c"%char; "+"%char; "d"%char]] -> In c a ->
    InitPlus.blank c = false /\ c <> InitPlus.NUL.
Proof.
  split; [reflexivity|].
  apply (GEOD_init_plus_arguments
           ["x"%char; " "%char; "+"%char; "a"%char; "009"%char; "b"%char;
            "010"%char; "+"%char; "c"%char; "+"%char; "d"%char]
           None).
  reflexivity.
Defined.
